(** * Option pricer: Black-Scholes model, Monte Carlo pricers and delta hedging

    A shallow embedding of the pricing engine (BlackScholesModel, CallOption,
    PutOption, BarrierOption, AsianOption, LookbackOption) and the
    verification of its specification.

    Conventions of the embedding.
    - [double] is read as a real number ([R]): rounding is not modelled,
      and a quotient whose divisor is zero is never simplified in a
      statement (IEEE arithmetic yields an infinity or a NaN there).
    - [int] is [Z]: the counters of the loops stay below their bounds and
      do not wrap around (a step count of [INT_MAX] is not considered).
      [size_t] indices are [nat].
    - [std::vector<double>] is [list R], [push_back] appends at the end;
      memory is unbounded, so the only failure of [reserve] is the
      [std::length_error] of a size above [max_size()].
    - The sources of randomness are explicit: the values of the successive
      calls to [rand()], and, for every engine seeded from
      [std::random_device], the successive values of [dist(rng)].
    - The world also carries a call trace, the entries into the
      four-argument pricer and into the path payoff with their arguments:
      the statements about what a run calls, and on what, read it. *)

From Stdlib Require Import String Reals Lra Lia ZArith Bool List.
Import ListNotations.
Open Scope R_scope.

(** ** The error function of <cmath>

    [std::erf] is the entire function
    erf x = 2/sqrt(pi) * sum_n (-1)^n x^(2n+1) / (n! (2n+1)),
    built here from its power series, as [exp] and [cos] are in the
    standard library. *)

Module Erf.

Definition coeff (n : nat) : R := (-1) ^ n / (INR (fact n) * INR (2 * n + 1)).

Lemma coeff_den_pos (n : nat) : 0 < INR (fact n) * INR (2 * n + 1).
Proof.
  apply Rmult_lt_0_compat.
  - apply INR_fact_lt_0.
  - apply lt_0_INR. lia.
Qed.

Lemma coeff_neq_0 (n : nat) : coeff n <> 0.
Proof.
  unfold coeff. apply Rmult_integral_contrapositive_currified.
  - apply pow_nonzero. lra.
  - apply Rinv_neq_0_compat, Rgt_not_eq, coeff_den_pos.
Qed.

Lemma coeff_ratio (n : nat) :
  Rabs (coeff (S n) / coeff n) = INR (2 * n + 1) / (INR (S n) * INR (2 * n + 3)).
Proof.
  unfold coeff.
  replace (2 * S n + 1)%nat with (2 * n + 3)%nat by lia.
  rewrite fact_simpl, mult_INR.
  assert (H1 : INR (fact n) <> 0) by apply INR_fact_neq_0.
  assert (H2 : 0 < INR (2 * n + 1)) by (apply lt_0_INR; lia).
  assert (H3 : 0 < INR (2 * n + 3)) by (apply lt_0_INR; lia).
  assert (H4 : 0 < INR (S n)) by (apply lt_0_INR; lia).
  assert (Hp : (-1) ^ n <> 0) by (apply pow_nonzero; lra).
  replace ((-1) ^ S n / (INR (S n) * INR (fact n) * INR (2 * n + 3)) /
           ((-1) ^ n / (INR (fact n) * INR (2 * n + 1))))
    with (- (INR (2 * n + 1) / (INR (S n) * INR (2 * n + 3)))).
  - rewrite Rabs_Ropp. apply Rabs_pos_eq.
    apply Rlt_le, Rdiv_lt_0_compat; [ assumption | apply Rmult_lt_0_compat; assumption ].
  - simpl pow. field. repeat split; try lra; assumption.
Qed.

Lemma coeff_ratio_le (n : nat) : Rabs (coeff (S n) / coeff n) <= / INR (S n).
Proof.
  rewrite coeff_ratio.
  assert (H2 : 0 < INR (2 * n + 1)) by (apply lt_0_INR; lia).
  assert (H3 : INR (2 * n + 1) < INR (2 * n + 3)) by (apply lt_INR; lia).
  assert (H4 : 0 < INR (S n)) by (apply lt_0_INR; lia).
  assert (H5 : 0 < / INR (S n)) by (apply Rinv_0_lt_compat; assumption).
  replace (INR (2 * n + 1) / (INR (S n) * INR (2 * n + 3)))
    with (/ INR (S n) * (INR (2 * n + 1) / INR (2 * n + 3))) by (field; lra).
  assert (H6 : INR (2 * n + 1) / INR (2 * n + 3) <= 1).
  { apply Rmult_le_reg_r with (INR (2 * n + 3)); [ lra | ].
    unfold Rdiv. rewrite Rmult_assoc, Rinv_l by lra. lra. }
  nra.
Qed.

Lemma coeff_ratio_cv : Un_cv (fun n => Rabs (coeff (S n) / coeff n)) 0.
Proof.
  intros eps Heps.
  destruct (archimed (/ eps)) as [Hup _].
  assert (Hinv : 0 < / eps) by (apply Rinv_0_lt_compat; assumption).
  set (N := Z.to_nat (up (/ eps))).
  assert (HN : / eps < INR N).
  { unfold N. rewrite INR_IZR_INZ, Z2Nat.id; [ assumption | ].
    apply le_IZR. lra. }
  exists N. intros n Hn.
  unfold R_dist. rewrite Rminus_0_r, Rabs_Rabsolu.
  apply Rle_lt_trans with (/ INR (S n)); [ apply coeff_ratio_le | ].
  assert (Hn' : INR N < INR (S n)) by (apply lt_INR; lia).
  rewrite <- (Rinv_inv eps).
  apply Rinv_lt_contravar; [ | lra ].
  apply Rmult_lt_0_compat; lra.
Qed.

(** The sum of [coeff n * y^n]. *)
Definition series (y : R) : R :=
  proj1_sig (Alembert_C3 coeff y coeff_neq_0 coeff_ratio_cv).

Lemma series_sum (y : R) : Pser coeff y (series y).
Proof. unfold series. apply proj2_sig. Qed.

Definition erf (x : R) : R := 2 / sqrt PI * (x * series (x * x)).

Definition erfc (x : R) : R := 1 - erf x.

Lemma erf_opp (x : R) : erf (- x) = - erf x.
Proof.
  unfold erf. replace (- x * - x) with (x * x) by ring. ring.
Qed.

Lemma erf_0 : erf 0 = 0.
Proof. unfold erf. ring. Qed.

Lemma erfc_reflect (x : R) : erfc (- x) + erfc x = 2.
Proof. unfold erfc. rewrite erf_opp. ring. Qed.

End Erf.

(** ** Outcomes of a call and the simulation monad *)

(** The exceptions of <stdexcept> a call can end with: the
    [std::logic_error] the program throws, and the [std::length_error]
    of [std::vector::reserve]. *)
Inductive exn : Type :=
| logic_error (what : string)
| length_error.

(** A call returns a value, throws, or has undefined behaviour
    ([back()] of an empty vector, dereferencing [end()]). *)
Inductive outcome (A : Type) : Type :=
| Returned (a : A)
| Thrown (e : exn)
| Undefined.

Arguments Returned {A} a.
Arguments Thrown {A} e.
Arguments Undefined {A}.

(** The market model: class BlackScholesModel's data members. *)
Record BlackScholesModel : Type := mkModel {
  spot : R;
  rate : R;
  volatility : R;
  dividend : R
}.

(** [modelUp.spot = x]: assignment to the spot of a copy of the model. *)
Definition set_spot (m : BlackScholesModel) (x : R) : BlackScholesModel :=
  {| spot := x; rate := rate m; volatility := volatility m; dividend := dividend m |}.

(** enum class OptionType and enum class BarrierType, as main.cpp uses them. *)
Inductive OptionType : Type := Call | Put.

Inductive BarrierType : Type := UpAndOut | DownAndOut | UpAndIn | DownAndIn.

(** The call trace: entries into the four-argument Monte Carlo pricer and
    into the path payoff [payoff(const std::vector<double>&)]. *)
Inductive event : Type :=
| PriceEntered (model : BlackScholesModel) (numPaths steps : Z) (adjustedMaturity : R)
| PathPayoffEntered (path : list R).

(** The randomness the process consumes: [rand_ratio n] is the value of
    [(double)rand() / RAND_MAX] at the n-th call of [rand()], and
    [normal_draws k n] the n-th value of [dist(rng)] for the k-th engine
    seeded from [std::random_device]. *)
Record Entropy : Type := mkEntropy {
  rand_ratio : nat -> R;
  normal_draws : nat -> nat -> R
}.

Record World : Type := mkWorld {
  entropy : Entropy;
  rand_calls : nat;
  engines_seeded : nat;
  trace : list event
}.

Definition Sim (A : Type) : Type := World -> outcome (A * World).

Definition ret {A : Type} (a : A) : Sim A := fun w => Returned (a, w).

Definition bind {A B : Type} (c : Sim A) (k : A -> Sim B) : Sim B :=
  fun w =>
    match c w with
    | Returned (a, w') => k a w'
    | Thrown e => Thrown e
    | Undefined => Undefined
    end.

Definition throw {A : Type} (e : exn) : Sim A := fun _ => Thrown e.

Definition undefined {A : Type} : Sim A := fun _ => Undefined.

Declare Scope sim_scope.
Delimit Scope sim_scope with sim.
Notation "x <- c ;; k" := (bind c (fun x => k))
  (at level 61, c at next level, right associativity) : sim_scope.
Notation "' p <- c ;; k" := (bind c (fun p => k))
  (at level 61, p pattern, c at next level, right associativity) : sim_scope.
Notation "c ;; k" := (bind c (fun _ => k))
  (at level 61, right associativity) : sim_scope.
Open Scope sim_scope.

Definition enter (e : event) : Sim unit :=
  fun w => Returned (tt, {| entropy := entropy w; rand_calls := rand_calls w;
                            engines_seeded := engines_seeded w;
                            trace := trace w ++ [e] |}).

(** [(double)rand() / RAND_MAX]: the next value of the C generator. *)
Definition rand_over_RAND_MAX : Sim R :=
  fun w => Returned (rand_ratio (entropy w) (rand_calls w),
                     {| entropy := entropy w; rand_calls := S (rand_calls w);
                        engines_seeded := engines_seeded w; trace := trace w |}).

(** A seeded engine together with its standard normal distribution: the
    stream of its draws and the number of draws taken so far. *)
Record Rng : Type := mkRng {
  draws : nat -> R;
  drawn : nat
}.

(** [std::mt19937 rng(std::random_device{}());
     std::normal_distribution<> dist(0.0, 1.0);] *)
Definition seed_rng : Sim Rng :=
  fun w => Returned ({| draws := normal_draws (entropy w) (engines_seeded w); drawn := O |},
                     {| entropy := entropy w; rand_calls := rand_calls w;
                        engines_seeded := S (engines_seeded w); trace := trace w |}).

(** [dist(rng)] *)
Definition dist (rng : Rng) : R * Rng :=
  (draws rng (drawn rng), {| draws := draws rng; drawn := S (drawn rng) |}).

(** [for (int i = lo; i < hi; ++i) body], on a loop state of type [S]. *)
Fixpoint iterate {S : Type} (n : nat) (i : Z) (body : Z -> S -> S) (s : S) : S :=
  match n with
  | O => s
  | Datatypes.S n' => iterate n' (i + 1)%Z body (body i s)
  end.

Definition for_loop {S : Type} (lo hi : Z) (body : Z -> S -> S) (s : S) : S :=
  iterate (Z.to_nat (hi - lo)) lo body s.

(** The same loop with a body that runs in the monad. *)
Fixpoint iterateM {S : Type} (n : nat) (i : Z) (body : Z -> S -> Sim S) (s : S) : Sim S :=
  match n with
  | O => ret s
  | Datatypes.S n' => s' <- body i s ;; iterateM n' (i + 1)%Z body s'
  end.

Definition for_loopM {S : Type} (lo hi : Z) (body : Z -> S -> Sim S) (s : S) : Sim S :=
  iterateM (Z.to_nat (hi - lo)) lo body s.

(** Comparisons of doubles as booleans. *)
Definition ltb (x y : R) : bool := if Rlt_dec x y then true else false.

Definition leb (x y : R) : bool := if Rle_dec x y then true else false.

(** [path.back()] *)
Definition back (path : list R) : Sim R :=
  match path with
  | [] => undefined
  | x :: rest => ret (last rest x)
  end.

(** [path.reserve(n)] with an [int] argument [n]: the argument is converted
    to [size_t], so a negative [n] becomes a size above [max_size()] and
    [reserve] throws [std::length_error]; otherwise the contents of the
    vector are unchanged. *)
Definition reserve (path : list R) (n : Z) : Sim unit :=
  if (n <? 0)%Z then throw length_error else ret tt.

(** [std::accumulate(path.begin(), path.end(), 0.0)] *)
Definition accumulate (path : list R) (init : R) : R := fold_left Rplus path init.

(** [*std::max_element(first, last)] and [*std::min_element(first, last)]:
    the first greatest (smallest) element; on an empty range the iterator
    returned is [last] and dereferencing it is undefined. *)
Definition max_element (path : list R) : Sim R :=
  match path with
  | [] => undefined
  | x :: rest => ret (fold_left (fun largest y => if ltb largest y then y else largest) rest x)
  end.

Definition min_element (path : list R) : Sim R :=
  match path with
  | [] => undefined
  | x :: rest => ret (fold_left (fun smallest y => if ltb y smallest then y else smallest) rest x)
  end.

(** ** BlackScholesModel.cpp *)

(** class Option: the strike and the maturity every option carries. *)
Record Option : Type := mkOption {
  strike : R;
  maturity : R
}.

(** [M_SQRT1_2] of <cmath>: 1/sqrt(2). *)
Definition M_SQRT1_2 : R := 1 / sqrt 2.

(** [BlackScholesModel::normalCDF] *)
Definition normalCDF (x : R) : R := 0.5 * Erf.erfc (- x * M_SQRT1_2).

(** [BlackScholesModel::priceAnalytic] *)
Definition priceAnalytic (model : BlackScholesModel) (option : Option) (isCall : bool) : R :=
  let d1 := (ln (spot model / strike option) +
             (rate model - dividend model + 0.5 * volatility model * volatility model)
             * maturity option) /
            (volatility model * sqrt (maturity option)) in
  let d2 := d1 - volatility model * sqrt (maturity option) in
  let Nd1 := normalCDF d1 in
  let Nd2 := normalCDF d2 in
  let Nmd1 := normalCDF (- d1) in
  let Nmd2 := normalCDF (- d2) in
  if isCall then
    spot model * exp (- dividend model * maturity option) * Nd1 -
    strike option * exp (- rate model * maturity option) * Nd2
  else
    strike option * exp (- rate model * maturity option) * Nmd2 -
    spot model * exp (- dividend model * maturity option) * Nmd1.

(** ** CallOption.cpp and PutOption.cpp *)

(** The variables of the vanilla hedging loop, as they stand at the end of
    an iteration; [time] is the local of the loop body (0 before the loop). *)
Record VanillaHedge : Type := mkVanillaHedge {
  v_time : R;
  v_spot : R;
  v_previousDelta : R;
  v_d1 : R;
  v_currentDelta : R;
  v_cash : R
}.

Module CallOption.

(** [CallOption::payoff] *)
Definition payoff (o : Option) (spot : R) : Sim R :=
  ret (Rmax (spot - strike o) 0).

(** The state of [CallOption::hedgeCost] before its loop. *)
Definition hedge_init (o : Option) (model : BlackScholesModel) : VanillaHedge :=
  let spot := spot model in
  let previousDelta := 0 in
  let d1 := (ln (spot / strike o) +
             (rate model - dividend model + 0.5 * volatility model * volatility model)
             * maturity o) /
            (volatility model * sqrt (maturity o)) in
  let currentDelta := exp (- dividend model * maturity o) * 0.5 * (1 + Erf.erf (d1 / sqrt 2)) in
  let cash := currentDelta * spot in
  {| v_time := 0; v_spot := spot; v_previousDelta := previousDelta; v_d1 := d1;
     v_currentDelta := currentDelta; v_cash := cash |}.

(** The body of the loop of [CallOption::hedgeCost]. *)
Definition hedge_step (o : Option) (model : BlackScholesModel) (steps : Z) (dt : R)
    (i : Z) (st : VanillaHedge) : Sim VanillaHedge :=
  let time := IZR i * dt in
  spot <- (if (i <? steps)%Z then
             u <- rand_over_RAND_MAX ;;
             let drift := (rate model - dividend model
                           - 0.5 * volatility model * volatility model) * dt in
             let diffusion := volatility model * sqrt dt * (u - 0.5) in
             ret (v_spot st * exp (drift + diffusion))
           else ret (v_spot st)) ;;
  let previousDelta := v_currentDelta st in
  let d1 := (ln (spot / strike o) +
             (rate model - dividend model + 0.5 * volatility model * volatility model)
             * (maturity o - time)) /
            (volatility model * sqrt (maturity o - time)) in
  let currentDelta :=
    exp (- dividend model * (maturity o - time)) * 0.5 * (1 + Erf.erf (d1 / sqrt 2)) in
  let cash := v_cash st + (currentDelta - previousDelta) * spot in
  let cash := cash * exp (rate model * dt) in
  ret {| v_time := time; v_spot := spot; v_previousDelta := previousDelta; v_d1 := d1;
         v_currentDelta := currentDelta; v_cash := cash |}.

(** [for (int i = 1; i <= steps; ++i)] of [CallOption::hedgeCost]. *)
Definition hedge_loop (o : Option) (model : BlackScholesModel) (steps : Z) : Sim VanillaHedge :=
  let dt := maturity o / IZR steps in
  for_loopM 1 (steps + 1) (hedge_step o model steps dt) (hedge_init o model).

(** [CallOption::hedgeCost] *)
Definition hedgeCost (o : Option) (model : BlackScholesModel) (steps : Z) : Sim R :=
  st <- hedge_loop o model steps ;;
  p <- payoff o (v_spot st) ;;
  ret (v_cash st - v_currentDelta st * v_spot st + p).

End CallOption.

Module PutOption.

(** [PutOption::payoff] *)
Definition payoff (o : Option) (spot : R) : Sim R :=
  ret (Rmax (strike o - spot) 0).

(** The state of [PutOption::hedgeCost] before its loop. *)
Definition hedge_init (o : Option) (model : BlackScholesModel) : VanillaHedge :=
  let spot := spot model in
  let previousDelta := 0 in
  let d1 := (ln (spot / strike o) +
             (rate model - dividend model + 0.5 * volatility model * volatility model)
             * maturity o) /
            (volatility model * sqrt (maturity o)) in
  let currentDelta :=
    exp (- dividend model * maturity o) * (0.5 * (1 + Erf.erf (d1 / sqrt 2)) - 1) in
  let cash := currentDelta * spot in
  {| v_time := 0; v_spot := spot; v_previousDelta := previousDelta; v_d1 := d1;
     v_currentDelta := currentDelta; v_cash := cash |}.

(** The body of the loop of [PutOption::hedgeCost]. *)
Definition hedge_step (o : Option) (model : BlackScholesModel) (steps : Z) (dt : R)
    (i : Z) (st : VanillaHedge) : Sim VanillaHedge :=
  let time := IZR i * dt in
  spot <- (if (i <? steps)%Z then
             u <- rand_over_RAND_MAX ;;
             let drift := (rate model - dividend model
                           - 0.5 * volatility model * volatility model) * dt in
             let diffusion := volatility model * sqrt dt * (u - 0.5) in
             ret (v_spot st * exp (drift + diffusion))
           else ret (v_spot st)) ;;
  let previousDelta := v_currentDelta st in
  let d1 := (ln (spot / strike o) +
             (rate model - dividend model + 0.5 * volatility model * volatility model)
             * (maturity o - time)) /
            (volatility model * sqrt (maturity o - time)) in
  let currentDelta :=
    exp (- dividend model * (maturity o - time)) * (0.5 * (1 + Erf.erf (d1 / sqrt 2)) - 1) in
  let cash := v_cash st + (currentDelta - previousDelta) * spot in
  let cash := cash * exp (rate model * dt) in
  ret {| v_time := time; v_spot := spot; v_previousDelta := previousDelta; v_d1 := d1;
         v_currentDelta := currentDelta; v_cash := cash |}.

(** [for (int i = 1; i <= steps; ++i)] of [PutOption::hedgeCost]. *)
Definition hedge_loop (o : Option) (model : BlackScholesModel) (steps : Z) : Sim VanillaHedge :=
  let dt := maturity o / IZR steps in
  for_loopM 1 (steps + 1) (hedge_step o model steps dt) (hedge_init o model).

(** [PutOption::hedgeCost] *)
Definition hedgeCost (o : Option) (model : BlackScholesModel) (steps : Z) : Sim R :=
  st <- hedge_loop o model steps ;;
  p <- payoff o (v_spot st) ;;
  ret (v_cash st - v_currentDelta st * v_spot st + p).

End PutOption.

(** ** AsianOption.cpp *)

Module AsianOption.

(** class AsianOption : ExoticOption(strike, maturity), optionType. *)
Record t : Type := mk {
  strike : R;
  maturity : R;
  optionType : OptionType
}.

(** [AsianOption::payoff(const std::vector<double>& path)] *)
Definition payoff_path (o : t) (path : list R) : Sim R :=
  enter (PathPayoffEntered path) ;;
  let average := accumulate path 0 / INR (length path) in
  match optionType o with
  | Call => ret (Rmax (average - strike o) 0)
  | Put => ret (Rmax (strike o - average) 0)
  end.

(** [AsianOption::payoff(double spot)] *)
Definition payoff (o : t) (spot : R) : Sim R :=
  throw (logic_error "payoff(double spot) is not applicable for AsianOption.").

(** [AsianOption::price(model, numPaths, steps, adjustedMaturity)] *)
Definition price_adjusted (o : t) (model : BlackScholesModel) (numPaths steps : Z)
    (adjustedMaturity : R) : Sim R :=
  enter (PriceEntered model numPaths steps adjustedMaturity) ;;
  let sumPayoffs := 0 in
  let dt := adjustedMaturity / IZR steps in
  rng <- seed_rng ;;
  '(sumPayoffs, rng) <-
    for_loopM 0 numPaths (fun i '(sumPayoffs, rng) =>
      let spot := spot model in
      let path := [] in
      reserve path steps ;;
      let '(spot, path, rng) :=
        for_loop 0 steps (fun j '(spot, path, rng) =>
          let drift := (rate model - dividend model
                        - 0.5 * volatility model * volatility model) * dt in
          let '(z, rng) := dist rng in
          let diffusion := volatility model * sqrt dt * z in
          let spot := spot * exp (drift + diffusion) in
          (spot, path ++ [spot], rng)) (spot, path, rng) in
      p <- payoff_path o path ;;
      ret (sumPayoffs + p, rng)) (sumPayoffs, rng) ;;
  ret (exp (- rate model * adjustedMaturity) * (sumPayoffs / IZR numPaths)).

(** [AsianOption::price(model, numPaths, steps)] *)
Definition price (o : t) (model : BlackScholesModel) (numPaths steps : Z) : Sim R :=
  price_adjusted o model numPaths steps (maturity o).

(** The variables of [AsianOption::hedgeCost] that its loop reads or writes. *)
Record Hedge : Type := mkHedge {
  modelUp : BlackScholesModel;
  modelDown : BlackScholesModel;
  priceUp : R;
  priceDown : R;
  previousDelta : R;
  delta : R;
  h_spot : R;
  cash : R;
  h_path : list R
}.

(** [AsianOption::hedgeCost] up to its loop. *)
Definition hedge_init (o : t) (model : BlackScholesModel) (steps : Z) (numPaths : Z)
    (epsilon : R) : Sim Hedge :=
  let modelUp := model in
  let modelUp := set_spot modelUp (spot modelUp + epsilon) in
  let modelDown := model in
  let modelDown := set_spot modelDown (spot modelDown - epsilon) in
  priceUp <- price o modelUp numPaths steps ;;
  priceDown <- price o modelDown numPaths steps ;;
  let previousDelta := 0 in
  let delta := (priceUp - priceDown) / (2 * epsilon) in
  let spot := spot model in
  let cash := delta * spot in
  let path := [] in
  let path := path ++ [spot] in
  ret {| modelUp := modelUp; modelDown := modelDown; priceUp := priceUp;
         priceDown := priceDown; previousDelta := previousDelta; delta := delta;
         h_spot := spot; cash := cash; h_path := path |}.

(** The body of the loop of [AsianOption::hedgeCost]; the [previousDelta]
    it declares shadows the outer one, and [adjustedMaturity] is not read. *)
Definition hedge_step (o : t) (model : BlackScholesModel) (steps : Z) (numPaths : Z)
    (epsilon dt : R) (i : Z) (st : Hedge) : Sim Hedge :=
  let adjustedMaturity := maturity o - IZR i * dt in
  let drift := (rate model - dividend model
                - 0.5 * volatility model * volatility model) * dt in
  u <- rand_over_RAND_MAX ;;
  let diffusion := volatility model * sqrt dt * (u - 0.5) in
  let spot := h_spot st * exp (drift + diffusion) in
  let path := h_path st ++ [spot] in
  let previousDelta' := delta st in
  let modelUp := set_spot (modelUp st) (spot + epsilon) in
  let modelDown := set_spot (modelDown st) (spot - epsilon) in
  priceUp <- price o modelUp numPaths (steps - i) ;;
  priceDown <- price o modelDown numPaths (steps - i) ;;
  let delta := (priceUp - priceDown) / (2 * epsilon) in
  let cash := cash st + (delta - previousDelta') * spot in
  let cash := cash * exp (rate model * dt) in
  ret {| modelUp := modelUp; modelDown := modelDown; priceUp := priceUp;
         priceDown := priceDown; previousDelta := previousDelta st; delta := delta;
         h_spot := spot; cash := cash; h_path := path |}.

(** [AsianOption::hedgeCost] up to the end of its loop. *)
Definition hedge_run (o : t) (model : BlackScholesModel) (steps : Z) : Sim Hedge :=
  let numPaths := 10000%Z in
  let epsilon := 0.01 * spot model in
  st <- hedge_init o model steps numPaths epsilon ;;
  let dt := maturity o / IZR steps in
  for_loopM 1 steps (hedge_step o model steps numPaths epsilon dt) st.

(** [AsianOption::hedgeCost] *)
Definition hedgeCost (o : t) (model : BlackScholesModel) (steps : Z) : Sim R :=
  st <- hedge_run o model steps ;;
  p <- payoff_path o (h_path st) ;;
  ret (cash st - delta st * h_spot st + p).

End AsianOption.

(** ** LookbackOption.cpp *)

Module LookbackOption.

(** class LookbackOption : ExoticOption(strike, maturity), optionType. *)
Record t : Type := mk {
  strike : R;
  maturity : R;
  optionType : OptionType
}.

(** [LookbackOption::payoff(const std::vector<double>& path)] *)
Definition payoff_path (o : t) (path : list R) : Sim R :=
  enter (PathPayoffEntered path) ;;
  match optionType o with
  | Call =>
      maxPrice <- max_element path ;;
      ret (Rmax (maxPrice - strike o) 0)
  | Put =>
      minPrice <- min_element path ;;
      ret (Rmax (strike o - minPrice) 0)
  end.

(** [LookbackOption::payoff(double spot)] *)
Definition payoff (o : t) (spot : R) : Sim R :=
  throw (logic_error "payoff(double spot) is not applicable for LookbackOption.").

(** [LookbackOption::price(model, numPaths, steps, adjustedMaturity)] *)
Definition price_adjusted (o : t) (model : BlackScholesModel) (numPaths steps : Z)
    (adjustedMaturity : R) : Sim R :=
  enter (PriceEntered model numPaths steps adjustedMaturity) ;;
  let sumPayoffs := 0 in
  let dt := adjustedMaturity / IZR steps in
  rng <- seed_rng ;;
  '(sumPayoffs, rng) <-
    for_loopM 0 numPaths (fun i '(sumPayoffs, rng) =>
      let path := [] in
      reserve path (steps + 1) ;;
      let spot := spot model in
      let path := path ++ [spot] in
      let '(spot, path, rng) :=
        for_loop 0 steps (fun j '(spot, path, rng) =>
          let drift := (rate model - dividend model
                        - 0.5 * volatility model * volatility model) * dt in
          let '(z, rng) := dist rng in
          let diffusion := volatility model * sqrt dt * z in
          let spot := spot * exp (drift + diffusion) in
          (spot, path ++ [spot], rng)) (spot, path, rng) in
      p <- payoff_path o path ;;
      ret (sumPayoffs + p, rng)) (sumPayoffs, rng) ;;
  ret (exp (- rate model * adjustedMaturity) * (sumPayoffs / IZR numPaths)).

(** [LookbackOption::price(model, numPaths, steps)] *)
Definition price (o : t) (model : BlackScholesModel) (numPaths steps : Z) : Sim R :=
  price_adjusted o model numPaths steps (maturity o).

(** The variables of [LookbackOption::hedgeCost] that its loop reads or writes. *)
Record Hedge : Type := mkHedge {
  modelUp : BlackScholesModel;
  modelDown : BlackScholesModel;
  priceUp : R;
  priceDown : R;
  previousDelta : R;
  delta : R;
  h_spot : R;
  cash : R;
  h_path : list R
}.

(** [LookbackOption::hedgeCost] up to its loop. *)
Definition hedge_init (o : t) (model : BlackScholesModel) (steps : Z) (numPaths : Z)
    (epsilon : R) : Sim Hedge :=
  let modelUp := model in
  let modelUp := set_spot modelUp (spot modelUp + epsilon) in
  let modelDown := model in
  let modelDown := set_spot modelDown (spot modelDown - epsilon) in
  priceUp <- price o modelUp numPaths steps ;;
  priceDown <- price o modelDown numPaths steps ;;
  let previousDelta := 0 in
  let delta := (priceUp - priceDown) / (2 * epsilon) in
  let spot := spot model in
  let cash := delta * spot in
  let path := [] in
  let path := path ++ [spot] in
  ret {| modelUp := modelUp; modelDown := modelDown; priceUp := priceUp;
         priceDown := priceDown; previousDelta := previousDelta; delta := delta;
         h_spot := spot; cash := cash; h_path := path |}.

(** The body of the loop of [LookbackOption::hedgeCost]; the [previousDelta]
    it declares shadows the outer one, and [adjustedMaturity] is not read. *)
Definition hedge_step (o : t) (model : BlackScholesModel) (steps : Z) (numPaths : Z)
    (epsilon dt : R) (i : Z) (st : Hedge) : Sim Hedge :=
  let adjustedMaturity := maturity o - IZR i * dt in
  let drift := (rate model - dividend model
                - 0.5 * volatility model * volatility model) * dt in
  u <- rand_over_RAND_MAX ;;
  let diffusion := volatility model * sqrt dt * (u - 0.5) in
  let spot := h_spot st * exp (drift + diffusion) in
  let path := h_path st ++ [spot] in
  let previousDelta' := delta st in
  let modelUp := set_spot (modelUp st) (spot + epsilon) in
  let modelDown := set_spot (modelDown st) (spot - epsilon) in
  priceUp <- price o modelUp numPaths (steps - i) ;;
  priceDown <- price o modelDown numPaths (steps - i) ;;
  let delta := (priceUp - priceDown) / (2 * epsilon) in
  let cash := cash st + (delta - previousDelta') * spot in
  let cash := cash * exp (rate model * dt) in
  ret {| modelUp := modelUp; modelDown := modelDown; priceUp := priceUp;
         priceDown := priceDown; previousDelta := previousDelta st; delta := delta;
         h_spot := spot; cash := cash; h_path := path |}.

(** [LookbackOption::hedgeCost] up to the end of its loop. *)
Definition hedge_run (o : t) (model : BlackScholesModel) (steps : Z) : Sim Hedge :=
  let numPaths := 10000%Z in
  let epsilon := 0.01 * spot model in
  st <- hedge_init o model steps numPaths epsilon ;;
  let dt := maturity o / IZR steps in
  for_loopM 1 steps (hedge_step o model steps numPaths epsilon dt) st.

(** [LookbackOption::hedgeCost] *)
Definition hedgeCost (o : t) (model : BlackScholesModel) (steps : Z) : Sim R :=
  st <- hedge_run o model steps ;;
  p <- payoff_path o (h_path st) ;;
  ret (cash st - delta st * h_spot st + p).

End LookbackOption.

(** ** BarrierOption.cpp *)

(** [for (size_t i = lo; i < hi; ++i) { if (cond(i)) return true; } return false;] *)
Fixpoint scan_from (n : nat) (i : nat) (cond : nat -> bool) : bool :=
  match n with
  | O => false
  | S n' => if cond i then true else scan_from n' (S i) cond
  end.

Definition for_return_true (lo hi : nat) (cond : nat -> bool) : bool :=
  scan_from (hi - lo) lo cond.

Module BarrierOption.

(** class BarrierOption : ExoticOption(strike, maturity), barrier,
    barrierType, optionType. *)
Record t : Type := mk {
  strike : R;
  maturity : R;
  barrier : R;
  barrierType : BarrierType;
  optionType : OptionType
}.

(** [BarrierOption::payoff(double spot)] *)
Definition payoff (o : t) (spot : R) : Sim R :=
  match optionType o with
  | Call => ret (Rmax (spot - strike o) 0)
  | Put => ret (Rmax (strike o - spot) 0)
  end.

(** [BarrierOption::isBarrierTouched]; the [default] branch of the switch
    has no enumerator to reach it. *)
Definition isBarrierTouched (o : t) (path : list R) : bool :=
  match barrierType o with
  | UpAndOut | UpAndIn =>
      for_return_true 1 (length path) (fun i =>
        ltb (nth (i - 1) path 0) (barrier o) && leb (barrier o) (nth i path 0))
  | DownAndOut | DownAndIn =>
      for_return_true 1 (length path) (fun i =>
        ltb (barrier o) (nth (i - 1) path 0) && leb (nth i path 0) (barrier o))
  end.

(** [barrierType == UpAndOut || barrierType == DownAndOut] and
    [barrierType == UpAndIn || barrierType == DownAndIn] *)
Definition is_out (o : t) : bool :=
  match barrierType o with
  | UpAndOut | DownAndOut => true
  | UpAndIn | DownAndIn => false
  end.

Definition is_in (o : t) : bool :=
  match barrierType o with
  | UpAndIn | DownAndIn => true
  | UpAndOut | DownAndOut => false
  end.

(** [BarrierOption::price(model, numPaths, steps, adjustedMaturity)] *)
Definition price_adjusted (o : t) (model : BlackScholesModel) (numPaths steps : Z)
    (adjustedMaturity : R) : Sim R :=
  enter (PriceEntered model numPaths steps adjustedMaturity) ;;
  let sumPayoffs := 0 in
  let dt := adjustedMaturity / IZR steps in
  rng <- seed_rng ;;
  '(sumPayoffs, rng) <-
    for_loopM 0 numPaths (fun i '(sumPayoffs, rng) =>
      let spot := spot model in
      let path := [] in
      reserve path steps ;;
      let '(spot, path, rng) :=
        for_loop 0 steps (fun j '(spot, path, rng) =>
          let drift := (rate model - dividend model
                        - 0.5 * volatility model * volatility model) * dt in
          let '(z, rng) := dist rng in
          let diffusion := volatility model * sqrt dt * z in
          let spot := spot * exp (drift + diffusion) in
          (spot, path ++ [spot], rng)) (spot, path, rng) in
      let touched := isBarrierTouched o path in
      if is_out o && touched then
        ret (sumPayoffs + 0, rng)
      else if is_in o && negb touched then
        ret (sumPayoffs + 0, rng)
      else
        final <- back path ;;
        p <- payoff o final ;;
        ret (sumPayoffs + p, rng)) (sumPayoffs, rng) ;;
  ret (exp (- rate model * adjustedMaturity) * (sumPayoffs / IZR numPaths)).

(** [BarrierOption::price(model, numPaths, steps)] *)
Definition price (o : t) (model : BlackScholesModel) (numPaths steps : Z) : Sim R :=
  price_adjusted o model numPaths steps (maturity o).

(** The variables of [BarrierOption::hedgeCost] that its loop reads or writes. *)
Record Hedge : Type := mkHedge {
  modelUp : BlackScholesModel;
  modelDown : BlackScholesModel;
  priceUp : R;
  priceDown : R;
  previousDelta : R;
  delta : R;
  h_spot : R;
  cash : R;
  h_path : list R;
  barrierTouched : bool
}.

(** [BarrierOption::hedgeCost] up to its loop. *)
Definition hedge_init (o : t) (model : BlackScholesModel) (steps : Z) (numPaths : Z)
    (epsilon : R) : Sim Hedge :=
  let modelUp := model in
  let modelUp := set_spot modelUp (spot modelUp + epsilon) in
  priceUp <- price o modelUp numPaths steps ;;
  let modelDown := model in
  let modelDown := set_spot modelDown (spot modelDown - epsilon) in
  priceDown <- price o modelDown numPaths steps ;;
  let previousDelta := 0 in
  let delta := (priceUp - priceDown) / (2 * epsilon) in
  let spot := spot model in
  let cash := delta * spot in
  let path := [] in
  let path := path ++ [spot] in
  let barrierTouched := isBarrierTouched o path in
  ret {| modelUp := modelUp; modelDown := modelDown; priceUp := priceUp;
         priceDown := priceDown; previousDelta := previousDelta; delta := delta;
         h_spot := spot; cash := cash; h_path := path;
         barrierTouched := barrierTouched |}.

(** The body of the loop of [BarrierOption::hedgeCost]. *)
Definition hedge_step (o : t) (model : BlackScholesModel) (steps : Z) (numPaths : Z)
    (epsilon dt : R) (i : Z) (st : Hedge) : Sim Hedge :=
  let adjustedMaturity := maturity o - IZR i * dt in
  let drift := (rate model - dividend model
                - 0.5 * volatility model * volatility model) * dt in
  u <- rand_over_RAND_MAX ;;
  let diffusion := volatility model * sqrt dt * (u - 0.5) in
  let spot := h_spot st * exp (drift + diffusion) in
  let path := h_path st ++ [spot] in
  let barrierTouched := isBarrierTouched o path in
  let previousDelta := delta st in
  '(modelUp, modelDown, priceUp, priceDown, delta) <-
    (if barrierTouched then
       ret (modelUp st, modelDown st, priceUp st, priceDown st, 0)
     else
       let modelUp := set_spot (modelUp st) (spot + epsilon) in
       let modelDown := set_spot (modelDown st) (spot - epsilon) in
       priceUp <- price_adjusted o modelUp numPaths (steps - i) adjustedMaturity ;;
       priceDown <- price_adjusted o modelDown numPaths (steps - i) adjustedMaturity ;;
       ret (modelUp, modelDown, priceUp, priceDown, (priceUp - priceDown) / (2 * epsilon))) ;;
  let cash := cash st + (delta - previousDelta) * spot in
  let cash := cash * exp (rate model * dt) in
  ret {| modelUp := modelUp; modelDown := modelDown; priceUp := priceUp;
         priceDown := priceDown; previousDelta := previousDelta; delta := delta;
         h_spot := spot; cash := cash; h_path := path;
         barrierTouched := barrierTouched |}.

(** [BarrierOption::hedgeCost] up to the end of its loop. *)
Definition hedge_run (o : t) (model : BlackScholesModel) (steps : Z) : Sim Hedge :=
  let numPaths := 10000%Z in
  let epsilon := 0.01 * spot model in
  st <- hedge_init o model steps numPaths epsilon ;;
  let dt := maturity o / IZR steps in
  for_loopM 1 steps (hedge_step o model steps numPaths epsilon dt) st.

(** [BarrierOption::hedgeCost] *)
Definition hedgeCost (o : t) (model : BlackScholesModel) (steps : Z) : Sim R :=
  st <- hedge_run o model steps ;;
  finalPayoff <- payoff o (h_spot st) ;;
  let cash :=
    if is_in o && barrierTouched st then cash st + finalPayoff
    else if is_out o && negb (barrierTouched st) then cash st + finalPayoff
    else cash st in
  ret (cash - delta st * h_spot st).

End BarrierOption.

(** ** The specification's own definitions

    These follow the words of the specification (sections 4.1 to 4.4), not
    the code; the theorems below compare the code with them. *)

Module Spec.

(** The sum of [f 0 .. f (n-1)]. *)
Fixpoint sum_n (f : nat -> R) (n : nat) : R :=
  match n with
  | O => 0
  | S k => sum_n f k + f k
  end.

(** 4.1: [S_{j+1} = S_j * exp((rate - dividend - 0.5*volatility^2)*dt
    + volatility*sqrt(dt)*Z_j)]. *)
Definition gbm_next (model : BlackScholesModel) (dt z s : R) : R :=
  s * exp ((rate model - dividend model - 0.5 * volatility model ^ 2) * dt
           + volatility model * sqrt dt * z).

(** The price [S_j] of a path that starts from [model.spot], for the
    draws [Zs 0, Zs 1, ...]. *)
Fixpoint S_ (model : BlackScholesModel) (dt : R) (Zs : nat -> R) (j : nat) : R :=
  match j with
  | O => spot model
  | S k => gbm_next model dt (Zs k) (S_ model dt Zs k)
  end.

(** The simulated prices [S_1 .. S_steps], with [dt = horizon / steps]. *)
Definition simulated (model : BlackScholesModel) (steps : Z) (horizon : R)
    (Zs : nat -> R) : list R :=
  map (S_ model (horizon / IZR steps) Zs) (seq 1 (Z.to_nat steps)).

(** The same path with the seed price [S_0 = model.spot] in front. *)
Definition simulated_with_seed (model : BlackScholesModel) (steps : Z) (horizon : R)
    (Zs : nat -> R) : list R :=
  map (S_ model (horizon / IZR steps) Zs) (seq 0 (S (Z.to_nat steps))).

(** 4.2, vanilla: Call [max(spot-strike,0)], Put [max(strike-spot,0)]. *)
Definition vanilla_payoff (ty : OptionType) (strike spot : R) : R :=
  match ty with
  | Call => Rmax (spot - strike) 0
  | Put => Rmax (strike - spot) 0
  end.

(** 4.2, Asian: the arithmetic mean of all path prices. *)
Definition mean (path : list R) : R := fold_right Rplus 0 path / INR (length path).

Definition asian_payoff (ty : OptionType) (strike : R) (path : list R) : R :=
  match ty with
  | Call => Rmax (mean path - strike) 0
  | Put => Rmax (strike - mean path) 0
  end.

(** 4.2, Lookback: the path maximum for a call, the path minimum for a put
    (of a path with at least the price [x]). *)
Definition path_max (x : R) (rest : list R) : R := fold_right Rmax x rest.

Definition path_min (x : R) (rest : list R) : R := fold_right Rmin x rest.

Definition lookback_payoff (ty : OptionType) (strike : R) (x : R) (rest : list R) : R :=
  match ty with
  | Call => Rmax (path_max x rest - strike) 0
  | Put => Rmax (strike - path_min x rest) 0
  end.

(** 4.2, Barrier: a directional crossing, [price[i-1] < barrier <= price[i]]
    for Up-type barriers, [price[i-1] > barrier >= price[i]] for Down-type. *)
Definition is_up (bt : BarrierType) : bool :=
  match bt with
  | UpAndOut | UpAndIn => true
  | DownAndOut | DownAndIn => false
  end.

Definition is_knock_out (bt : BarrierType) : bool :=
  match bt with
  | UpAndOut | DownAndOut => true
  | UpAndIn | DownAndIn => false
  end.

Definition crossing (bt : BarrierType) (barrier : R) (path : list R) (i : nat) : Prop :=
  (1 <= i < length path)%nat /\
  if is_up bt
  then nth (i - 1) path 0 < barrier /\ nth i path 0 >= barrier
  else nth (i - 1) path 0 > barrier /\ nth i path 0 <= barrier.

Definition touched (bt : BarrierType) (barrier : R) (path : list R) : Prop :=
  exists i : nat, crossing bt barrier path i.

(** Knock-out variants pay the terminal vanilla payoff only if never
    touched, knock-in variants only if touched at least once, else zero;
    [was_touched] is the barrier state of the path. *)
Definition barrier_payoff (bt : BarrierType) (ty : OptionType) (strike : R)
    (was_touched : bool) (terminal : R) : R :=
  if is_knock_out bt
  then (if was_touched then 0 else vanilla_payoff ty strike terminal)
  else (if was_touched then vanilla_payoff ty strike terminal else 0).

(** 4.3: [exp(-rate*horizon) * (sum / numPaths)], the sum of the payoffs
    of [numPaths] paths; [payoff_of_path i] is the payoff of the i-th one. *)
Definition mc_price (model : BlackScholesModel) (numPaths : Z) (horizon : R)
    (payoff_of_path : nat -> R) : R :=
  exp (- rate model * horizon)
  * (sum_n payoff_of_path (Z.to_nat numPaths) / IZR numPaths).

(** 4.4, Simulate: the real-world spot after [i] rebalancing steps, for the
    values [U 0, U 1, ...] of the uniform perturbation. *)
Fixpoint hedge_spot (model : BlackScholesModel) (dt : R) (U : nat -> R) (i : nat) : R :=
  match i with
  | O => spot model
  | S k => hedge_spot model dt U k
           * exp ((rate model - dividend model - 0.5 * volatility model ^ 2) * dt
                  + volatility model * sqrt dt * (U k - 0.5))
  end.

End Spec.

(** ** Definitions for the statements and the proofs *)

(** *** The paths and the draws of a pricing call *)

(** The path loop of the three Monte Carlo pricers. *)
Definition path_step (model : BlackScholesModel) (dt : R) (j : Z)
    (st : R * list R * Rng) : R * list R * Rng :=
  let '(spot, path, rng) := st in
  let drift := (rate model - dividend model
                - 0.5 * volatility model * volatility model) * dt in
  let '(z, rng) := dist rng in
  let diffusion := volatility model * sqrt dt * z in
  let spot := spot * exp (drift + diffusion) in
  (spot, path ++ [spot], rng).

(** The draws of the i-th path of a pricing call that starts in world [w]:
    the engine is the next one seeded, each path takes [steps] draws. *)
Definition path_draws (w : World) (steps : Z) (i : nat) : nat -> R :=
  fun j => normal_draws (entropy w) (engines_seeded w) (i * Z.to_nat steps + j)%nat.

(** The world after a pricing call that started in [w]: one more engine
    seeded, the events [evs] appended to the trace. *)
Definition after_price (w : World) (evs : list event) : World :=
  {| entropy := entropy w; rand_calls := rand_calls w;
     engines_seeded := S (engines_seeded w); trace := trace w ++ evs |}.

(** The world [w] with the events [evs] appended to its trace. *)
Definition logged (w : World) (evs : list event) : World :=
  {| entropy := entropy w; rand_calls := rand_calls w;
     engines_seeded := engines_seeded w; trace := trace w ++ evs |}.

(** The payoff of the i-th path of an Asian pricing call started in [w]. *)
Definition Asian_path_payoff (o : AsianOption.t) (model : BlackScholesModel)
    (steps : Z) (horizon : R) (w : World) (i : nat) : R :=
  Spec.asian_payoff (AsianOption.optionType o) (AsianOption.strike o)
    (Spec.simulated model steps horizon (path_draws w steps i)).

(** The payoff of the i-th path of a Lookback pricing call started in [w]. *)
Definition Lookback_path_payoff (o : LookbackOption.t) (model : BlackScholesModel)
    (steps : Z) (horizon : R) (w : World) (i : nat) : R :=
  Spec.lookback_payoff (LookbackOption.optionType o) (LookbackOption.strike o)
    (spot model) (Spec.simulated model steps horizon (path_draws w steps i)).

(** The payoff of the i-th path of a Barrier pricing call started in [w]. *)
Definition Barrier_path_payoff (o : BarrierOption.t) (model : BlackScholesModel)
    (steps : Z) (horizon : R) (w : World) (i : nat) : R :=
  Spec.barrier_payoff (BarrierOption.barrierType o) (BarrierOption.optionType o)
    (BarrierOption.strike o)
    (BarrierOption.isBarrierTouched o
       (Spec.simulated model steps horizon (path_draws w steps i)))
    (Spec.S_ model (horizon / IZR steps) (path_draws w steps i) (Z.to_nat steps)).

(** *** The call trace of a hedging run *)

(** The arguments of a call of the four-argument pricer. *)
Record PriceCall : Type := mkCall {
  pc_model : BlackScholesModel;
  pc_numPaths : Z;
  pc_steps : Z;
  pc_maturity : R
}.

(** The pricing calls of a trace, in order. *)
Definition price_calls (tr : list event) : list PriceCall :=
  flat_map (fun e =>
              match e with
              | PriceEntered m n s T =>
                  [{| pc_model := m; pc_numPaths := n; pc_steps := s; pc_maturity := T |}]
              | PathPayoffEntered _ => []
              end) tr.

(** The path payoffs of a trace, in order. *)
Definition payoff_paths (tr : list event) : list (list R) :=
  flat_map (fun e =>
              match e with
              | PriceEntered _ _ _ _ => []
              | PathPayoffEntered path => [path]
              end) tr.

(** The two pricing calls of a finite difference around [s]. *)
Definition bumped_calls (model : BlackScholesModel) (s epsilon : R) (numPaths steps : Z)
    (T : R) : list PriceCall :=
  [ {| pc_model := set_spot model (s + epsilon); pc_numPaths := numPaths;
       pc_steps := steps; pc_maturity := T |};
    {| pc_model := set_spot model (s - epsilon); pc_numPaths := numPaths;
       pc_steps := steps; pc_maturity := T |} ].

(** The uniform values a hedging run started in [w] consumes. *)
Definition hedge_uniforms (w : World) : nat -> R :=
  fun j => rand_ratio (entropy w) (rand_calls w + j)%nat.

(** The real-world trajectory after [k] rebalancing steps: [S_0 .. S_k]. *)
Definition trajectory (model : BlackScholesModel) (dt : R) (U : nat -> R) (k : nat) : list R :=
  map (Spec.hedge_spot model dt U) (seq 0 (S k)).

(** The pricing calls of the Asian and Lookback hedging runs after [k]
    steps: two at the start, two per step, all at the option's maturity. *)
Definition full_maturity_calls (model : BlackScholesModel) (maturity : R) (steps : Z)
    (U : nat -> R) (k : nat) : list PriceCall :=
  let epsilon := 0.01 * spot model in
  let dt := maturity / IZR steps in
  bumped_calls model (spot model) epsilon 10000 steps maturity
  ++ flat_map (fun j => bumped_calls model (Spec.hedge_spot model dt U j) epsilon 10000
                          (steps - Z.of_nat j) maturity)
       (seq 1 k).

Definition Asian_hedge_inv (o : AsianOption.t) (model : BlackScholesModel) (steps : Z)
    (w0 : World) (k : nat) (st : AsianOption.Hedge) (w : World) : Prop :=
  let dt := AsianOption.maturity o / IZR steps in
  let U := hedge_uniforms w0 in
  AsianOption.h_spot st = Spec.hedge_spot model dt U k
  /\ AsianOption.h_path st = trajectory model dt U k
  /\ AsianOption.modelUp st = set_spot model (AsianOption.h_spot st + 0.01 * spot model)
  /\ AsianOption.modelDown st = set_spot model (AsianOption.h_spot st - 0.01 * spot model)
  /\ entropy w = entropy w0
  /\ rand_calls w = (rand_calls w0 + k)%nat
  /\ price_calls (trace w)
     = price_calls (trace w0) ++ full_maturity_calls model (AsianOption.maturity o) steps U k.

Definition Lookback_hedge_inv (o : LookbackOption.t) (model : BlackScholesModel) (steps : Z)
    (w0 : World) (k : nat) (st : LookbackOption.Hedge) (w : World) : Prop :=
  let dt := LookbackOption.maturity o / IZR steps in
  let U := hedge_uniforms w0 in
  LookbackOption.h_spot st = Spec.hedge_spot model dt U k
  /\ LookbackOption.h_path st = trajectory model dt U k
  /\ LookbackOption.modelUp st = set_spot model (LookbackOption.h_spot st + 0.01 * spot model)
  /\ LookbackOption.modelDown st = set_spot model (LookbackOption.h_spot st - 0.01 * spot model)
  /\ entropy w = entropy w0
  /\ rand_calls w = (rand_calls w0 + k)%nat
  /\ price_calls (trace w)
     = price_calls (trace w0) ++ full_maturity_calls model (LookbackOption.maturity o) steps U k.

(** The pricing calls of the Barrier hedging run after [k] steps: two at
    the start at the option's maturity, and at every step whose trajectory
    has not touched the barrier two at the remaining maturity. *)
Definition remaining_maturity_calls (o : BarrierOption.t) (model : BlackScholesModel)
    (steps : Z) (U : nat -> R) (k : nat) : list PriceCall :=
  let epsilon := 0.01 * spot model in
  let dt := BarrierOption.maturity o / IZR steps in
  bumped_calls model (spot model) epsilon 10000 steps (BarrierOption.maturity o)
  ++ flat_map (fun j =>
                 if BarrierOption.isBarrierTouched o (trajectory model dt U j) then []
                 else bumped_calls model (Spec.hedge_spot model dt U j) epsilon 10000
                        (steps - Z.of_nat j)
                        (BarrierOption.maturity o - IZR (Z.of_nat j) * dt))
       (seq 1 k).

Definition Barrier_hedge_inv (o : BarrierOption.t) (model : BlackScholesModel) (steps : Z)
    (w0 : World) (k : nat) (st : BarrierOption.Hedge) (w : World) : Prop :=
  let dt := BarrierOption.maturity o / IZR steps in
  let U := hedge_uniforms w0 in
  BarrierOption.h_spot st = Spec.hedge_spot model dt U k
  /\ BarrierOption.h_path st = trajectory model dt U k
  /\ (exists a, BarrierOption.modelUp st = set_spot model a)
  /\ (exists b, BarrierOption.modelDown st = set_spot model b)
  /\ BarrierOption.barrierTouched st = BarrierOption.isBarrierTouched o (BarrierOption.h_path st)
  /\ entropy w = entropy w0
  /\ rand_calls w = (rand_calls w0 + k)%nat
  /\ price_calls (trace w)
     = price_calls (trace w0) ++ remaining_maturity_calls o model steps U k.

(** *** The vanilla hedging loops *)

(** What the last iteration of a vanilla hedging loop leaves in [time] and
    [d1]: [d1] is a quotient by [volatility * sqrt(maturity - time)]. *)
Definition vanilla_last_step (o : Option) (model : BlackScholesModel) (dt : R)
    (k : nat) (st : VanillaHedge) : Prop :=
  (1 <= k)%nat ->
  v_time st = IZR (Z.of_nat k) * dt
  /\ v_d1 st
     = (ln (v_spot st / strike o)
        + (rate model - dividend model + 0.5 * volatility model * volatility model)
          * (maturity o - v_time st))
       / (volatility model * sqrt (maturity o - v_time st)).

(** *** A concrete market, options and world *)

(** spot 100, rate 5%, volatility 20%, no dividend. *)
Definition example_model : BlackScholesModel :=
  {| spot := 100; rate := 0.05; volatility := 0.2; dividend := 0 |}.

(** [rand()] returns [RAND_MAX] at every call; every normal draw is 0. *)
Definition example_entropy : Entropy :=
  {| rand_ratio := fun _ => 1; normal_draws := fun _ _ => 0 |}.

Definition example_world : World :=
  {| entropy := example_entropy; rand_calls := O; engines_seeded := O; trace := [] |}.

(** At-the-money options of maturity one year. *)
Definition example_vanilla : Option := {| strike := 100; maturity := 1 |}.

Definition example_asian : AsianOption.t :=
  {| AsianOption.strike := 100; AsianOption.maturity := 1;
     AsianOption.optionType := Call |}.

Definition example_lookback : LookbackOption.t :=
  {| LookbackOption.strike := 100; LookbackOption.maturity := 1;
     LookbackOption.optionType := Call |}.

Definition example_barrier : BarrierOption.t :=
  {| BarrierOption.strike := 100; BarrierOption.maturity := 1;
     BarrierOption.barrier := 100; BarrierOption.barrierType := UpAndOut;
     BarrierOption.optionType := Call |}.

(** *** The predicates of the claims *)




(** Every payoff of an Asian pricing call is evaluated on the [steps]
    simulated prices [S_1 .. S_steps] of its path: the seed price
    [S_0 = model.spot] is not an element. *)
Definition Asian_price_excludes_seed (o : AsianOption.t) (model : BlackScholesModel)
    (numPaths steps : Z) (T : R) (w : World) : Prop :=
  exists v evs,
    AsianOption.price_adjusted o model numPaths steps T w = Returned (v, after_price w evs)
    /\ payoff_paths evs
       = map (fun i => Spec.simulated model steps T (path_draws w steps i))
           (seq 0 (Z.to_nat numPaths))
    /\ forall path, In path (payoff_paths evs) ->
         length path = Z.to_nat steps
         /\ exists Zs, forall j, (j < Z.to_nat steps)%nat ->
              nth j path 0 = Spec.S_ model (T / IZR steps) Zs (S j).

(** Every payoff of a Lookback pricing call is evaluated on the
    [steps + 1] prices [S_0 .. S_steps] of its path, [S_0 = model.spot]. *)
Definition Lookback_price_includes_seed (o : LookbackOption.t) (model : BlackScholesModel)
    (numPaths steps : Z) (T : R) (w : World) : Prop :=
  exists v evs,
    LookbackOption.price_adjusted o model numPaths steps T w
    = Returned (v, after_price w evs)
    /\ payoff_paths evs
       = map (fun i => Spec.simulated_with_seed model steps T (path_draws w steps i))
           (seq 0 (Z.to_nat numPaths))
    /\ forall path, In path (payoff_paths evs) ->
         length path = S (Z.to_nat steps)
         /\ nth 0 path 0 = spot model
         /\ exists Zs, forall j, (j <= Z.to_nat steps)%nat ->
              nth j path 0 = Spec.S_ model (T / IZR steps) Zs j.

(** The last event of an Asian hedging run is its terminal payoff, on the
    real-world trajectory [S_0 .. S_(steps-1)], [S_0 = model.spot]. *)
Definition Asian_hedge_includes_seed (o : AsianOption.t) (model : BlackScholesModel)
    (steps : Z) (w : World) : Prop :=
  exists v w' tr path,
    AsianOption.hedgeCost o model steps w = Returned (v, w')
    /\ trace w' = tr ++ [PathPayoffEntered path]
    /\ length path = Z.to_nat steps
    /\ nth 0 path 0 = spot model
    /\ forall j, (j < Z.to_nat steps)%nat ->
         nth j path 0
         = Spec.hedge_spot model (AsianOption.maturity o / IZR steps) (hedge_uniforms w) j.

(** What the three pricers do when [numPaths <= 0]: the engine is seeded,
    no path is simulated, no payoff evaluated, and a value is returned.
    For [numPaths < 0] the value is [exp(-rate*maturity) * (0 / numPaths)];
    for [numPaths = 0] the quotient is [0 / 0] and its value is not stated. *)
Definition prices_without_paths (oA : AsianOption.t) (oL : LookbackOption.t)
    (oB : BarrierOption.t) (model : BlackScholesModel) (numPaths steps : Z)
    (w : World) : Prop :=
  exists a l b,
    AsianOption.price oA model numPaths steps w
    = Returned (a, after_price w
                     [PriceEntered model numPaths steps (AsianOption.maturity oA)])
    /\ LookbackOption.price oL model numPaths steps w
       = Returned (l, after_price w
                        [PriceEntered model numPaths steps (LookbackOption.maturity oL)])
    /\ BarrierOption.price oB model numPaths steps w
       = Returned (b, after_price w
                        [PriceEntered model numPaths steps (BarrierOption.maturity oB)])
    /\ ((numPaths < 0)%Z ->
        a = exp (- rate model * AsianOption.maturity oA) * (0 / IZR numPaths)
        /\ l = exp (- rate model * LookbackOption.maturity oL) * (0 / IZR numPaths)
        /\ b = exp (- rate model * BarrierOption.maturity oB) * (0 / IZR numPaths)).

(** *** Definitions for the further properties *)

(** The option of the same strike, maturity, barrier and option type with
    another barrier type. *)
Definition with_barrierType (o : BarrierOption.t) (bt : BarrierType) : BarrierOption.t :=
  {| BarrierOption.strike := BarrierOption.strike o;
     BarrierOption.maturity := BarrierOption.maturity o;
     BarrierOption.barrier := BarrierOption.barrier o;
     BarrierOption.barrierType := bt;
     BarrierOption.optionType := BarrierOption.optionType o |}.

(** The world [w] after [n] more calls of [rand()]. *)
Definition drew (w : World) (n : nat) : World :=
  {| entropy := entropy w; rand_calls := (rand_calls w + n)%nat;
     engines_seeded := engines_seeded w; trace := trace w |}.


(** A pricing call of a hedging run of [steps] steps: 10000 paths, and a
    step count between 1 and [steps]. *)
Definition nested_call (steps : Z) (c : PriceCall) : Prop :=
  pc_numPaths c = 10000%Z /\ (1 <= pc_steps c <= steps)%Z.

(** Two worlds whose next engines agree on their first [n] draws. *)
Definition same_draws (w1 w2 : World) (n : nat) : Prop :=
  forall k, (k < n)%nat ->
    normal_draws (entropy w1) (engines_seeded w1) k
    = normal_draws (entropy w2) (engines_seeded w2) k.

(** The price after [j] steps of length [dt] of a spot that grows at the
    rate [rate - dividend] without noise: each price is the one before it
    times [exp((rate - dividend) * dt)]. *)
Fixpoint forward_price (model : BlackScholesModel) (dt : R) (j : nat) : R :=
  match j with
  | O => spot model
  | S k => forward_price model dt k * exp ((rate model - dividend model) * dt)
  end.

(** The prices after [1 .. steps] steps of length [T / steps]. *)
Definition forward_curve (model : BlackScholesModel) (steps : Z) (T : R) : list R :=
  map (forward_price model (T / IZR steps)) (seq 1 (Z.to_nat steps)).

(** ** Reasoning about the monad and the loops *)

Lemma bind_Returned {A B : Type} (c : Sim A) (k : A -> Sim B) (w w' : World) (a : A) :
  c w = Returned (a, w') -> bind c k w = k a w'.
Proof. intros H. unfold bind. rewrite H. reflexivity. Qed.

(** The first two steps of a pricer: the entry in the trace, the engine. *)
Ltac enter_pricer :=
  unfold bind at 1; unfold enter;
  unfold bind at 1; unfold seed_rng;
  cbv beta iota zeta.

(** Runs the first computation of a [bind] with the lemma [H] that gives
    its result. *)
Tactic Notation "run_with" uconstr(H) := rewrite (bind_Returned _ _ _ _ _ H).

Lemma iterate_ext {S : Type} (f g : Z -> S -> S) :
  (forall i s, f i s = g i s) ->
  forall n i s, iterate n i f s = iterate n i g s.
Proof.
  intros Hfg n. induction n as [|n IH]; intros i s; simpl.
  - reflexivity.
  - rewrite Hfg. apply IH.
Qed.

Lemma for_loop_ext {S : Type} (f g : Z -> S -> S) (lo hi : Z) (s : S) :
  (forall i s, f i s = g i s) -> for_loop lo hi f s = for_loop lo hi g s.
Proof. intros Hfg. unfold for_loop. apply iterate_ext, Hfg. Qed.

(** A pure loop follows a sequence of states. *)
Lemma iterate_seq {S : Type} (body : Z -> S -> S) :
  forall (n : nat) (i0 : Z) (sK : nat -> S),
    (forall k, (k < n)%nat -> body (i0 + Z.of_nat k)%Z (sK k) = sK (Datatypes.S k)) ->
    iterate n i0 body (sK O) = sK n.
Proof.
  induction n as [|n IH]; intros i0 sK Hstep; simpl.
  - reflexivity.
  - assert (H0 : body i0 (sK O) = sK 1%nat).
    { rewrite <- (Hstep O) by lia. f_equal. simpl. lia. }
    rewrite H0.
    apply (IH (i0 + 1)%Z (fun k => sK (Datatypes.S k))).
    intros k Hk. rewrite <- (Hstep (Datatypes.S k)) by lia. f_equal. lia.
Qed.

(** A monadic loop whose body returns follows a sequence of states and worlds. *)
Lemma iterateM_seq {S : Type} (body : Z -> S -> Sim S) :
  forall (n : nat) (i0 : Z) (sK : nat -> S) (wK : nat -> World),
    (forall k, (k < n)%nat ->
       body (i0 + Z.of_nat k)%Z (sK k) (wK k)
       = Returned (sK (Datatypes.S k), wK (Datatypes.S k))) ->
    iterateM n i0 body (sK O) (wK O) = Returned (sK n, wK n).
Proof.
  induction n as [|n IH]; intros i0 sK wK Hstep; simpl.
  - reflexivity.
  - assert (H0 : body i0 (sK O) (wK O) = Returned (sK 1%nat, wK 1%nat)).
    { rewrite <- (Hstep O) by lia. f_equal. simpl. lia. }
    run_with H0.
    apply (IH (i0 + 1)%Z (fun k => sK (Datatypes.S k)) (fun k => wK (Datatypes.S k))).
    intros k Hk. rewrite <- (Hstep (Datatypes.S k)) by lia. f_equal. lia.
Qed.

(** A monadic loop preserves an invariant its body preserves, and returns
    if its body does. *)
Lemma iterateM_inv {S : Type} (body : Z -> S -> Sim S) :
  forall (n : nat) (i0 : Z) (P : nat -> S -> World -> Prop) (s : S) (w : World),
    P O s w ->
    (forall k s w, (k < n)%nat -> P k s w ->
       exists s' w', body (i0 + Z.of_nat k)%Z s w = Returned (s', w')
                     /\ P (Datatypes.S k) s' w') ->
    exists s' w', iterateM n i0 body s w = Returned (s', w') /\ P n s' w'.
Proof.
  induction n as [|n IH]; intros i0 P s w H0 Hstep; simpl.
  - exists s, w. split; [ reflexivity | assumption ].
  - destruct (Hstep O s w ltac:(lia) H0) as (s1 & w1 & Hb & H1).
    replace (i0 + Z.of_nat 0)%Z with i0 in Hb by (simpl; lia).
    run_with Hb.
    apply (IH (i0 + 1)%Z (fun k => P (Datatypes.S k))); [ assumption | ].
    intros k s' w' Hk HP.
    destruct (Hstep (Datatypes.S k) s' w' ltac:(lia) HP) as (s2 & w2 & Hb2 & H2).
    exists s2, w2. split; [ | assumption ].
    rewrite <- Hb2. f_equal. lia.
Qed.

Lemma reserve_run (path : list R) (n : Z) (w : World) :
  (0 <= n)%Z -> reserve path n w = Returned (tt, w).
Proof.
  intros Hn. unfold reserve.
  destruct (Z.ltb_spec n 0); [ lia | reflexivity ].
Qed.

Lemma reserve_throws (path : list R) (n : Z) (w : World) :
  (n < 0)%Z -> reserve path n w = Thrown length_error.
Proof.
  intros Hn. unfold reserve.
  destruct (Z.ltb_spec n 0); [ reflexivity | lia ].
Qed.

Lemma drift_pow (a v : R) : a * v * v = a * v ^ 2.
Proof. ring. Qed.

Lemma seq_snoc (a n : nat) : seq a (S n) = seq a n ++ [(a + n)%nat].
Proof. rewrite seq_S. reflexivity. Qed.

Lemma path_loop (model : BlackScholesModel) (dt : R) (D : nat -> R) (d : nat)
    (steps : Z) (p0 : list R) :
  for_loop 0 steps (path_step model dt) (spot model, p0, {| draws := D; drawn := d |})
  = (Spec.S_ model dt (fun j => D (d + j)%nat) (Z.to_nat steps),
     p0 ++ map (Spec.S_ model dt (fun j => D (d + j)%nat)) (seq 1 (Z.to_nat steps)),
     {| draws := D; drawn := (d + Z.to_nat steps)%nat |}).
Proof.
  unfold for_loop. rewrite Z.sub_0_r.
  set (Zs := fun j => D (d + j)%nat).
  set (sK := fun k => (Spec.S_ model dt Zs k,
                       p0 ++ map (Spec.S_ model dt Zs) (seq 1 k),
                       {| draws := D; drawn := (d + k)%nat |})).
  replace (spot model, p0, {| draws := D; drawn := d |}) with (sK O)
    by (unfold sK; simpl; rewrite app_nil_r, Nat.add_0_r; reflexivity).
  apply (iterate_seq (path_step model dt) (Z.to_nat steps) 0%Z sK).
  - intros k Hk. unfold sK. unfold path_step, dist. simpl draws. simpl drawn.
    rewrite seq_snoc, map_app, app_assoc. simpl map.
    replace (d + S k)%nat with (S (d + k)) by lia.
    simpl Spec.S_. unfold Spec.gbm_next, Zs. rewrite drift_pow.
    reflexivity.
Qed.

Lemma fold_left_Rplus (l : list R) : fold_left Rplus l 0 = fold_right Rplus 0 l.
Proof.
  apply fold_symmetric; intros; ring.
Qed.

(** *** The Asian pricer *)

Lemma Asian_payoff_path_run (o : AsianOption.t) (path : list R) (w : World) :
  AsianOption.payoff_path o path w
  = Returned (Spec.asian_payoff (AsianOption.optionType o) (AsianOption.strike o) path,
              logged w [PathPayoffEntered path]).
Proof.
  unfold AsianOption.payoff_path, bind, enter, Spec.asian_payoff, Spec.mean, accumulate.
  rewrite fold_left_Rplus.
  destruct (AsianOption.optionType o); reflexivity.
Qed.

Lemma Asian_price_adjusted_run (o : AsianOption.t) (model : BlackScholesModel)
    (numPaths steps : Z) (T : R) (w : World) :
  (0 <= steps)%Z ->
  AsianOption.price_adjusted o model numPaths steps T w
  = Returned
      (Spec.mc_price model numPaths T (Asian_path_payoff o model steps T w),
       after_price w
         (PriceEntered model numPaths steps T
          :: map (fun i => PathPayoffEntered
                             (Spec.simulated model steps T (path_draws w steps i)))
               (seq 0 (Z.to_nat numPaths)))).
Proof.
  intros Hsteps.
  unfold AsianOption.price_adjusted.
  enter_pricer. simpl entropy. simpl engines_seeded. simpl rand_calls. simpl trace.
  set (D := normal_draws (entropy w) (engines_seeded w)).
  set (n := Z.to_nat steps).
  unfold for_loopM. rewrite Z.sub_0_r.
  set (wK := fun k : nat =>
    {| entropy := entropy w; rand_calls := rand_calls w;
       engines_seeded := S (engines_seeded w);
       trace := (trace w ++ [PriceEntered model numPaths steps T])
                ++ map (fun i => PathPayoffEntered
                                   (Spec.simulated model steps T (path_draws w steps i)))
                     (seq 0 k) |}).
  set (sK := fun k : nat =>
    (Spec.sum_n (Asian_path_payoff o model steps T w) k,
     {| draws := D; drawn := (k * n)%nat |})).
  match goal with
  | |- bind (iterateM ?m ?i ?body ?s) ?k ?w0 = _ =>
      assert (Hloop : iterateM m i body s w0 = Returned (sK m, wK m))
  end.
  { replace (0, {| draws := D; drawn := 0 |}) with (sK O) by reflexivity.
    match goal with
    | |- iterateM _ _ _ _ ?w0 = _ => replace w0 with (wK O)
        by (unfold wK; simpl; rewrite app_nil_r; reflexivity)
    end.
    apply iterateM_seq.
    intros k Hk.
    assert (HwK : wK (S k)
                  = logged (wK k)
                      [PathPayoffEntered (Spec.simulated model steps T (path_draws w steps k))]).
    { unfold wK, logged. cbv beta. unfold trace at 2.
      rewrite seq_snoc, map_app, app_assoc. reflexivity. }
    assert (HsK : sK (S k)
                  = (Spec.sum_n (Asian_path_payoff o model steps T w) k
                     + Asian_path_payoff o model steps T w k,
                     {| draws := D; drawn := (k * n + n)%nat |})).
    { unfold sK. replace (S k * n)%nat with (k * n + n)%nat by lia. reflexivity. }
    rewrite HwK, HsK. unfold sK at 1. cbv beta iota zeta.
    run_with (reserve_run _ _ (wK k) Hsteps).
    rewrite (for_loop_ext _ (path_step model (T / IZR steps)))
      by (intros i [[s p] r]; reflexivity).
    rewrite path_loop. cbv beta iota zeta.
    rewrite app_nil_l.
    run_with (Asian_payoff_path_run o _ (wK k)).
    reflexivity. }
  run_with Hloop.
  unfold sK, wK, ret, after_price, Spec.mc_price. cbv beta iota zeta.
  rewrite <- app_assoc. reflexivity.
Qed.

(** *** The Lookback pricer *)

Lemma fold_left_ext {A B : Type} (f g : A -> B -> A) :
  (forall a b, f a b = g a b) ->
  forall l a, fold_left f l a = fold_left g l a.
Proof.
  intros Hfg l. induction l as [|b l IH]; intros a; simpl.
  - reflexivity.
  - rewrite Hfg. apply IH.
Qed.

Lemma largest_is_Rmax (largest y : R) :
  (if ltb largest y then y else largest) = Rmax largest y.
Proof.
  unfold ltb, Rmax.
  destruct (Rlt_dec largest y), (Rle_dec largest y); lra.
Qed.

Lemma smallest_is_Rmin (smallest y : R) :
  (if ltb y smallest then y else smallest) = Rmin smallest y.
Proof.
  unfold ltb, Rmin.
  destruct (Rlt_dec y smallest), (Rle_dec smallest y); lra.
Qed.

Lemma max_element_run (x : R) (rest : list R) (w : World) :
  max_element (x :: rest) w = Returned (Spec.path_max x rest, w).
Proof.
  unfold max_element, ret, Spec.path_max.
  rewrite (fold_left_ext _ Rmax) by apply largest_is_Rmax.
  rewrite fold_symmetric.
  - reflexivity.
  - intros a b c. apply Rmax_assoc.
  - intros y. apply Rmax_comm.
Qed.

Lemma min_element_run (x : R) (rest : list R) (w : World) :
  min_element (x :: rest) w = Returned (Spec.path_min x rest, w).
Proof.
  unfold min_element, ret, Spec.path_min.
  rewrite (fold_left_ext _ Rmin) by apply smallest_is_Rmin.
  rewrite fold_symmetric.
  - reflexivity.
  - intros a b c. apply Rmin_assoc.
  - intros y. apply Rmin_comm.
Qed.

Lemma Lookback_payoff_path_run (o : LookbackOption.t) (x : R) (rest : list R) (w : World) :
  LookbackOption.payoff_path o (x :: rest) w
  = Returned (Spec.lookback_payoff (LookbackOption.optionType o) (LookbackOption.strike o)
                x rest,
              logged w [PathPayoffEntered (x :: rest)]).
Proof.
  unfold LookbackOption.payoff_path, Spec.lookback_payoff.
  unfold bind at 1. unfold enter. fold (logged w [PathPayoffEntered (x :: rest)]).
  destruct (LookbackOption.optionType o).
  - run_with (max_element_run _ _ _). reflexivity.
  - run_with (min_element_run _ _ _). reflexivity.
Qed.

Lemma simulated_with_seed_cons (model : BlackScholesModel) (steps : Z) (T : R)
    (Zs : nat -> R) :
  Spec.simulated_with_seed model steps T Zs = spot model :: Spec.simulated model steps T Zs.
Proof.
  unfold Spec.simulated_with_seed, Spec.simulated.
  rewrite <- cons_seq. reflexivity.
Qed.

Lemma Lookback_price_adjusted_run (o : LookbackOption.t) (model : BlackScholesModel)
    (numPaths steps : Z) (T : R) (w : World) :
  (-1 <= steps)%Z ->
  LookbackOption.price_adjusted o model numPaths steps T w
  = Returned
      (Spec.mc_price model numPaths T (Lookback_path_payoff o model steps T w),
       after_price w
         (PriceEntered model numPaths steps T
          :: map (fun i => PathPayoffEntered
                             (Spec.simulated_with_seed model steps T (path_draws w steps i)))
               (seq 0 (Z.to_nat numPaths)))).
Proof.
  intros Hsteps.
  assert (Hsteps1 : (0 <= steps + 1)%Z) by lia.
  unfold LookbackOption.price_adjusted.
  enter_pricer. simpl entropy. simpl engines_seeded. simpl rand_calls. simpl trace.
  set (D := normal_draws (entropy w) (engines_seeded w)).
  set (n := Z.to_nat steps).
  unfold for_loopM. rewrite Z.sub_0_r.
  set (wK := fun k : nat =>
    {| entropy := entropy w; rand_calls := rand_calls w;
       engines_seeded := S (engines_seeded w);
       trace := (trace w ++ [PriceEntered model numPaths steps T])
                ++ map (fun i => PathPayoffEntered
                                   (Spec.simulated_with_seed model steps T
                                      (path_draws w steps i)))
                     (seq 0 k) |}).
  set (sK := fun k : nat =>
    (Spec.sum_n (Lookback_path_payoff o model steps T w) k,
     {| draws := D; drawn := (k * n)%nat |})).
  match goal with
  | |- bind (iterateM ?m ?i ?body ?s) ?k ?w0 = _ =>
      assert (Hloop : iterateM m i body s w0 = Returned (sK m, wK m))
  end.
  { replace (0, {| draws := D; drawn := 0 |}) with (sK O) by reflexivity.
    match goal with
    | |- iterateM _ _ _ _ ?w0 = _ => replace w0 with (wK O)
        by (unfold wK; simpl; rewrite app_nil_r; reflexivity)
    end.
    apply iterateM_seq.
    intros k Hk.
    assert (HwK : wK (S k)
                  = logged (wK k)
                      [PathPayoffEntered
                         (Spec.simulated_with_seed model steps T (path_draws w steps k))]).
    { unfold wK, logged. cbv beta. unfold trace at 2.
      rewrite seq_snoc, map_app, app_assoc. reflexivity. }
    assert (HsK : sK (S k)
                  = (Spec.sum_n (Lookback_path_payoff o model steps T w) k
                     + Lookback_path_payoff o model steps T w k,
                     {| draws := D; drawn := (k * n + n)%nat |})).
    { unfold sK. replace (S k * n)%nat with (k * n + n)%nat by lia. reflexivity. }
    rewrite HwK, HsK. unfold sK at 1. cbv beta iota zeta.
    run_with (reserve_run _ _ (wK k) Hsteps1).
    rewrite (for_loop_ext _ (path_step model (T / IZR steps)))
      by (intros i [[s p] r]; reflexivity).
    rewrite app_nil_l.
    rewrite path_loop. cbv beta iota zeta.
    rewrite simulated_with_seed_cons.
    change ([spot model] ++ ?l) with (spot model :: l).
    run_with (Lookback_payoff_path_run o _ _ (wK k)).
    reflexivity. }
  run_with Hloop.
  unfold sK, wK, ret, after_price, Spec.mc_price. cbv beta iota zeta.
  rewrite <- app_assoc. reflexivity.
Qed.

(** *** The Barrier pricer *)

Lemma back_snoc (l : list R) (x : R) (w : World) :
  back (l ++ [x]) w = Returned (x, w).
Proof.
  destruct l as [|y l]; simpl.
  - reflexivity.
  - unfold ret. rewrite last_last. reflexivity.
Qed.

Lemma back_simulated (model : BlackScholesModel) (steps : Z) (T : R) (Zs : nat -> R)
    (w : World) :
  (1 <= steps)%Z ->
  back (Spec.simulated model steps T Zs) w
  = Returned (Spec.S_ model (T / IZR steps) Zs (Z.to_nat steps), w).
Proof.
  intros Hsteps. unfold Spec.simulated.
  destruct (Z.to_nat steps) as [|m] eqn:Hn; [ lia | ].
  rewrite seq_snoc, map_app. simpl map. apply back_snoc.
Qed.

Lemma Barrier_payoff_run (o : BarrierOption.t) (x : R) (w : World) :
  BarrierOption.payoff o x w
  = Returned (Spec.vanilla_payoff (BarrierOption.optionType o) (BarrierOption.strike o) x, w).
Proof.
  unfold BarrierOption.payoff, Spec.vanilla_payoff.
  destruct (BarrierOption.optionType o); reflexivity.
Qed.

(** The three branches on the barrier state in the loop of the pricer. *)
Lemma Barrier_gate (o : BarrierOption.t) (path : list R) (terminal : R) (b : bool)
    (s : R) (rng : Rng) (w : World) :
  back path w = Returned (terminal, w) ->
  (if BarrierOption.is_out o && b then ret (s + 0, rng)
   else if BarrierOption.is_in o && negb b then ret (s + 0, rng)
   else final <- back path ;;
        p <- BarrierOption.payoff o final ;;
        ret (s + p, rng)) w
  = Returned
      (s + Spec.barrier_payoff (BarrierOption.barrierType o) (BarrierOption.optionType o)
             (BarrierOption.strike o) b terminal,
       rng, w).
Proof.
  intros Hback.
  unfold Spec.barrier_payoff, BarrierOption.is_out, BarrierOption.is_in, Spec.is_knock_out.
  destruct (BarrierOption.barrierType o), b; cbn [andb negb];
    try reflexivity;
    run_with Hback; run_with (Barrier_payoff_run o _ w);
    reflexivity.
Qed.

Lemma Barrier_price_adjusted_run (o : BarrierOption.t) (model : BlackScholesModel)
    (numPaths steps : Z) (T : R) (w : World) :
  (1 <= steps)%Z ->
  BarrierOption.price_adjusted o model numPaths steps T w
  = Returned
      (Spec.mc_price model numPaths T (Barrier_path_payoff o model steps T w),
       after_price w [PriceEntered model numPaths steps T]).
Proof.
  intros Hsteps.
  assert (Hsteps0 : (0 <= steps)%Z) by lia.
  unfold BarrierOption.price_adjusted.
  enter_pricer. simpl entropy. simpl engines_seeded. simpl rand_calls. simpl trace.
  set (D := normal_draws (entropy w) (engines_seeded w)).
  set (n := Z.to_nat steps).
  unfold for_loopM. rewrite Z.sub_0_r.
  set (w1 := {| entropy := entropy w; rand_calls := rand_calls w;
                engines_seeded := S (engines_seeded w);
                trace := trace w ++ [PriceEntered model numPaths steps T] |}).
  set (sK := fun k : nat =>
    (Spec.sum_n (Barrier_path_payoff o model steps T w) k,
     {| draws := D; drawn := (k * n)%nat |})).
  match goal with
  | |- bind (iterateM ?m ?i ?body ?s) ?k ?w0 = _ =>
      assert (Hloop : iterateM m i body s w0 = Returned (sK m, w1))
  end.
  { replace (0, {| draws := D; drawn := 0 |}) with (sK O) by reflexivity.
    apply (iterateM_seq _ _ _ sK (fun _ => w1)).
    intros k Hk.
    assert (HsK : sK (S k)
                  = (Spec.sum_n (Barrier_path_payoff o model steps T w) k
                     + Barrier_path_payoff o model steps T w k,
                     {| draws := D; drawn := (k * n + n)%nat |})).
    { unfold sK. replace (S k * n)%nat with (k * n + n)%nat by lia. reflexivity. }
    rewrite HsK. unfold sK at 1. cbv beta iota zeta.
    run_with (reserve_run _ _ w1 Hsteps0).
    rewrite (for_loop_ext _ (path_step model (T / IZR steps)))
      by (intros i [[s p] r]; reflexivity).
    rewrite path_loop. cbv beta iota zeta. rewrite app_nil_l.
    fold n.
    change (map (Spec.S_ model (T / IZR steps) (fun j => D (k * n + j)%nat)) (seq 1 n))
      with (Spec.simulated model steps T (path_draws w steps k)).
    apply Barrier_gate, back_simulated, Hsteps. }
  run_with Hloop.
  reflexivity.
Qed.

(** With no path to simulate the Barrier pricer returns, whatever [steps]. *)
Lemma Barrier_price_adjusted_no_path (o : BarrierOption.t) (model : BlackScholesModel)
    (numPaths steps : Z) (T : R) (w : World) :
  (numPaths <= 0)%Z ->
  BarrierOption.price_adjusted o model numPaths steps T w
  = Returned
      (exp (- rate model * T) * (0 / IZR numPaths),
       after_price w [PriceEntered model numPaths steps T]).
Proof.
  intros Hn.
  unfold BarrierOption.price_adjusted.
  enter_pricer.
  unfold for_loopM. replace (Z.to_nat (numPaths - 0)) with O by lia.
  reflexivity.
Qed.

(** ** The pricing calls of a hedging run *)

Lemma price_calls_app (l1 l2 : list event) :
  price_calls (l1 ++ l2) = price_calls l1 ++ price_calls l2.
Proof. unfold price_calls. apply flat_map_app. Qed.

Lemma price_calls_payoffs {A : Type} (f : A -> list R) (l : list A) :
  price_calls (map (fun i => PathPayoffEntered (f i)) l) = [].
Proof. induction l as [|a l IH]; simpl; [ reflexivity | exact IH ]. Qed.

Lemma price_calls_one_call {A : Type} (m : BlackScholesModel) (n s : Z) (T : R)
    (f : A -> list R) (l : list A) :
  price_calls (PriceEntered m n s T :: map (fun i => PathPayoffEntered (f i)) l)
  = [{| pc_model := m; pc_numPaths := n; pc_steps := s; pc_maturity := T |}].
Proof.
  change (PriceEntered m n s T :: map (fun i => PathPayoffEntered (f i)) l)
    with ([PriceEntered m n s T] ++ map (fun i => PathPayoffEntered (f i)) l).
  rewrite price_calls_app, price_calls_payoffs. reflexivity.
Qed.

Lemma trajectory_S (model : BlackScholesModel) (dt : R) (U : nat -> R) (k : nat) :
  trajectory model dt U (S k)
  = trajectory model dt U k ++ [Spec.hedge_spot model dt U (S k)].
Proof. unfold trajectory. rewrite (seq_snoc 0 (S k)), map_app. reflexivity. Qed.

Lemma trajectory_length (model : BlackScholesModel) (dt : R) (U : nat -> R) (k : nat) :
  length (trajectory model dt U k) = S k.
Proof. unfold trajectory. rewrite length_map, length_seq. reflexivity. Qed.

Lemma trajectory_nth (model : BlackScholesModel) (dt : R) (U : nat -> R) (k j : nat) :
  (j <= k)%nat -> nth j (trajectory model dt U k) 0 = Spec.hedge_spot model dt U j.
Proof.
  intros Hj. unfold trajectory.
  rewrite (nth_indep _ 0 (Spec.hedge_spot model dt U 0))
    by (rewrite length_map, length_seq; lia).
  rewrite map_nth, seq_nth by lia. reflexivity.
Qed.

(** *** The Asian hedging run *)

Lemma full_maturity_calls_S (model : BlackScholesModel) (maturity : R) (steps : Z)
    (U : nat -> R) (k : nat) :
  full_maturity_calls model maturity steps U (S k)
  = full_maturity_calls model maturity steps U k
    ++ bumped_calls model (Spec.hedge_spot model (maturity / IZR steps) U (S k))
         (0.01 * spot model) 10000 (steps - Z.of_nat (S k)) maturity.
Proof.
  unfold full_maturity_calls. cbv zeta.
  rewrite seq_snoc, flat_map_app, app_assoc. reflexivity.
Qed.

Lemma Asian_price_run (o : AsianOption.t) (model : BlackScholesModel)
    (numPaths steps : Z) (w : World) :
  (0 <= steps)%Z ->
  exists v evs,
    AsianOption.price o model numPaths steps w = Returned (v, after_price w evs)
    /\ price_calls evs = [{| pc_model := model; pc_numPaths := numPaths;
                             pc_steps := steps; pc_maturity := AsianOption.maturity o |}].
Proof.
  intros Hsteps.
  unfold AsianOption.price. rewrite Asian_price_adjusted_run by assumption.
  eexists. eexists. split; [ reflexivity | ].
  apply price_calls_one_call.
Qed.

Lemma Asian_hedge_init_run (o : AsianOption.t) (model : BlackScholesModel) (steps : Z)
    (w : World) :
  (0 <= steps)%Z ->
  exists st w',
    AsianOption.hedge_init o model steps 10000 (0.01 * spot model) w = Returned (st, w')
    /\ Asian_hedge_inv o model steps w O st w'.
Proof.
  intros Hsteps.
  unfold AsianOption.hedge_init. cbv zeta.
  destruct (Asian_price_run o (set_spot model (spot model + 0.01 * spot model))
              10000 steps w Hsteps) as (v1 & evs1 & Hp1 & Hc1).
  run_with Hp1.
  destruct (Asian_price_run o (set_spot model (spot model - 0.01 * spot model))
              10000 steps (after_price w evs1) Hsteps) as (v2 & evs2 & Hp2 & Hc2).
  run_with Hp2.
  eexists. eexists. split; [ reflexivity | ].
  unfold Asian_hedge_inv. cbn [AsianOption.h_spot AsianOption.h_path AsianOption.modelUp
                               AsianOption.modelDown].
  repeat split.
  - cbn. lia.
  - cbn [after_price trace]. rewrite !price_calls_app, Hc1, Hc2, <- app_assoc.
    reflexivity.
Qed.

Lemma set_spot_set_spot (m : BlackScholesModel) (a b : R) :
  set_spot (set_spot m a) b = set_spot m b.
Proof. reflexivity. Qed.

Lemma hedge_spot_S (model : BlackScholesModel) (dt : R) (w0 w : World) (k : nat) (s : R) :
  s = Spec.hedge_spot model dt (hedge_uniforms w0) k ->
  entropy w = entropy w0 ->
  rand_calls w = (rand_calls w0 + k)%nat ->
  s * exp ((rate model - dividend model - 0.5 * volatility model * volatility model) * dt
           + volatility model * sqrt dt * (rand_ratio (entropy w) (rand_calls w) - 0.5))
  = Spec.hedge_spot model dt (hedge_uniforms w0) (S k).
Proof.
  intros Hs He Hr. rewrite Hs, He, Hr, drift_pow. reflexivity.
Qed.

Lemma Asian_hedge_step_run (o : AsianOption.t) (model : BlackScholesModel) (steps : Z)
    (w0 : World) (k : nat) (st : AsianOption.Hedge) (w : World) :
  (k < Z.to_nat (steps - 1))%nat ->
  Asian_hedge_inv o model steps w0 k st w ->
  exists st' w',
    AsianOption.hedge_step o model steps 10000 (0.01 * spot model)
      (AsianOption.maturity o / IZR steps) (1 + Z.of_nat k) st w
    = Returned (st', w')
    /\ Asian_hedge_inv o model steps w0 (S k) st' w'.
Proof.
  intros Hk (Hspot & Hpath & Hup & Hdown & Hent & Hrand & Hcalls).
  assert (Hsteps : (0 <= steps - (1 + Z.of_nat k))%Z) by lia.
  unfold AsianOption.hedge_step. cbv zeta.
  unfold bind at 1. unfold rand_over_RAND_MAX. cbv beta iota.
  set (w1 := {| entropy := entropy w; rand_calls := S (rand_calls w);
                engines_seeded := engines_seeded w; trace := trace w |}).
  pose proof (hedge_spot_S model _ w0 w k _ Hspot Hent Hrand) as Hnext.
  set (s' := AsianOption.h_spot st * exp _) in *.
  rewrite Hup, Hdown, !set_spot_set_spot.
  destruct (Asian_price_run o (set_spot model (s' + 0.01 * spot model))
              10000 (steps - (1 + Z.of_nat k)) w1 Hsteps) as (v1 & evs1 & Hp1 & Hc1).
  run_with Hp1.
  destruct (Asian_price_run o (set_spot model (s' - 0.01 * spot model))
              10000 (steps - (1 + Z.of_nat k)) (after_price w1 evs1) Hsteps)
    as (v2 & evs2 & Hp2 & Hc2).
  run_with Hp2.
  eexists. eexists. split; [ reflexivity | ].
  unfold Asian_hedge_inv.
  cbn [AsianOption.h_spot AsianOption.h_path AsianOption.modelUp AsianOption.modelDown].
  repeat split.
  - exact Hnext.
  - rewrite trajectory_S, Hpath, Hnext. reflexivity.
  - exact Hent.
  - cbn. lia.
  - cbn [after_price trace w1]. rewrite !price_calls_app, Hcalls, Hc1, Hc2.
    rewrite full_maturity_calls_S, <- !app_assoc.
    rewrite <- Hnext.
    replace (steps - Z.of_nat (S k))%Z with (steps - (1 + Z.of_nat k))%Z by lia.
    reflexivity.
Qed.

Lemma Asian_hedge_run (o : AsianOption.t) (model : BlackScholesModel) (steps : Z)
    (w : World) :
  (0 <= steps)%Z ->
  exists st w',
    AsianOption.hedge_run o model steps w = Returned (st, w')
    /\ Asian_hedge_inv o model steps w (Z.to_nat (steps - 1)) st w'.
Proof.
  intros Hsteps.
  unfold AsianOption.hedge_run. cbv zeta.
  destruct (Asian_hedge_init_run o model steps w Hsteps) as (st0 & w0 & Hinit & Hinv0).
  run_with Hinit.
  unfold for_loopM.
  apply (iterateM_inv _ (Z.to_nat (steps - 1)) 1%Z (Asian_hedge_inv o model steps w)).
  - exact Hinv0.
  - intros k s' w' Hk Hinv. apply Asian_hedge_step_run; assumption.
Qed.

(** *** The Lookback hedging run *)

Lemma Lookback_price_run (o : LookbackOption.t) (model : BlackScholesModel)
    (numPaths steps : Z) (w : World) :
  (0 <= steps)%Z ->
  exists v evs,
    LookbackOption.price o model numPaths steps w = Returned (v, after_price w evs)
    /\ price_calls evs = [{| pc_model := model; pc_numPaths := numPaths;
                             pc_steps := steps; pc_maturity := LookbackOption.maturity o |}].
Proof.
  intros Hsteps.
  unfold LookbackOption.price. rewrite Lookback_price_adjusted_run by lia.
  eexists. eexists. split; [ reflexivity | ].
  apply price_calls_one_call.
Qed.

Lemma Lookback_hedge_init_run (o : LookbackOption.t) (model : BlackScholesModel) (steps : Z)
    (w : World) :
  (0 <= steps)%Z ->
  exists st w',
    LookbackOption.hedge_init o model steps 10000 (0.01 * spot model) w = Returned (st, w')
    /\ Lookback_hedge_inv o model steps w O st w'.
Proof.
  intros Hsteps.
  unfold LookbackOption.hedge_init. cbv zeta.
  destruct (Lookback_price_run o (set_spot model (spot model + 0.01 * spot model))
              10000 steps w Hsteps) as (v1 & evs1 & Hp1 & Hc1).
  run_with Hp1.
  destruct (Lookback_price_run o (set_spot model (spot model - 0.01 * spot model))
              10000 steps (after_price w evs1) Hsteps) as (v2 & evs2 & Hp2 & Hc2).
  run_with Hp2.
  eexists. eexists. split; [ reflexivity | ].
  unfold Lookback_hedge_inv. cbn [LookbackOption.h_spot LookbackOption.h_path LookbackOption.modelUp
                               LookbackOption.modelDown].
  repeat split.
  - cbn. lia.
  - cbn [after_price trace]. rewrite !price_calls_app, Hc1, Hc2, <- app_assoc.
    reflexivity.
Qed.

Lemma Lookback_hedge_step_run (o : LookbackOption.t) (model : BlackScholesModel) (steps : Z)
    (w0 : World) (k : nat) (st : LookbackOption.Hedge) (w : World) :
  (k < Z.to_nat (steps - 1))%nat ->
  Lookback_hedge_inv o model steps w0 k st w ->
  exists st' w',
    LookbackOption.hedge_step o model steps 10000 (0.01 * spot model)
      (LookbackOption.maturity o / IZR steps) (1 + Z.of_nat k) st w
    = Returned (st', w')
    /\ Lookback_hedge_inv o model steps w0 (S k) st' w'.
Proof.
  intros Hk (Hspot & Hpath & Hup & Hdown & Hent & Hrand & Hcalls).
  assert (Hsteps : (0 <= steps - (1 + Z.of_nat k))%Z) by lia.
  unfold LookbackOption.hedge_step. cbv zeta.
  unfold bind at 1. unfold rand_over_RAND_MAX. cbv beta iota.
  set (w1 := {| entropy := entropy w; rand_calls := S (rand_calls w);
                engines_seeded := engines_seeded w; trace := trace w |}).
  pose proof (hedge_spot_S model _ w0 w k _ Hspot Hent Hrand) as Hnext.
  set (s' := LookbackOption.h_spot st * exp _) in *.
  rewrite Hup, Hdown, !set_spot_set_spot.
  destruct (Lookback_price_run o (set_spot model (s' + 0.01 * spot model))
              10000 (steps - (1 + Z.of_nat k)) w1 Hsteps) as (v1 & evs1 & Hp1 & Hc1).
  run_with Hp1.
  destruct (Lookback_price_run o (set_spot model (s' - 0.01 * spot model))
              10000 (steps - (1 + Z.of_nat k)) (after_price w1 evs1) Hsteps)
    as (v2 & evs2 & Hp2 & Hc2).
  run_with Hp2.
  eexists. eexists. split; [ reflexivity | ].
  unfold Lookback_hedge_inv.
  cbn [LookbackOption.h_spot LookbackOption.h_path LookbackOption.modelUp LookbackOption.modelDown].
  repeat split.
  - exact Hnext.
  - rewrite trajectory_S, Hpath, Hnext. reflexivity.
  - exact Hent.
  - cbn. lia.
  - cbn [after_price trace w1]. rewrite !price_calls_app, Hcalls, Hc1, Hc2.
    rewrite full_maturity_calls_S, <- !app_assoc.
    rewrite <- Hnext.
    replace (steps - Z.of_nat (S k))%Z with (steps - (1 + Z.of_nat k))%Z by lia.
    reflexivity.
Qed.

Lemma Lookback_hedge_run (o : LookbackOption.t) (model : BlackScholesModel) (steps : Z)
    (w : World) :
  (0 <= steps)%Z ->
  exists st w',
    LookbackOption.hedge_run o model steps w = Returned (st, w')
    /\ Lookback_hedge_inv o model steps w (Z.to_nat (steps - 1)) st w'.
Proof.
  intros Hsteps.
  unfold LookbackOption.hedge_run. cbv zeta.
  destruct (Lookback_hedge_init_run o model steps w Hsteps) as (st0 & w0 & Hinit & Hinv0).
  run_with Hinit.
  unfold for_loopM.
  apply (iterateM_inv _ (Z.to_nat (steps - 1)) 1%Z (Lookback_hedge_inv o model steps w)).
  - exact Hinv0.
  - intros k s' w' Hk Hinv. apply Lookback_hedge_step_run; assumption.
Qed.

(** *** The Barrier hedging run *)

Lemma remaining_maturity_calls_S (o : BarrierOption.t) (model : BlackScholesModel)
    (steps : Z) (U : nat -> R) (k : nat) :
  remaining_maturity_calls o model steps U (S k)
  = remaining_maturity_calls o model steps U k
    ++ (if BarrierOption.isBarrierTouched o
             (trajectory model (BarrierOption.maturity o / IZR steps) U (S k))
        then []
        else bumped_calls model
               (Spec.hedge_spot model (BarrierOption.maturity o / IZR steps) U (S k))
               (0.01 * spot model) 10000 (steps - Z.of_nat (S k))
               (BarrierOption.maturity o
                - IZR (Z.of_nat (S k)) * (BarrierOption.maturity o / IZR steps))).
Proof.
  unfold remaining_maturity_calls. cbv zeta.
  rewrite seq_snoc, flat_map_app, app_assoc. cbn [flat_map].
  rewrite app_nil_r. reflexivity.
Qed.

Lemma Barrier_price_adjusted_call (o : BarrierOption.t) (model : BlackScholesModel)
    (numPaths steps : Z) (T : R) (w : World) :
  (1 <= steps)%Z ->
  exists v evs,
    BarrierOption.price_adjusted o model numPaths steps T w = Returned (v, after_price w evs)
    /\ price_calls evs = [{| pc_model := model; pc_numPaths := numPaths;
                             pc_steps := steps; pc_maturity := T |}].
Proof.
  intros Hsteps. rewrite Barrier_price_adjusted_run by assumption.
  eexists. eexists. split; reflexivity.
Qed.

Lemma Barrier_hedge_init_run (o : BarrierOption.t) (model : BlackScholesModel) (steps : Z)
    (w : World) :
  (1 <= steps)%Z ->
  exists st w',
    BarrierOption.hedge_init o model steps 10000 (0.01 * spot model) w = Returned (st, w')
    /\ Barrier_hedge_inv o model steps w O st w'.
Proof.
  intros Hsteps.
  unfold BarrierOption.hedge_init, BarrierOption.price. cbv zeta.
  destruct (Barrier_price_adjusted_call o (set_spot model (spot model + 0.01 * spot model))
              10000 steps (BarrierOption.maturity o) w Hsteps) as (v1 & evs1 & Hp1 & Hc1).
  run_with Hp1.
  destruct (Barrier_price_adjusted_call o (set_spot model (spot model - 0.01 * spot model))
              10000 steps (BarrierOption.maturity o) (after_price w evs1) Hsteps)
    as (v2 & evs2 & Hp2 & Hc2).
  run_with Hp2.
  eexists. eexists. split; [ reflexivity | ].
  unfold Barrier_hedge_inv.
  cbn [BarrierOption.h_spot BarrierOption.h_path BarrierOption.modelUp
       BarrierOption.modelDown BarrierOption.barrierTouched].
  repeat split.
  - eexists. reflexivity.
  - eexists. reflexivity.
  - cbn. lia.
  - cbn [after_price trace]. rewrite !price_calls_app, Hc1, Hc2, <- app_assoc.
    reflexivity.
Qed.

Lemma Barrier_hedge_step_run (o : BarrierOption.t) (model : BlackScholesModel) (steps : Z)
    (w0 : World) (k : nat) (st : BarrierOption.Hedge) (w : World) :
  (k < Z.to_nat (steps - 1))%nat ->
  Barrier_hedge_inv o model steps w0 k st w ->
  exists st' w',
    BarrierOption.hedge_step o model steps 10000 (0.01 * spot model)
      (BarrierOption.maturity o / IZR steps) (1 + Z.of_nat k) st w
    = Returned (st', w')
    /\ Barrier_hedge_inv o model steps w0 (S k) st' w'.
Proof.
  intros Hk (Hspot & Hpath & [a Hup] & [b Hdown] & Htouched & Hent & Hrand & Hcalls).
  assert (Hsteps : (1 <= steps - (1 + Z.of_nat k))%Z) by lia.
  unfold BarrierOption.hedge_step. cbv zeta.
  unfold bind at 1. unfold rand_over_RAND_MAX. cbv beta iota.
  set (w1 := {| entropy := entropy w; rand_calls := S (rand_calls w);
                engines_seeded := engines_seeded w; trace := trace w |}).
  pose proof (hedge_spot_S model _ w0 w k _ Hspot Hent Hrand) as Hnext.
  set (s' := BarrierOption.h_spot st * exp _) in *.
  assert (Hpath' : BarrierOption.h_path st ++ [s']
                   = trajectory model (BarrierOption.maturity o / IZR steps)
                       (hedge_uniforms w0) (S k))
    by (rewrite trajectory_S, Hpath, Hnext; reflexivity).
  rewrite Hpath'.
  pose proof (remaining_maturity_calls_S o model steps (hedge_uniforms w0) k) as HcS.
  destruct (BarrierOption.isBarrierTouched o
              (trajectory model (BarrierOption.maturity o / IZR steps)
                 (hedge_uniforms w0) (S k))) eqn:Hb.
  - unfold bind at 1. unfold ret at 1. cbv beta iota.
    eexists. eexists. split; [ reflexivity | ].
    unfold Barrier_hedge_inv.
    cbn [BarrierOption.h_spot BarrierOption.h_path BarrierOption.modelUp
         BarrierOption.modelDown BarrierOption.barrierTouched].
    repeat split.
    + exact Hnext.
    + exists a. exact Hup.
    + exists b. exact Hdown.
    + symmetry. exact Hb.
    + exact Hent.
    + cbn. lia.
    + cbn [trace w1]. rewrite Hcalls, HcS, app_nil_r. reflexivity.
  - rewrite Hup, Hdown, !set_spot_set_spot.
    destruct (Barrier_price_adjusted_call o (set_spot model (s' + 0.01 * spot model))
                10000 (steps - (1 + Z.of_nat k))
                (BarrierOption.maturity o
                 - IZR (1 + Z.of_nat k) * (BarrierOption.maturity o / IZR steps))
                w1 Hsteps) as (v1 & evs1 & Hp1 & Hc1).
    destruct (Barrier_price_adjusted_call o (set_spot model (s' - 0.01 * spot model))
                10000 (steps - (1 + Z.of_nat k))
                (BarrierOption.maturity o
                 - IZR (1 + Z.of_nat k) * (BarrierOption.maturity o / IZR steps))
                (after_price w1 evs1) Hsteps) as (v2 & evs2 & Hp2 & Hc2).
    unfold bind at 1. unfold bind at 1.
    rewrite Hp1. unfold bind at 1. rewrite Hp2.
    unfold ret at 1. cbv beta iota.
    eexists. eexists. split; [ reflexivity | ].
    unfold Barrier_hedge_inv.
    cbn [BarrierOption.h_spot BarrierOption.h_path BarrierOption.modelUp
         BarrierOption.modelDown BarrierOption.barrierTouched].
    repeat split.
    + exact Hnext.
    + eexists. reflexivity.
    + eexists. reflexivity.
    + symmetry. exact Hb.
    + exact Hent.
    + cbn. lia.
    + cbn [after_price trace w1]. rewrite !price_calls_app, Hcalls, Hc1, Hc2, HcS.
      rewrite <- !app_assoc, <- Hnext.
      replace (Z.of_nat (S k)) with (1 + Z.of_nat k)%Z by lia.
      reflexivity.
Qed.

Lemma Barrier_hedge_run (o : BarrierOption.t) (model : BlackScholesModel) (steps : Z)
    (w : World) :
  (1 <= steps)%Z ->
  exists st w',
    BarrierOption.hedge_run o model steps w = Returned (st, w')
    /\ Barrier_hedge_inv o model steps w (Z.to_nat (steps - 1)) st w'.
Proof.
  intros Hsteps.
  unfold BarrierOption.hedge_run. cbv zeta.
  destruct (Barrier_hedge_init_run o model steps w Hsteps) as (st0 & w0 & Hinit & Hinv0).
  run_with Hinit.
  unfold for_loopM.
  apply (iterateM_inv _ (Z.to_nat (steps - 1)) 1%Z (Barrier_hedge_inv o model steps w)).
  - exact Hinv0.
  - intros k s' w' Hk Hinv. apply Barrier_hedge_step_run; assumption.
Qed.

(** ** The barrier scan *)

Lemma ltb_true (x y : R) : ltb x y = true <-> x < y.
Proof. unfold ltb. destruct (Rlt_dec x y); split; intros; try discriminate; tauto. Qed.

Lemma leb_true (x y : R) : leb x y = true <-> x <= y.
Proof. unfold leb. destruct (Rle_dec x y); split; intros; try discriminate; tauto. Qed.

Lemma scan_from_true (cond : nat -> bool) :
  forall n i, scan_from n i cond = true
              <-> exists j, (i <= j < i + n)%nat /\ cond j = true.
Proof.
  induction n as [|n IH]; intros i; simpl.
  - split; [ discriminate | intros (j & Hj & _); lia ].
  - destruct (cond i) eqn:Hi.
    + split; [ intros _; exists i; split; [ lia | assumption ] | reflexivity ].
    + rewrite IH. split; intros (j & Hj & Hc).
      * exists j. split; [ lia | assumption ].
      * exists j. split; [ | assumption ].
        assert (j <> i) by (intros ->; congruence). lia.
Qed.

Lemma for_return_true_iff (lo hi : nat) (cond : nat -> bool) :
  for_return_true lo hi cond = true
  <-> exists j, (lo <= j < hi)%nat /\ cond j = true.
Proof.
  unfold for_return_true. rewrite scan_from_true.
  split; intros (j & Hj & Hc); exists j; (split; [ lia | assumption ]).
Qed.

Lemma isBarrierTouched_iff (o : BarrierOption.t) (path : list R) :
  BarrierOption.isBarrierTouched o path = true
  <-> Spec.touched (BarrierOption.barrierType o) (BarrierOption.barrier o) path.
Proof.
  unfold BarrierOption.isBarrierTouched, Spec.touched, Spec.crossing.
  destruct (BarrierOption.barrierType o); cbn [Spec.is_up];
    rewrite for_return_true_iff;
    split; intros (i & Hi & Hc); exists i; (split; [ exact Hi | ]).
  all: try (apply andb_true_iff in Hc; destruct Hc as [H1 H2];
            apply ltb_true in H1; apply leb_true in H2; split; lra).
  all: apply andb_true_iff; destruct Hc as [H1 H2];
       split; [ apply ltb_true | apply leb_true ]; lra.
Qed.

Lemma isBarrierTouched_short (o : BarrierOption.t) (path : list R) :
  (length path <= 1)%nat -> BarrierOption.isBarrierTouched o path = false.
Proof.
  intros Hlen.
  destruct (BarrierOption.isBarrierTouched o path) eqn:Hb; [ | reflexivity ].
  apply isBarrierTouched_iff in Hb. destruct Hb as (i & [Hi _]). lia.
Qed.

(** ** The vanilla hedging loops *)

Lemma Call_hedge_step_run (o : Option) (model : BlackScholesModel) (steps : Z) (dt : R)
    (i : Z) (st : VanillaHedge) (w : World) :
  exists st' w',
    CallOption.hedge_step o model steps dt i st w = Returned (st', w')
    /\ v_time st' = IZR i * dt
    /\ v_d1 st'
       = (ln (v_spot st' / strike o)
          + (rate model - dividend model + 0.5 * volatility model * volatility model)
            * (maturity o - v_time st'))
         / (volatility model * sqrt (maturity o - v_time st')).
Proof.
  unfold CallOption.hedge_step. cbv zeta.
  destruct (i <? steps)%Z.
  - unfold bind at 1. unfold bind at 1. unfold rand_over_RAND_MAX.
    cbv beta iota. unfold ret at 1. cbv beta iota.
    eexists. eexists. split; [ reflexivity | ]. split; reflexivity.
  - unfold bind at 1. unfold ret at 1. cbv beta iota.
    eexists. eexists. split; [ reflexivity | ]. split; reflexivity.
Qed.

Lemma Put_hedge_step_run (o : Option) (model : BlackScholesModel) (steps : Z) (dt : R)
    (i : Z) (st : VanillaHedge) (w : World) :
  exists st' w',
    PutOption.hedge_step o model steps dt i st w = Returned (st', w')
    /\ v_time st' = IZR i * dt
    /\ v_d1 st'
       = (ln (v_spot st' / strike o)
          + (rate model - dividend model + 0.5 * volatility model * volatility model)
            * (maturity o - v_time st'))
         / (volatility model * sqrt (maturity o - v_time st')).
Proof.
  unfold PutOption.hedge_step. cbv zeta.
  destruct (i <? steps)%Z.
  - unfold bind at 1. unfold bind at 1. unfold rand_over_RAND_MAX.
    cbv beta iota. unfold ret at 1. cbv beta iota.
    eexists. eexists. split; [ reflexivity | ]. split; reflexivity.
  - unfold bind at 1. unfold ret at 1. cbv beta iota.
    eexists. eexists. split; [ reflexivity | ]. split; reflexivity.
Qed.

Lemma steps_dt (maturity : R) (steps : Z) :
  (1 <= steps)%Z -> IZR steps * (maturity / IZR steps) = maturity.
Proof.
  intros Hsteps. field. apply not_0_IZR. lia.
Qed.

(** For every [steps >= 1] the vanilla hedging loops run their last
    iteration at [time = steps * dt = maturity], and compute [d1] there. *)
Lemma Call_hedge_loop_final (o : Option) (model : BlackScholesModel) (steps : Z) (w : World) :
  (1 <= steps)%Z ->
  exists st w',
    CallOption.hedge_loop o model steps w = Returned (st, w')
    /\ vanilla_last_step o model (maturity o / IZR steps) (Z.to_nat steps) st.
Proof.
  intros Hsteps. unfold CallOption.hedge_loop. cbv zeta. unfold for_loopM.
  replace (steps + 1 - 1)%Z with steps by lia.
  destruct (iterateM_inv (CallOption.hedge_step o model steps (maturity o / IZR steps))
              (Z.to_nat steps) 1%Z
              (fun k st _ => vanilla_last_step o model (maturity o / IZR steps) k st)
              (CallOption.hedge_init o model) w) as (st & w' & Hrun & Hlast).
  - intros Hk. lia.
  - intros k s' w' _ _.
    destruct (Call_hedge_step_run o model steps (maturity o / IZR steps)
                (1 + Z.of_nat k) s' w') as (st' & w'' & Hrun & Htime & Hd1).
    exists st', w''. split; [ exact Hrun | ].
    intros _. split; [ | exact Hd1 ].
    rewrite Htime. f_equal. f_equal. lia.
  - exists st, w'. split; assumption.
Qed.

Lemma Put_hedge_loop_final (o : Option) (model : BlackScholesModel) (steps : Z) (w : World) :
  (1 <= steps)%Z ->
  exists st w',
    PutOption.hedge_loop o model steps w = Returned (st, w')
    /\ vanilla_last_step o model (maturity o / IZR steps) (Z.to_nat steps) st.
Proof.
  intros Hsteps. unfold PutOption.hedge_loop. cbv zeta. unfold for_loopM.
  replace (steps + 1 - 1)%Z with steps by lia.
  destruct (iterateM_inv (PutOption.hedge_step o model steps (maturity o / IZR steps))
              (Z.to_nat steps) 1%Z
              (fun k st _ => vanilla_last_step o model (maturity o / IZR steps) k st)
              (PutOption.hedge_init o model) w) as (st & w' & Hrun & Hlast).
  - intros Hk. lia.
  - intros k s' w' _ _.
    destruct (Put_hedge_step_run o model steps (maturity o / IZR steps)
                (1 + Z.of_nat k) s' w') as (st' & w'' & Hrun & Htime & Hd1).
    exists st', w''. split; [ exact Hrun | ].
    intros _. split; [ | exact Hd1 ].
    rewrite Htime. f_equal. f_equal. lia.
  - exists st, w'. split; assumption.
Qed.

(** The remaining maturity of that last iteration is zero, and so is the
    divisor of [d1]. *)
Lemma vanilla_last_step_divisor (o : Option) (model : BlackScholesModel) (steps : Z)
    (st : VanillaHedge) :
  (1 <= steps)%Z ->
  vanilla_last_step o model (maturity o / IZR steps) (Z.to_nat steps) st ->
  maturity o - v_time st = 0
  /\ volatility model * sqrt (maturity o - v_time st) = 0.
Proof.
  intros Hsteps Hlast. destruct Hlast as [Htime _]; [ lia | ].
  assert (H0 : maturity o - v_time st = 0).
  { rewrite Htime, Z2Nat.id by lia. rewrite steps_dt by assumption. ring. }
  split; [ exact H0 | ].
  rewrite H0, sqrt_0. ring.
Qed.

(** *** The whole of [hedgeCost] *)

Lemma Asian_hedgeCost_run (o : AsianOption.t) (model : BlackScholesModel) (steps : Z)
    (w : World) :
  (0 <= steps)%Z ->
  exists st w1 v w',
    AsianOption.hedge_run o model steps w = Returned (st, w1)
    /\ AsianOption.hedgeCost o model steps w = Returned (v, w')
    /\ trace w' = trace w1 ++ [PathPayoffEntered (AsianOption.h_path st)]
    /\ Asian_hedge_inv o model steps w (Z.to_nat (steps - 1)) st w1.
Proof.
  intros Hsteps.
  destruct (Asian_hedge_run o model steps w Hsteps) as (st & w1 & Hrun & Hinv).
  exists st, w1. unfold AsianOption.hedgeCost.
  run_with Hrun.
  run_with (Asian_payoff_path_run o _ w1).
  eexists. eexists. split; [ exact Hrun | ]. split; [ reflexivity | ].
  split; [ reflexivity | exact Hinv ].
Qed.

Lemma Lookback_hedgeCost_run (o : LookbackOption.t) (model : BlackScholesModel) (steps : Z)
    (w : World) :
  (0 <= steps)%Z ->
  exists st w1 v w',
    LookbackOption.hedge_run o model steps w = Returned (st, w1)
    /\ LookbackOption.hedgeCost o model steps w = Returned (v, w')
    /\ trace w' = trace w1 ++ [PathPayoffEntered (LookbackOption.h_path st)]
    /\ Lookback_hedge_inv o model steps w (Z.to_nat (steps - 1)) st w1.
Proof.
  intros Hsteps.
  destruct (Lookback_hedge_run o model steps w Hsteps) as (st & w1 & Hrun & Hinv).
  exists st, w1. unfold LookbackOption.hedgeCost.
  run_with Hrun.
  pose proof Hinv as (_ & Hpath & _).
  unfold trajectory in Hpath. rewrite <- cons_seq in Hpath. cbn [map] in Hpath.
  destruct (LookbackOption.h_path st) as [|x rest]; [ discriminate Hpath | ].
  run_with (Lookback_payoff_path_run o _ _ w1).
  eexists. eexists. split; [ exact Hrun | ]. split; [ reflexivity | ].
  split; [ reflexivity | exact Hinv ].
Qed.

Lemma Barrier_hedgeCost_run (o : BarrierOption.t) (model : BlackScholesModel) (steps : Z)
    (w : World) :
  (1 <= steps)%Z ->
  exists st w1 v w',
    BarrierOption.hedge_run o model steps w = Returned (st, w1)
    /\ BarrierOption.hedgeCost o model steps w = Returned (v, w')
    /\ trace w' = trace w1
    /\ Barrier_hedge_inv o model steps w (Z.to_nat (steps - 1)) st w1.
Proof.
  intros Hsteps.
  destruct (Barrier_hedge_run o model steps w Hsteps) as (st & w1 & Hrun & Hinv).
  exists st, w1. unfold BarrierOption.hedgeCost.
  run_with Hrun.
  run_with (Barrier_payoff_run o _ w1).
  eexists. eexists. split; [ exact Hrun | ]. split; [ reflexivity | ].
  split; [ reflexivity | exact Hinv ].
Qed.

Lemma price_calls_path_payoff (tr : list event) (path : list R) :
  price_calls (tr ++ [PathPayoffEntered path]) = price_calls tr.
Proof. rewrite price_calls_app. apply app_nil_r. Qed.


(** ** The paths the payoffs are evaluated on *)

Lemma payoff_paths_app (l1 l2 : list event) :
  payoff_paths (l1 ++ l2) = payoff_paths l1 ++ payoff_paths l2.
Proof. unfold payoff_paths. apply flat_map_app. Qed.

Lemma payoff_paths_of_paths {A : Type} (f : A -> list R) (l : list A) :
  payoff_paths (map (fun i => PathPayoffEntered (f i)) l) = map f l.
Proof.
  induction l as [|a l IH]; simpl; [ reflexivity | ].
  f_equal. exact IH.
Qed.

Lemma simulated_length (model : BlackScholesModel) (steps : Z) (T : R) (Zs : nat -> R) :
  length (Spec.simulated model steps T Zs) = Z.to_nat steps.
Proof. unfold Spec.simulated. rewrite length_map, length_seq. reflexivity. Qed.

Lemma simulated_nth (model : BlackScholesModel) (steps : Z) (T : R) (Zs : nat -> R)
    (j : nat) :
  (j < Z.to_nat steps)%nat ->
  nth j (Spec.simulated model steps T Zs) 0 = Spec.S_ model (T / IZR steps) Zs (S j).
Proof.
  intros Hj. unfold Spec.simulated.
  rewrite (nth_indep _ 0 (Spec.S_ model (T / IZR steps) Zs 0))
    by (rewrite length_map, length_seq; lia).
  rewrite map_nth, seq_nth by lia. reflexivity.
Qed.

Lemma simulated_with_seed_nth (model : BlackScholesModel) (steps : Z) (T : R)
    (Zs : nat -> R) (j : nat) :
  (j <= Z.to_nat steps)%nat ->
  nth j (Spec.simulated_with_seed model steps T Zs) 0
  = Spec.S_ model (T / IZR steps) Zs j.
Proof.
  intros Hj. unfold Spec.simulated_with_seed.
  rewrite (nth_indep _ 0 (Spec.S_ model (T / IZR steps) Zs 0))
    by (rewrite length_map, length_seq; lia).
  rewrite map_nth, seq_nth by lia. reflexivity.
Qed.

(** *** The pricers on a configuration that is not valid *)

(** A loop whose first iteration throws, throws. *)
Lemma for_loopM_first_throws {S : Type} (body : Z -> S -> Sim S) (lo hi : Z) (s : S)
    (w : World) (e : exn) :
  (lo < hi)%Z -> body lo s w = Thrown e -> for_loopM lo hi body s w = Thrown e.
Proof.
  intros Hlt Hbody. unfold for_loopM.
  destruct (Z.to_nat (hi - lo)) as [|n] eqn:Hn; [ lia | ].
  cbn [iterateM]. unfold bind. rewrite Hbody. reflexivity.
Qed.

Lemma Asian_price_adjusted_no_path (o : AsianOption.t) (model : BlackScholesModel)
    (numPaths steps : Z) (T : R) (w : World) :
  (numPaths <= 0)%Z ->
  AsianOption.price_adjusted o model numPaths steps T w
  = Returned
      (exp (- rate model * T) * (0 / IZR numPaths),
       after_price w [PriceEntered model numPaths steps T]).
Proof.
  intros Hn.
  unfold AsianOption.price_adjusted.
  enter_pricer.
  unfold for_loopM. replace (Z.to_nat (numPaths - 0)) with O by lia.
  reflexivity.
Qed.

Lemma Lookback_price_adjusted_no_path (o : LookbackOption.t) (model : BlackScholesModel)
    (numPaths steps : Z) (T : R) (w : World) :
  (numPaths <= 0)%Z ->
  LookbackOption.price_adjusted o model numPaths steps T w
  = Returned
      (exp (- rate model * T) * (0 / IZR numPaths),
       after_price w [PriceEntered model numPaths steps T]).
Proof.
  intros Hn.
  unfold LookbackOption.price_adjusted.
  enter_pricer.
  unfold for_loopM. replace (Z.to_nat (numPaths - 0)) with O by lia.
  reflexivity.
Qed.

Lemma Asian_price_adjusted_throws (o : AsianOption.t) (model : BlackScholesModel)
    (numPaths steps : Z) (T : R) (w : World) :
  (1 <= numPaths)%Z -> (steps < 0)%Z ->
  AsianOption.price_adjusted o model numPaths steps T w = Thrown length_error.
Proof.
  intros Hn Hsteps.
  unfold AsianOption.price_adjusted.
  enter_pricer.
  unfold bind at 1.
  rewrite (for_loopM_first_throws _ _ _ _ _ length_error); [ reflexivity | lia | ].
  cbv beta iota zeta. unfold bind at 1.
  rewrite reserve_throws by assumption. reflexivity.
Qed.

Lemma Barrier_price_adjusted_throws (o : BarrierOption.t) (model : BlackScholesModel)
    (numPaths steps : Z) (T : R) (w : World) :
  (1 <= numPaths)%Z -> (steps < 0)%Z ->
  BarrierOption.price_adjusted o model numPaths steps T w = Thrown length_error.
Proof.
  intros Hn Hsteps.
  unfold BarrierOption.price_adjusted.
  enter_pricer.
  unfold bind at 1.
  rewrite (for_loopM_first_throws _ _ _ _ _ length_error); [ reflexivity | lia | ].
  cbv beta iota zeta. unfold bind at 1.
  rewrite reserve_throws by assumption. reflexivity.
Qed.

Lemma Lookback_price_adjusted_throws (o : LookbackOption.t) (model : BlackScholesModel)
    (numPaths steps : Z) (T : R) (w : World) :
  (1 <= numPaths)%Z -> (steps < -1)%Z ->
  LookbackOption.price_adjusted o model numPaths steps T w = Thrown length_error.
Proof.
  intros Hn Hsteps.
  unfold LookbackOption.price_adjusted.
  enter_pricer.
  unfold bind at 1.
  rewrite (for_loopM_first_throws _ _ _ _ _ length_error); [ reflexivity | lia | ].
  cbv beta iota zeta. unfold bind at 1.
  rewrite reserve_throws by lia. reflexivity.
Qed.

(** A loop whose first iteration has undefined behaviour has it too. *)
Lemma for_loopM_first_undefined {S : Type} (body : Z -> S -> Sim S) (lo hi : Z) (s : S)
    (w : World) :
  (lo < hi)%Z -> body lo s w = Undefined -> for_loopM lo hi body s w = Undefined.
Proof.
  intros Hlt Hbody. unfold for_loopM.
  destruct (Z.to_nat (hi - lo)) as [|n] eqn:Hn; [ lia | ].
  cbn [iterateM]. unfold bind. rewrite Hbody. reflexivity.
Qed.

(** With [steps = 0] the path of the Barrier pricer is empty and untouched:
    a knock-out option reads [path.back()] of the empty path. *)
Lemma Barrier_price_adjusted_no_step_out (o : BarrierOption.t)
    (model : BlackScholesModel) (numPaths : Z) (T : R) (w : World) :
  (1 <= numPaths)%Z -> BarrierOption.is_out o = true ->
  BarrierOption.price_adjusted o model numPaths 0 T w = Undefined.
Proof.
  intros Hn Hout.
  assert (Hin : BarrierOption.is_in o = false).
  { unfold BarrierOption.is_in, BarrierOption.is_out in *.
    destruct (BarrierOption.barrierType o); congruence. }
  unfold BarrierOption.price_adjusted.
  enter_pricer.
  unfold bind at 1.
  rewrite for_loopM_first_undefined; [ reflexivity | lia | ].
  cbv beta iota zeta.
  run_with (reserve_run [] 0 _ ltac:(lia)).
  unfold for_loop. change (Z.to_nat (0 - 0)) with O. cbn [iterate].
  rewrite isBarrierTouched_short by (simpl; lia).
  rewrite Hout, Hin. cbn [andb negb]. reflexivity.
Qed.

(** With [steps = 0] a knock-in option is never knocked in: every path adds
    [0.0] to the sum. *)
Lemma Barrier_price_adjusted_no_step_in (o : BarrierOption.t)
    (model : BlackScholesModel) (numPaths : Z) (T : R) (w : World) :
  BarrierOption.is_in o = true ->
  BarrierOption.price_adjusted o model numPaths 0 T w
  = Returned
      (exp (- rate model * T) * (0 / IZR numPaths),
       after_price w [PriceEntered model numPaths 0 T]).
Proof.
  intros Hin.
  assert (Hout : BarrierOption.is_out o = false).
  { unfold BarrierOption.is_in, BarrierOption.is_out in *.
    destruct (BarrierOption.barrierType o); congruence. }
  unfold BarrierOption.price_adjusted.
  enter_pricer. simpl entropy. simpl engines_seeded. simpl rand_calls. simpl trace.
  set (rng0 := {| draws := normal_draws (entropy w) (engines_seeded w); drawn := 0 |}).
  set (w1 := {| entropy := entropy w; rand_calls := rand_calls w;
                engines_seeded := S (engines_seeded w);
                trace := trace w ++ [PriceEntered model numPaths 0 T] |}).
  unfold for_loopM.
  match goal with
  | |- bind (iterateM ?m ?i ?body ?s) ?k ?w0 = _ =>
      assert (Hloop : iterateM m i body s w0 = Returned ((0, rng0), w1))
  end.
  { apply (iterateM_seq _ _ _ (fun _ => (0, rng0)) (fun _ => w1)).
    intros k _. cbv beta iota zeta.
    run_with (reserve_run [] 0 w1 ltac:(lia)).
    unfold for_loop. change (Z.to_nat (0 - 0)) with O. cbn [iterate].
    rewrite isBarrierTouched_short by (simpl; lia).
    rewrite Hout, Hin. cbn [andb negb]. unfold ret. rewrite Rplus_0_r. reflexivity. }
  run_with Hloop.
  reflexivity.
Qed.

(** ** The claims *)

(** C1 (the code departs from the claim).  The claim: at every rebalancing
    step [i] of a Monte Carlo hedging run both bumped pricing calls receive
    the remaining horizon [maturity - i*dt] and the step count [steps - i].
    The Asian and the Lookback hedging runs do not: with [steps = 2] on the
    example market, the two calls of step 1 receive the step count [2 - 1]
    but the full maturity 1, not the remaining [1 - 1 * (1/2)]. *)
Theorem C1_asian_lookback_reprice_at_full_maturity :
  (exists v w' up0 down0 up1 down1,
      AsianOption.hedgeCost example_asian example_model 2 example_world = Returned (v, w')
      /\ price_calls (trace w') = [up0; down0; up1; down1]
      /\ pc_steps up1 = (2 - 1)%Z /\ pc_steps down1 = (2 - 1)%Z
      /\ pc_maturity up1 = AsianOption.maturity example_asian
      /\ pc_maturity down1 = AsianOption.maturity example_asian
      /\ AsianOption.maturity example_asian
         <> AsianOption.maturity example_asian
            - IZR 1 * (AsianOption.maturity example_asian / IZR 2))
  /\ (exists v w' up0 down0 up1 down1,
      LookbackOption.hedgeCost example_lookback example_model 2 example_world
      = Returned (v, w')
      /\ price_calls (trace w') = [up0; down0; up1; down1]
      /\ pc_steps up1 = (2 - 1)%Z /\ pc_steps down1 = (2 - 1)%Z
      /\ pc_maturity up1 = LookbackOption.maturity example_lookback
      /\ pc_maturity down1 = LookbackOption.maturity example_lookback
      /\ LookbackOption.maturity example_lookback
         <> LookbackOption.maturity example_lookback
            - IZR 1 * (LookbackOption.maturity example_lookback / IZR 2)).
Proof.
  split.
  - destruct (Asian_hedgeCost_run example_asian example_model 2 example_world ltac:(lia))
      as (st & w1 & v & w' & _ & Hcost & Htrace & Hinv).
    destruct Hinv as (_ & _ & _ & _ & _ & _ & Hcalls).
    change (Z.to_nat (2 - 1)) with 1%nat in Hcalls.
    unfold full_maturity_calls, bumped_calls in Hcalls.
    cbn [seq flat_map app example_world trace price_calls] in Hcalls.
    exists v, w'. do 4 eexists.
    split; [ exact Hcost | ].
    split; [ rewrite Htrace, price_calls_path_payoff; exact Hcalls | ].
    cbn [pc_steps pc_maturity example_asian AsianOption.maturity].
    repeat split. lra.
  - destruct (Lookback_hedgeCost_run example_lookback example_model 2 example_world
                ltac:(lia))
      as (st & w1 & v & w' & _ & Hcost & Htrace & Hinv).
    destruct Hinv as (_ & _ & _ & _ & _ & _ & Hcalls).
    change (Z.to_nat (2 - 1)) with 1%nat in Hcalls.
    unfold full_maturity_calls, bumped_calls in Hcalls.
    cbn [seq flat_map app example_world trace price_calls] in Hcalls.
    exists v, w'. do 4 eexists.
    split; [ exact Hcost | ].
    split; [ rewrite Htrace, price_calls_path_payoff; exact Hcalls | ].
    cbn [pc_steps pc_maturity example_lookback LookbackOption.maturity].
    repeat split. lra.
Qed.

(** C2, the claim as stated fails.  With [numPaths = 0], and with
    [steps = 0], the Asian pricer does not fail: it returns; and with
    [steps = 0] the pricer of a knock-in Barrier option returns
    [exp(-rate*maturity) * (0 / numPaths)], a zero. *)
Lemma C2_counterexample :
  (exists v,
      AsianOption.price example_asian example_model 0 100 example_world
      = Returned (v, after_price example_world
                       [PriceEntered example_model 0 100
                          (AsianOption.maturity example_asian)]))
  /\ (exists v w',
        AsianOption.price example_asian example_model 100 0 example_world
        = Returned (v, w'))
  /\ (forall e : exn,
        AsianOption.price example_asian example_model 0 100 example_world <> Thrown e)
  /\ (forall e : exn,
        AsianOption.price example_asian example_model 100 0 example_world <> Thrown e)
  /\ BarrierOption.price (BarrierOption.mk 100 1 120 UpAndIn Call) example_model 100 0
       example_world
     = Returned (exp (- rate example_model * 1) * (0 / IZR 100),
                 after_price example_world [PriceEntered example_model 100 0 1])
  /\ exp (- rate example_model * 1) * (0 / IZR 100) = 0.
Proof.
  assert (H0 : exists v,
             AsianOption.price example_asian example_model 0 100 example_world
             = Returned (v, after_price example_world
                              [PriceEntered example_model 0 100
                                 (AsianOption.maturity example_asian)])).
  { eexists. unfold AsianOption.price. apply Asian_price_adjusted_no_path. lia. }
  assert (H1 : exists v w',
             AsianOption.price example_asian example_model 100 0 example_world
             = Returned (v, w')).
  { unfold AsianOption.price. rewrite Asian_price_adjusted_run by lia.
    eexists. eexists. reflexivity. }
  split; [ exact H0 | ]. split; [ exact H1 | ]. split; [ | split; [ | split ] ].
  - intros e He. destruct H0 as (v & H0). rewrite H0 in He. discriminate.
  - intros e He. destruct H1 as (v & w' & H1). rewrite H1 in He. discriminate.
  - unfold BarrierOption.price.
    apply (Barrier_price_adjusted_no_step_in (BarrierOption.mk 100 1 120 UpAndIn Call)).
    reflexivity.
  - unfold Rdiv. rewrite Rmult_0_l. apply Rmult_0_r.
Qed.

(** C2, as amended.  The Monte Carlo pricers do not validate [numPaths]
    and [steps].  With [numPaths <= 0] every variant's pricer returns a
    value without simulating a path; for [numPaths < 0] the value is
    [exp(-rate*maturity) * (0 / numPaths)].  With [numPaths >= 1]: for
    [steps = 0] the Asian and the Lookback pricer return a value (the
    Lookback pricer for [steps = -1] too), the Barrier pricer returns
    [exp(-rate*maturity) * (0 / numPaths)] for a knock-in option and has
    undefined behaviour, [back()] of an empty path, for a knock-out option;
    for [steps < 0] the Asian and the Barrier pricer (the Lookback pricer
    for [steps < -1]) fail with the [std::length_error] of [path.reserve]. *)
Theorem C2_price_on_invalid_configuration (oA : AsianOption.t)
    (oL : LookbackOption.t) (oB : BarrierOption.t) (model : BlackScholesModel)
    (numPaths steps : Z) (w : World) :
  (numPaths <= 0 \/ steps <= 0)%Z ->
  ((numPaths <= 0)%Z -> prices_without_paths oA oL oB model numPaths steps w)
  /\ ((1 <= numPaths)%Z -> steps = 0%Z ->
      exists v evs,
        AsianOption.price oA model numPaths steps w = Returned (v, after_price w evs))
  /\ ((1 <= numPaths)%Z -> (-1 <= steps <= 0)%Z ->
      exists v evs,
        LookbackOption.price oL model numPaths steps w = Returned (v, after_price w evs))
  /\ ((1 <= numPaths)%Z -> steps = 0%Z ->
      match BarrierOption.barrierType oB with
      | UpAndIn | DownAndIn =>
          BarrierOption.price oB model numPaths steps w
          = Returned (exp (- rate model * BarrierOption.maturity oB) * (0 / IZR numPaths),
                      after_price w
                        [PriceEntered model numPaths steps (BarrierOption.maturity oB)])
      | UpAndOut | DownAndOut =>
          BarrierOption.price oB model numPaths steps w = Undefined
      end)
  /\ ((1 <= numPaths)%Z -> (steps < 0)%Z ->
      AsianOption.price oA model numPaths steps w = Thrown length_error
      /\ BarrierOption.price oB model numPaths steps w = Thrown length_error)
  /\ ((1 <= numPaths)%Z -> (steps < -1)%Z ->
      LookbackOption.price oL model numPaths steps w = Thrown length_error).
Proof.
  intros _. split; [ | split; [ | split; [ | split; [ | split ] ] ] ].
  - intros Hn. unfold prices_without_paths. do 3 eexists.
    split; [ apply Asian_price_adjusted_no_path; assumption | ].
    split; [ apply Lookback_price_adjusted_no_path; assumption | ].
    split; [ apply Barrier_price_adjusted_no_path; assumption | ].
    intros _. repeat split.
  - intros _ Hsteps. unfold AsianOption.price.
    rewrite Asian_price_adjusted_run by lia. eexists. eexists. reflexivity.
  - intros _ Hsteps. unfold LookbackOption.price.
    rewrite Lookback_price_adjusted_run by lia. eexists. eexists. reflexivity.
  - intros Hn Hsteps. subst steps. unfold BarrierOption.price.
    destruct (BarrierOption.barrierType oB) eqn:Hbt.
    + apply Barrier_price_adjusted_no_step_out; [ assumption | ].
      unfold BarrierOption.is_out. rewrite Hbt. reflexivity.
    + apply Barrier_price_adjusted_no_step_out; [ assumption | ].
      unfold BarrierOption.is_out. rewrite Hbt. reflexivity.
    + apply Barrier_price_adjusted_no_step_in.
      unfold BarrierOption.is_in. rewrite Hbt. reflexivity.
    + apply Barrier_price_adjusted_no_step_in.
      unfold BarrierOption.is_in. rewrite Hbt. reflexivity.
  - intros Hn Hsteps. split.
    + apply Asian_price_adjusted_throws; assumption.
    + apply Barrier_price_adjusted_throws; assumption.
  - intros Hn Hsteps. apply Lookback_price_adjusted_throws; assumption.
Qed.

(** The amended C2 at [numPaths = 0], [steps = 0] on the example market. *)
Lemma C2_witness :
  prices_without_paths example_asian example_lookback example_barrier example_model
    0 0 example_world.
Proof.
  destruct (C2_price_on_invalid_configuration example_asian example_lookback
              example_barrier example_model 0 0 example_world) as (H0 & _).
  - left. lia.
  - apply H0. lia.
Defined.

(** C3 (the code departs from the claim).  The claim: the vanilla hedging
    loops guard the last rebalancing step, where the remaining maturity
    [maturity - i*dt] is zero, so that nothing is divided by a zero time to
    maturity.  They do not: with [steps = 1] on the example market, at the
    money, the loop runs its iteration [i = steps] without simulating
    (the spot is still the strike), at remaining maturity 0, and computes
    [d1] as a quotient whose dividend and divisor are both zero. *)
Theorem C3_last_step_divides_by_zero :
  (exists st w',
      CallOption.hedge_loop example_vanilla example_model 1 example_world
      = Returned (st, w')
      /\ v_spot st = strike example_vanilla
      /\ maturity example_vanilla - v_time st = 0
      /\ v_d1 st
         = (ln (v_spot st / strike example_vanilla)
            + (rate example_model - dividend example_model
               + 0.5 * volatility example_model * volatility example_model)
              * (maturity example_vanilla - v_time st))
           / (volatility example_model * sqrt (maturity example_vanilla - v_time st))
      /\ ln (v_spot st / strike example_vanilla)
         + (rate example_model - dividend example_model
            + 0.5 * volatility example_model * volatility example_model)
           * (maturity example_vanilla - v_time st) = 0
      /\ volatility example_model * sqrt (maturity example_vanilla - v_time st) = 0)
  /\ (exists st w',
        PutOption.hedge_loop example_vanilla example_model 1 example_world
        = Returned (st, w')
        /\ v_spot st = strike example_vanilla
        /\ maturity example_vanilla - v_time st = 0
        /\ v_d1 st
           = (ln (v_spot st / strike example_vanilla)
              + (rate example_model - dividend example_model
                 + 0.5 * volatility example_model * volatility example_model)
                * (maturity example_vanilla - v_time st))
             / (volatility example_model * sqrt (maturity example_vanilla - v_time st))
        /\ ln (v_spot st / strike example_vanilla)
           + (rate example_model - dividend example_model
              + 0.5 * volatility example_model * volatility example_model)
             * (maturity example_vanilla - v_time st) = 0
        /\ volatility example_model * sqrt (maturity example_vanilla - v_time st) = 0).
Proof.
  assert (Htime : maturity example_vanilla - IZR 1 * (maturity example_vanilla / IZR 1) = 0)
    by (cbn [example_vanilla maturity]; lra).
  assert (Hln : ln (spot example_model / strike example_vanilla) = 0).
  { cbn [example_model example_vanilla spot strike].
    replace (100 / 100) with 1 by lra. apply ln_1. }
  split.
  - unfold CallOption.hedge_loop, for_loopM.
    change (Z.to_nat (1 + 1 - 1)) with 1%nat. cbn [iterateM].
    unfold CallOption.hedge_step. change (1 <? 1)%Z with false. cbv beta iota zeta.
    unfold bind, ret. cbv beta iota.
    eexists. eexists. split; [ reflexivity | ].
    cbn [v_spot v_time v_d1 CallOption.hedge_init].
    split; [ reflexivity | ]. split; [ exact Htime | ]. split; [ reflexivity | ].
    rewrite Htime, Hln, sqrt_0. split; ring.
  - unfold PutOption.hedge_loop, for_loopM.
    change (Z.to_nat (1 + 1 - 1)) with 1%nat. cbn [iterateM].
    unfold PutOption.hedge_step. change (1 <? 1)%Z with false. cbv beta iota zeta.
    unfold bind, ret. cbv beta iota.
    eexists. eexists. split; [ reflexivity | ].
    cbn [v_spot v_time v_d1 PutOption.hedge_init].
    split; [ reflexivity | ]. split; [ exact Htime | ]. split; [ reflexivity | ].
    rewrite Htime, Hln, sqrt_0. split; ring.
Qed.

(** C4.  The terminal payoff entry point of the Asian and of the Lookback
    option throws [std::logic_error] for every spot; the exception reaches
    the caller whatever the caller does next, and no value is returned. *)
Theorem C4_terminal_payoff_unsupported (oA : AsianOption.t) (oL : LookbackOption.t)
    (spot : R) (w : World) :
  AsianOption.payoff oA spot w
  = Thrown (logic_error "payoff(double spot) is not applicable for AsianOption.")
  /\ LookbackOption.payoff oL spot w
     = Thrown (logic_error "payoff(double spot) is not applicable for LookbackOption.")
  /\ (forall (B : Type) (k : R -> Sim B),
         bind (AsianOption.payoff oA spot) k w
         = Thrown (logic_error "payoff(double spot) is not applicable for AsianOption.")
         /\ bind (LookbackOption.payoff oL spot) k w
            = Thrown (logic_error
                        "payoff(double spot) is not applicable for LookbackOption."))
  /\ (forall (v : R) (w' : World),
         AsianOption.payoff oA spot w <> Returned (v, w')
         /\ LookbackOption.payoff oL spot w <> Returned (v, w')).
Proof.
  repeat split; try reflexivity; intros H; discriminate H.
Qed.






(** C7.  [isBarrierTouched] returns true exactly when the path has an
    index [i >= 1] with [path[i-1] < barrier <= path[i]] (Up-type
    barriers) or [path[i-1] > barrier >= path[i]] (Down-type barriers);
    on [90, 95, 100, 105, 110] with barrier 100 and an Up-type barrier it
    returns true. *)
Theorem C7_isBarrierTouched_is_directional_crossing :
  (forall (o : BarrierOption.t) (path : list R),
      BarrierOption.isBarrierTouched o path = true
      <-> exists i : nat,
            (1 <= i < length path)%nat
            /\ match BarrierOption.barrierType o with
               | UpAndOut | UpAndIn =>
                   nth (i - 1) path 0 < BarrierOption.barrier o
                   /\ nth i path 0 >= BarrierOption.barrier o
               | DownAndOut | DownAndIn =>
                   nth (i - 1) path 0 > BarrierOption.barrier o
                   /\ nth i path 0 <= BarrierOption.barrier o
               end)
  /\ (forall (strike maturity : R) (optionType : OptionType),
        BarrierOption.isBarrierTouched
          (BarrierOption.mk strike maturity 100 UpAndOut optionType)
          [90; 95; 100; 105; 110] = true
        /\ BarrierOption.isBarrierTouched
             (BarrierOption.mk strike maturity 100 UpAndIn optionType)
             [90; 95; 100; 105; 110] = true).
Proof.
  assert (Hiff : forall (o : BarrierOption.t) (path : list R),
             BarrierOption.isBarrierTouched o path = true
             <-> exists i : nat,
                   (1 <= i < length path)%nat
                   /\ match BarrierOption.barrierType o with
                      | UpAndOut | UpAndIn =>
                          nth (i - 1) path 0 < BarrierOption.barrier o
                          /\ nth i path 0 >= BarrierOption.barrier o
                      | DownAndOut | DownAndIn =>
                          nth (i - 1) path 0 > BarrierOption.barrier o
                          /\ nth i path 0 <= BarrierOption.barrier o
                      end).
  { intros o path. rewrite isBarrierTouched_iff.
    unfold Spec.touched, Spec.crossing.
    destruct (BarrierOption.barrierType o); cbn [Spec.is_up]; reflexivity. }
  split; [ exact Hiff | ].
  intros strike maturity optionType.
  split; apply Hiff; exists 2%nat; cbn; (split; [ lia | lra ]).
Qed.

(** C8.  Put-call parity of the analytic prices, in real arithmetic. *)
Theorem C8_put_call_parity (model : BlackScholesModel) (option : Option) :
  spot model > 0 -> volatility model > 0 ->
  strike option > 0 -> maturity option > 0 ->
  priceAnalytic model option true - priceAnalytic model option false
  = spot model * exp (- dividend model * maturity option)
    - strike option * exp (- rate model * maturity option).
Proof.
  intros _ _ _ _.
  unfold priceAnalytic. cbv zeta. unfold normalCDF.
  set (d1 := (ln (spot model / strike option)
              + (rate model - dividend model + 0.5 * volatility model * volatility model)
                * maturity option)
             / (volatility model * sqrt (maturity option))).
  set (d2 := d1 - volatility model * sqrt (maturity option)).
  pose proof (Erf.erfc_reflect (d1 * M_SQRT1_2)) as H1.
  pose proof (Erf.erfc_reflect (d2 * M_SQRT1_2)) as H2.
  replace (- - d1 * M_SQRT1_2) with (d1 * M_SQRT1_2) by ring.
  replace (- - d2 * M_SQRT1_2) with (d2 * M_SQRT1_2) by ring.
  replace (- d1 * M_SQRT1_2) with (- (d1 * M_SQRT1_2)) by ring.
  replace (- d2 * M_SQRT1_2) with (- (d2 * M_SQRT1_2)) by ring.
  set (a1 := Erf.erfc (- (d1 * M_SQRT1_2))) in *.
  set (b1 := Erf.erfc (d1 * M_SQRT1_2)) in *.
  set (a2 := Erf.erfc (- (d2 * M_SQRT1_2))) in *.
  set (b2 := Erf.erfc (d2 * M_SQRT1_2)) in *.
  set (A := spot model * exp (- dividend model * maturity option)).
  set (B := strike option * exp (- rate model * maturity option)).
  replace b1 with (2 - a1) by lra.
  replace b2 with (2 - a2) by lra.
  lra.
Qed.

(** C8 on the example market, at the money. *)
Lemma C8_witness :
  priceAnalytic example_model example_vanilla true
  - priceAnalytic example_model example_vanilla false
  = spot example_model * exp (- dividend example_model * maturity example_vanilla)
    - strike example_vanilla * exp (- rate example_model * maturity example_vanilla).
Proof.
  apply C8_put_call_parity; simpl; lra.
Defined.

(** C9.  For [steps >= 1] the Asian pricer evaluates its payoff on paths of
    exactly [steps] simulated prices without the initial spot, the Lookback
    pricer on paths of [steps + 1] prices that start with the initial spot,
    and the Asian hedging run evaluates its terminal payoff on a trajectory
    that starts with the initial spot. *)
Theorem C9_path_conventions (oA : AsianOption.t) (oL : LookbackOption.t)
    (model : BlackScholesModel) (numPaths steps : Z) (T : R) (w : World) :
  (1 <= steps)%Z ->
  Asian_price_excludes_seed oA model numPaths steps T w
  /\ Lookback_price_includes_seed oL model numPaths steps T w
  /\ Asian_hedge_includes_seed oA model steps w.
Proof.
  intros Hsteps. split; [ | split ].
  - unfold Asian_price_excludes_seed. rewrite Asian_price_adjusted_run by lia.
    eexists. eexists. split; [ reflexivity | ].
    change (PriceEntered model numPaths steps T :: ?l)
      with ([PriceEntered model numPaths steps T] ++ l).
    rewrite payoff_paths_app, payoff_paths_of_paths. cbn [payoff_paths flat_map app].
    split; [ reflexivity | ].
    intros path Hin. apply in_map_iff in Hin. destruct Hin as (i & <- & _).
    split; [ apply simulated_length | ].
    exists (path_draws w steps i). intros j Hj. apply simulated_nth, Hj.
  - unfold Lookback_price_includes_seed. rewrite Lookback_price_adjusted_run by lia.
    eexists. eexists. split; [ reflexivity | ].
    change (PriceEntered model numPaths steps T :: ?l)
      with ([PriceEntered model numPaths steps T] ++ l).
    rewrite payoff_paths_app, payoff_paths_of_paths. cbn [payoff_paths flat_map app].
    split; [ reflexivity | ].
    intros path Hin. apply in_map_iff in Hin. destruct Hin as (i & <- & _).
    split; [ | split ].
    + unfold Spec.simulated_with_seed. rewrite length_map, length_seq. reflexivity.
    + rewrite simulated_with_seed_nth by lia. reflexivity.
    + exists (path_draws w steps i). intros j Hj. apply simulated_with_seed_nth, Hj.
  - unfold Asian_hedge_includes_seed, AsianOption.hedgeCost.
    destruct (Asian_hedge_run oA model steps w ltac:(lia)) as (st & w1 & Hrun & Hinv).
    destruct Hinv as (_ & Hpath & _).
    run_with Hrun.
    run_with (Asian_payoff_path_run oA _ w1).
    eexists. eexists. exists (trace w1), (AsianOption.h_path st).
    split; [ reflexivity | ]. split; [ reflexivity | ].
    rewrite Hpath.
    split; [ rewrite trajectory_length; lia | ].
    split; [ rewrite trajectory_nth by lia; reflexivity | ].
    intros j Hj. apply trajectory_nth. lia.
Qed.

(** C9 at three paths of two steps on the example market. *)
Lemma C9_witness :
  Asian_price_excludes_seed example_asian example_model 3 2 1 example_world
  /\ Lookback_price_includes_seed example_lookback example_model 3 2 1 example_world
  /\ Asian_hedge_includes_seed example_asian example_model 2 example_world.
Proof.
  apply (C9_path_conventions example_asian example_lookback example_model 3 2 1
           example_world).
  lia.
Defined.

(** C10.  On a path of length 0 or 1 the barrier is never touched, whatever
    the barrier type and level; so the barrier state computed before the
    loop of the hedging run, on the one-point path [model.spot], is
    untouched. *)
Theorem C10_initial_spot_never_touches (o : BarrierOption.t) :
  (forall path : list R,
      (length path <= 1)%nat -> BarrierOption.isBarrierTouched o path = false)
  /\ (forall (model : BlackScholesModel) (steps : Z) (w : World),
        (1 <= steps)%Z ->
        exists st w',
          BarrierOption.hedge_init o model steps 10000 (0.01 * spot model) w
          = Returned (st, w')
          /\ BarrierOption.h_path st = [spot model]
          /\ BarrierOption.barrierTouched st = false).
Proof.
  split.
  - apply isBarrierTouched_short.
  - intros model steps w Hsteps.
    destruct (Barrier_hedge_init_run o model steps w Hsteps) as (st & w' & Hrun & Hinv).
    destruct Hinv as (_ & Hpath & _ & _ & Htouched & _).
    exists st, w'. split; [ exact Hrun | ]. split; [ exact Hpath | ].
    rewrite Htouched. apply isBarrierTouched_short. rewrite Hpath. simpl. lia.
Qed.

(** C10 on the one-point path of the example market, whose spot is the
    barrier level. *)
Lemma C10_witness :
  BarrierOption.isBarrierTouched example_barrier [spot example_model] = false
  /\ exists st w',
       BarrierOption.hedge_init example_barrier example_model 1 10000
         (0.01 * spot example_model) example_world
       = Returned (st, w')
       /\ BarrierOption.h_path st = [spot example_model]
       /\ BarrierOption.barrierTouched st = false.
Proof.
  destruct (C10_initial_spot_never_touches example_barrier) as [Hshort Hinit].
  split.
  - apply Hshort. simpl. lia.
  - apply Hinit. lia.
Defined.

(** ** Further properties of the code *)

(** *** Payoffs *)

Lemma path_max_upper (x : R) (rest : list R) (y : R) :
  In y (x :: rest) -> y <= Spec.path_max x rest.
Proof.
  unfold Spec.path_max. induction rest as [|a rest IH]; simpl.
  - intros [-> | []]. lra.
  - intros [-> | [-> | Hin]].
    + eapply Rle_trans; [ apply IH; left; reflexivity | apply Rmax_r ].
    + apply Rmax_l.
    + eapply Rle_trans; [ apply IH; right; exact Hin | apply Rmax_r ].
Qed.

Lemma path_max_in (x : R) (rest : list R) : In (Spec.path_max x rest) (x :: rest).
Proof.
  unfold Spec.path_max. induction rest as [|a rest IH]; simpl.
  - left. reflexivity.
  - destruct (Rle_dec a (fold_right Rmax x rest)) as [Hle | Hgt].
    + rewrite Rmax_right by exact Hle.
      destruct IH as [H | H]; [ left; exact H | right; right; exact H ].
    + rewrite Rmax_left by lra. right. left. reflexivity.
Qed.

Lemma path_min_lower (x : R) (rest : list R) (y : R) :
  In y (x :: rest) -> Spec.path_min x rest <= y.
Proof.
  unfold Spec.path_min. induction rest as [|a rest IH]; simpl.
  - intros [-> | []]. lra.
  - intros [-> | [-> | Hin]].
    + eapply Rle_trans; [ apply Rmin_r | apply IH; left; reflexivity ].
    + apply Rmin_l.
    + eapply Rle_trans; [ apply Rmin_r | apply IH; right; exact Hin ].
Qed.

Lemma path_min_in (x : R) (rest : list R) : In (Spec.path_min x rest) (x :: rest).
Proof.
  unfold Spec.path_min. induction rest as [|a rest IH]; simpl.
  - left. reflexivity.
  - destruct (Rle_dec a (fold_right Rmin x rest)) as [Hle | Hgt].
    + rewrite Rmin_left by exact Hle. right. left. reflexivity.
    + rewrite Rmin_right by lra.
      destruct IH as [H | H]; [ left; exact H | right; right; exact H ].
Qed.

Lemma sum_le_bound (l : list R) (M : R) :
  (forall y, In y l -> y <= M) -> fold_right Rplus 0 l <= INR (length l) * M.
Proof.
  induction l as [|a l IH]; intros Hb.
  - simpl. lra.
  - change (length (a :: l)) with (S (length l)). rewrite S_INR.
    cbn [fold_right].
    assert (Ha : a <= M) by (apply Hb; left; reflexivity).
    assert (Hl : fold_right Rplus 0 l <= INR (length l) * M)
      by (apply IH; intros y Hy; apply Hb; right; exact Hy).
    lra.
Qed.

Lemma sum_ge_bound (l : list R) (m : R) :
  (forall y, In y l -> m <= y) -> INR (length l) * m <= fold_right Rplus 0 l.
Proof.
  induction l as [|a l IH]; intros Hb.
  - simpl. lra.
  - change (length (a :: l)) with (S (length l)). rewrite S_INR.
    cbn [fold_right].
    assert (Ha : m <= a) by (apply Hb; left; reflexivity).
    assert (Hl : INR (length l) * m <= fold_right Rplus 0 l)
      by (apply IH; intros y Hy; apply Hb; right; exact Hy).
    lra.
Qed.

Lemma length_pos_INR (l : list R) : l <> [] -> 0 < INR (length l).
Proof.
  intros Hl. destruct l as [|a l]; [ contradiction | ].
  apply lt_0_INR. simpl. lia.
Qed.

Lemma mean_le_bound (l : list R) (M : R) :
  l <> [] -> (forall y, In y l -> y <= M) -> Spec.mean l <= M.
Proof.
  intros Hl Hb. unfold Spec.mean.
  pose proof (length_pos_INR l Hl) as Hn.
  pose proof (sum_le_bound l M Hb) as Hs.
  apply Rmult_le_reg_r with (INR (length l)); [ exact Hn | ].
  unfold Rdiv. rewrite Rmult_assoc, Rinv_l by lra. lra.
Qed.

Lemma mean_ge_bound (l : list R) (m : R) :
  l <> [] -> (forall y, In y l -> m <= y) -> m <= Spec.mean l.
Proof.
  intros Hl Hb. unfold Spec.mean.
  pose proof (length_pos_INR l Hl) as Hn.
  pose proof (sum_ge_bound l m Hb) as Hs.
  apply Rmult_le_reg_r with (INR (length l)); [ exact Hn | ].
  unfold Rdiv. rewrite Rmult_assoc, Rinv_l by lra. lra.
Qed.

Lemma Rmax_0_le (a b : R) : a <= b -> Rmax a 0 <= Rmax b 0.
Proof. intros H. apply Rle_max_compat_r, H. Qed.

Lemma asian_le_lookback (ty : OptionType) (K x : R) (rest : list R) :
  0 <= Spec.asian_payoff ty K (x :: rest)
  /\ Spec.asian_payoff ty K (x :: rest) <= Spec.lookback_payoff ty K x rest.
Proof.
  assert (Hne : x :: rest <> []) by discriminate.
  unfold Spec.asian_payoff, Spec.lookback_payoff.
  destruct ty; (split; [ apply Rmax_r | apply Rmax_0_le ]).
  - pose proof (mean_le_bound (x :: rest) _ Hne (path_max_upper x rest)). lra.
  - pose proof (mean_ge_bound (x :: rest) _ Hne (path_min_lower x rest)). lra.
Qed.

Lemma last_in (rest : list R) : forall x : R, In (last rest x) (x :: rest).
Proof.
  induction rest as [|a rest IH]; intros x.
  - left. reflexivity.
  - change (last (a :: rest) x) with
      (match rest with [] => a | _ :: _ => last rest x end).
    destruct rest as [|b rest'].
    + right. left. reflexivity.
    + destruct (IH x) as [H | H].
      * left. exact H.
      * right. right. exact H.
Qed.

(** X1.  [LookbackOption::payoff(path)] has undefined behaviour on the
    empty path; on any other path it returns, and the price it measures
    against the strike is an element of the path that bounds all the
    others: the greatest for a call, the smallest for a put. *)
Theorem X1_lookback_payoff_extremum (o : LookbackOption.t) (path : list R) (w : World) :
  (path = [] -> LookbackOption.payoff_path o path w = Undefined)
  /\ (path <> [] ->
      exists v m,
        LookbackOption.payoff_path o path w
        = Returned (v, logged w [PathPayoffEntered path])
        /\ In m path
        /\ match LookbackOption.optionType o with
           | Call => (forall y, In y path -> y <= m)
                     /\ v = Rmax (m - LookbackOption.strike o) 0
           | Put => (forall y, In y path -> m <= y)
                    /\ v = Rmax (LookbackOption.strike o - m) 0
           end).
Proof.
  split.
  - intros ->. unfold LookbackOption.payoff_path, bind, enter.
    destruct (LookbackOption.optionType o); reflexivity.
  - intros Hne. destruct path as [|x rest]; [ contradiction | ].
    rewrite Lookback_payoff_path_run. unfold Spec.lookback_payoff.
    destruct (LookbackOption.optionType o).
    + exists (Rmax (Spec.path_max x rest - LookbackOption.strike o) 0),
        (Spec.path_max x rest).
      split; [ reflexivity | ]. split; [ apply path_max_in | ].
      split; [ apply path_max_upper | reflexivity ].
    + exists (Rmax (LookbackOption.strike o - Spec.path_min x rest) 0),
        (Spec.path_min x rest).
      split; [ reflexivity | ]. split; [ apply path_min_in | ].
      split; [ apply path_min_lower | reflexivity ].
Qed.

(** X1 on the empty path and on the one-point path of the example spot. *)
Lemma X1_witness :
  LookbackOption.payoff_path example_lookback [] example_world = Undefined
  /\ exists v m,
       LookbackOption.payoff_path example_lookback [spot example_model] example_world
       = Returned (v, logged example_world [PathPayoffEntered [spot example_model]])
       /\ In m [spot example_model]
       /\ (forall y, In y [spot example_model] -> y <= m)
       /\ v = Rmax (m - LookbackOption.strike example_lookback) 0.
Proof.
  destruct (X1_lookback_payoff_extremum example_lookback [] example_world) as [H0 _].
  destruct (X1_lookback_payoff_extremum example_lookback [spot example_model]
              example_world) as [_ H1].
  split.
  - apply H0. reflexivity.
  - destruct H1 as (v & m & Hrun & Hin & Hup & Hv); [ discriminate | ].
    exists v, m. repeat split; assumption.
Defined.

(** X2.  Over the reals (the arithmetic of [double] taken as exact): on a
    path that is not empty the Asian payoff is at least 0 and at most the
    Lookback payoff of the same strike and option type, the exact mean of a
    path lying between its smallest and its greatest price.  In binary64
    the rounded mean can exceed the greatest price by a rounding error, and
    the second inequality with it. *)
Theorem X2_asian_payoff_below_lookback (K T : R) (ty : OptionType) (path : list R)
    (w : World) :
  path <> [] ->
  exists a l wa wl,
    AsianOption.payoff_path (AsianOption.mk K T ty) path w = Returned (a, wa)
    /\ LookbackOption.payoff_path (LookbackOption.mk K T ty) path w = Returned (l, wl)
    /\ 0 <= a <= l.
Proof.
  intros Hne. destruct path as [|x rest]; [ contradiction | ].
  rewrite Asian_payoff_path_run, Lookback_payoff_path_run.
  do 4 eexists. split; [ reflexivity | ]. split; [ reflexivity | ].
  cbn [AsianOption.optionType AsianOption.strike LookbackOption.optionType
       LookbackOption.strike].
  apply asian_le_lookback.
Qed.

(** X2 on the path 90, 95, 100, 105, 110. *)
Lemma X2_witness :
  exists a l wa wl,
    AsianOption.payoff_path (AsianOption.mk 100 1 Call) [90; 95; 100; 105; 110]
      example_world = Returned (a, wa)
    /\ LookbackOption.payoff_path (LookbackOption.mk 100 1 Call) [90; 95; 100; 105; 110]
         example_world = Returned (l, wl)
    /\ 0 <= a <= l.
Proof.
  apply (X2_asian_payoff_below_lookback 100 1 Call [90; 95; 100; 105; 110] example_world).
  discriminate.
Defined.

(** X3.  On a path that is not empty the Lookback call payoff is at least
    the vanilla call payoff at the last price of the path, and the Lookback
    put payoff at least the vanilla put payoff there. *)
Theorem X3_lookback_dominates_vanilla (K T : R) (path : list R) (w : World) :
  path <> [] ->
  exists s c p lc lp wc wp,
    back path w = Returned (s, w)
    /\ CallOption.payoff (mkOption K T) s w = Returned (c, w)
    /\ PutOption.payoff (mkOption K T) s w = Returned (p, w)
    /\ LookbackOption.payoff_path (LookbackOption.mk K T Call) path w = Returned (lc, wc)
    /\ LookbackOption.payoff_path (LookbackOption.mk K T Put) path w = Returned (lp, wp)
    /\ c <= lc /\ p <= lp.
Proof.
  intros Hne. destruct path as [|x rest]; [ contradiction | ].
  rewrite !Lookback_payoff_path_run.
  do 7 eexists. split; [ reflexivity | ]. split; [ reflexivity | ].
  split; [ reflexivity | ]. split; [ reflexivity | ]. split; [ reflexivity | ].
  cbn [LookbackOption.optionType LookbackOption.strike strike Spec.lookback_payoff].
  pose proof (path_max_upper x rest _ (last_in rest x)) as Hmax.
  pose proof (path_min_lower x rest _ (last_in rest x)) as Hmin.
  split; apply Rmax_0_le; lra.
Qed.

(** X3 on the path 90, 95, 100, 105, 110. *)
Lemma X3_witness :
  exists s c p lc lp wc wp,
    back [90; 95; 100; 105; 110] example_world = Returned (s, example_world)
    /\ CallOption.payoff (mkOption 100 1) s example_world = Returned (c, example_world)
    /\ PutOption.payoff (mkOption 100 1) s example_world = Returned (p, example_world)
    /\ LookbackOption.payoff_path (LookbackOption.mk 100 1 Call) [90; 95; 100; 105; 110]
         example_world = Returned (lc, wc)
    /\ LookbackOption.payoff_path (LookbackOption.mk 100 1 Put) [90; 95; 100; 105; 110]
         example_world = Returned (lp, wp)
    /\ c <= lc /\ p <= lp.
Proof.
  apply (X3_lookback_dominates_vanilla 100 1 [90; 95; 100; 105; 110] example_world).
  discriminate.
Defined.

(** X4.  At every spot the vanilla call and put payoffs of one option are
    both at least 0, at most one of them is not 0, and their difference is
    [spot - strike]. *)
Theorem X4_vanilla_payoff_parity (o : Option) (s : R) (w : World) :
  exists c p,
    CallOption.payoff o s w = Returned (c, w)
    /\ PutOption.payoff o s w = Returned (p, w)
    /\ c - p = s - strike o
    /\ 0 <= c /\ 0 <= p /\ c * p = 0.
Proof.
  unfold CallOption.payoff, PutOption.payoff, ret.
  do 2 eexists. split; [ reflexivity | ]. split; [ reflexivity | ].
  unfold Rmax.
  destruct (Rle_dec (s - strike o) 0), (Rle_dec (strike o - s) 0);
    repeat split; try lra; nra.
Qed.

(** *** The barrier scan *)

Lemma isBarrierTouched_app (o : BarrierOption.t) (path more : list R) :
  BarrierOption.isBarrierTouched o path = true ->
  BarrierOption.isBarrierTouched o (path ++ more) = true.
Proof.
  rewrite !isBarrierTouched_iff. unfold Spec.touched, Spec.crossing.
  intros (i & Hi & Hcross). exists i.
  rewrite length_app. split; [ lia | ].
  rewrite !app_nth1 by lia. exact Hcross.
Qed.

(** X5.  The barrier state is monotone along a trajectory: once
    [isBarrierTouched] is true of a path it is true of every extension of
    the path, and a path that is untouched has only untouched prefixes. *)
Theorem X5_touched_is_monotone (o : BarrierOption.t) (path more : list R) :
  (BarrierOption.isBarrierTouched o path = true ->
   BarrierOption.isBarrierTouched o (path ++ more) = true)
  /\ (BarrierOption.isBarrierTouched o (path ++ more) = false ->
      BarrierOption.isBarrierTouched o path = false).
Proof.
  split.
  - apply isBarrierTouched_app.
  - intros Hfalse.
    destruct (BarrierOption.isBarrierTouched o path) eqn:Hb; [ | reflexivity ].
    rewrite (isBarrierTouched_app o path more Hb) in Hfalse. discriminate.
Qed.

(** X5 on the path 90, 95, 100 extended by 105, 110, and on the prefix 90
    of the untouched path 90, 95. *)
Lemma X5_witness :
  BarrierOption.isBarrierTouched example_barrier ([90; 95; 100] ++ [105; 110]) = true
  /\ BarrierOption.isBarrierTouched example_barrier [90] = false.
Proof.
  split.
  - apply (X5_touched_is_monotone example_barrier [90; 95; 100] [105; 110]).
    apply isBarrierTouched_iff. exists 2%nat. unfold Spec.crossing. cbn.
    split; [ lia | lra ].
  - apply (X5_touched_is_monotone example_barrier [90] [95]).
    destruct (BarrierOption.isBarrierTouched example_barrier ([90] ++ [95])) eqn:Hb;
      [ | reflexivity ].
    apply isBarrierTouched_iff in Hb. destruct Hb as (i & Hi & Hc).
    cbn in Hi, Hc. assert (i = 1%nat) by lia. subst i. cbn in Hc. lra.
Defined.

(** X6.  A path that stays on one side of the barrier is never touched:
    for an Up-type barrier a path whose prices are all at or above the
    barrier (a spot that starts beyond the barrier and stays there), or all
    below it; for a Down-type barrier a path whose prices are all at or
    below the barrier, or all above it. *)
Theorem X6_one_sided_path_is_untouched (o : BarrierOption.t) (path : list R) :
  match BarrierOption.barrierType o with
  | UpAndOut | UpAndIn =>
      (forall y, In y path -> BarrierOption.barrier o <= y)
      \/ (forall y, In y path -> y < BarrierOption.barrier o)
  | DownAndOut | DownAndIn =>
      (forall y, In y path -> y <= BarrierOption.barrier o)
      \/ (forall y, In y path -> BarrierOption.barrier o < y)
  end ->
  BarrierOption.isBarrierTouched o path = false.
Proof.
  intros Hside.
  destruct (BarrierOption.isBarrierTouched o path) eqn:Hb; [ | reflexivity ].
  apply isBarrierTouched_iff in Hb. destruct Hb as (i & Hi & Hcross).
  assert (Hprev : In (nth (i - 1) path 0) path) by (apply nth_In; lia).
  assert (Hcur : In (nth i path 0) path) by (apply nth_In; lia).
  destruct (BarrierOption.barrierType o); cbn [Spec.is_up] in Hcross;
    destruct Hcross as [H1 H2];
    destruct Hside as [Hs | Hs];
    pose proof (Hs _ Hprev); pose proof (Hs _ Hcur); lra.
Qed.

(** X6 on a path that starts above the up-and-out barrier 100. *)
Lemma X6_witness :
  BarrierOption.isBarrierTouched example_barrier [105; 110; 120] = false.
Proof.
  apply X6_one_sided_path_is_untouched. cbn. left.
  intros y [<- | [<- | [<- | []]]]; lra.
Defined.

(** X7.  Once the recorded trajectory has touched the barrier, a
    rebalancing step of [BarrierOption::hedgeCost] reprices nothing: it
    draws one value of [rand()], appends the new spot to the path, keeps
    the barrier state touched, sets the delta to 0 and sells the whole
    position into the cash account; no engine is seeded and no pricer or
    payoff is entered. *)
Theorem X7_touched_hedge_reprices_nothing (o : BarrierOption.t)
    (model : BlackScholesModel) (steps numPaths : Z) (epsilon dt : R) (i : Z)
    (st : BarrierOption.Hedge) (w : World) :
  BarrierOption.isBarrierTouched o (BarrierOption.h_path st) = true ->
  exists st',
    BarrierOption.hedge_step o model steps numPaths epsilon dt i st w
    = Returned (st', {| entropy := entropy w; rand_calls := S (rand_calls w);
                        engines_seeded := engines_seeded w; trace := trace w |})
    /\ BarrierOption.barrierTouched st' = true
    /\ BarrierOption.h_path st' = BarrierOption.h_path st ++ [BarrierOption.h_spot st']
    /\ BarrierOption.delta st' = 0
    /\ BarrierOption.cash st'
       = (BarrierOption.cash st - BarrierOption.delta st * BarrierOption.h_spot st')
         * exp (rate model * dt)
    /\ BarrierOption.modelUp st' = BarrierOption.modelUp st
    /\ BarrierOption.modelDown st' = BarrierOption.modelDown st.
Proof.
  intros Htouched.
  unfold BarrierOption.hedge_step. cbv zeta.
  unfold bind at 1. unfold rand_over_RAND_MAX. cbv beta iota.
  set (s' := BarrierOption.h_spot st * exp _).
  rewrite (isBarrierTouched_app o _ [s'] Htouched).
  unfold bind at 1. unfold ret at 1. cbv beta iota.
  eexists. split; [ reflexivity | ].
  cbn [BarrierOption.barrierTouched BarrierOption.h_path BarrierOption.h_spot
       BarrierOption.delta BarrierOption.cash BarrierOption.modelUp
       BarrierOption.modelDown].
  repeat split. ring.
Qed.

(** X7 on a state whose path 90, 100 has touched the up-and-out barrier. *)
Lemma X7_witness :
  exists st',
    BarrierOption.hedge_step example_barrier example_model 2 10000 1 (1 / 2) 1
      (BarrierOption.mkHedge example_model example_model 0 0 0 (1 / 2) 100 50
         [90; 100] true)
      example_world
    = Returned (st', {| entropy := entropy example_world;
                        rand_calls := S (rand_calls example_world);
                        engines_seeded := engines_seeded example_world;
                        trace := trace example_world |})
    /\ BarrierOption.barrierTouched st' = true
    /\ BarrierOption.delta st' = 0.
Proof.
  destruct (X7_touched_hedge_reprices_nothing example_barrier example_model 2 10000 1
              (1 / 2) 1
              (BarrierOption.mkHedge example_model example_model 0 0 0 (1 / 2) 100 50
                 [90; 100] true)
              example_world) as (st' & Hrun & Ht & _ & Hd & _).
  - apply isBarrierTouched_iff. exists 1%nat. unfold Spec.crossing. cbn.
    split; [ lia | lra ].
  - exists st'. repeat split; assumption.
Defined.

(** *** The Monte Carlo prices *)

Lemma sum_n_plus (f g : nat -> R) (n : nat) :
  Spec.sum_n (fun i => f i + g i) n = Spec.sum_n f n + Spec.sum_n g n.
Proof.
  induction n as [|n IH]; simpl; [ ring | ]. rewrite IH. ring.
Qed.

Lemma sum_n_ext (f g : nat -> R) (n : nat) :
  (forall i, (i < n)%nat -> f i = g i) -> Spec.sum_n f n = Spec.sum_n g n.
Proof.
  induction n as [|n IH]; intros Hfg; simpl; [ reflexivity | ].
  rewrite IH by (intros i Hi; apply Hfg; lia). rewrite Hfg by lia. reflexivity.
Qed.

Lemma sum_n_le (f g : nat -> R) (n : nat) :
  (forall i, (i < n)%nat -> f i <= g i) -> Spec.sum_n f n <= Spec.sum_n g n.
Proof.
  induction n as [|n IH]; intros Hfg; simpl; [ lra | ].
  assert (Spec.sum_n f n <= Spec.sum_n g n) by (apply IH; intros i Hi; apply Hfg; lia).
  assert (f n <= g n) by (apply Hfg; lia). lra.
Qed.

Lemma sum_n_nonneg (f : nat -> R) (n : nat) :
  (forall i, (i < n)%nat -> 0 <= f i) -> 0 <= Spec.sum_n f n.
Proof.
  induction n as [|n IH]; intros Hf; simpl; [ lra | ].
  assert (0 <= Spec.sum_n f n) by (apply IH; intros i Hi; apply Hf; lia).
  assert (0 <= f n) by (apply Hf; lia). lra.
Qed.

Lemma mc_price_plus (model : BlackScholesModel) (numPaths : Z) (T : R) (f g : nat -> R) :
  Spec.mc_price model numPaths T f + Spec.mc_price model numPaths T g
  = Spec.mc_price model numPaths T (fun i => f i + g i).
Proof.
  unfold Spec.mc_price. rewrite sum_n_plus. unfold Rdiv. ring.
Qed.

Lemma mc_price_le (model : BlackScholesModel) (numPaths : Z) (T : R) (f g : nat -> R) :
  (1 <= numPaths)%Z ->
  (forall i, f i <= g i) ->
  Spec.mc_price model numPaths T f <= Spec.mc_price model numPaths T g.
Proof.
  intros Hn Hfg. unfold Spec.mc_price.
  apply Rmult_le_compat_l; [ apply Rlt_le, exp_pos | ].
  assert (Hpos : 0 < IZR numPaths) by (apply IZR_lt; lia).
  apply Rmult_le_compat_r; [ apply Rlt_le, Rinv_0_lt_compat, Hpos | ].
  apply sum_n_le. intros i _. apply Hfg.
Qed.

Lemma mc_price_nonneg (model : BlackScholesModel) (numPaths : Z) (T : R) (f : nat -> R) :
  (1 <= numPaths)%Z -> (forall i, 0 <= f i) -> 0 <= Spec.mc_price model numPaths T f.
Proof.
  intros Hn Hf. unfold Spec.mc_price.
  apply Rmult_le_pos; [ apply Rlt_le, exp_pos | ].
  assert (Hpos : 0 < IZR numPaths) by (apply IZR_lt; lia).
  apply Rmult_le_pos; [ | apply Rlt_le, Rinv_0_lt_compat, Hpos ].
  apply sum_n_nonneg. intros i _. apply Hf.
Qed.

Lemma vanilla_payoff_nonneg (ty : OptionType) (K s : R) : 0 <= Spec.vanilla_payoff ty K s.
Proof. destruct ty; apply Rmax_r. Qed.

Lemma barrier_payoff_bounds (bt : BarrierType) (ty : OptionType) (K : R) (b : bool) (s : R) :
  0 <= Spec.barrier_payoff bt ty K b s <= Spec.vanilla_payoff ty K s.
Proof.
  pose proof (vanilla_payoff_nonneg ty K s).
  unfold Spec.barrier_payoff. destruct (Spec.is_knock_out bt), b; lra.
Qed.

Lemma lookback_payoff_nonneg (ty : OptionType) (K x : R) (rest : list R) :
  0 <= Spec.lookback_payoff ty K x rest.
Proof. destruct ty; apply Rmax_r. Qed.

Lemma terminal_in_simulated (model : BlackScholesModel) (steps : Z) (T : R)
    (Zs : nat -> R) :
  (1 <= steps)%Z ->
  In (Spec.S_ model (T / IZR steps) Zs (Z.to_nat steps)) (Spec.simulated model steps T Zs).
Proof.
  intros Hsteps. unfold Spec.simulated. apply in_map, in_seq. lia.
Qed.

Lemma simulated_not_empty (model : BlackScholesModel) (steps : Z) (T : R) (Zs : nat -> R) :
  (1 <= steps)%Z -> Spec.simulated model steps T Zs <> [].
Proof.
  intros Hsteps Hnil.
  pose proof (terminal_in_simulated model steps T Zs Hsteps) as Hin.
  rewrite Hnil in Hin. exact Hin.
Qed.

Lemma vanilla_le_lookback (ty : OptionType) (K x s : R) (rest : list R) :
  In s (x :: rest) -> Spec.vanilla_payoff ty K s <= Spec.lookback_payoff ty K x rest.
Proof.
  intros Hin. unfold Spec.vanilla_payoff, Spec.lookback_payoff.
  destruct ty; apply Rmax_0_le.
  - pose proof (path_max_upper x rest s Hin). lra.
  - pose proof (path_min_lower x rest s Hin). lra.
Qed.

Lemma asian_le_lookback_seeded (ty : OptionType) (K x : R) (path : list R) :
  path <> [] -> Spec.asian_payoff ty K path <= Spec.lookback_payoff ty K x path.
Proof.
  intros Hne. unfold Spec.asian_payoff, Spec.lookback_payoff.
  destruct ty; apply Rmax_0_le.
  - assert (Spec.mean path <= Spec.path_max x path).
    { apply mean_le_bound; [ exact Hne | ].
      intros y Hy. apply path_max_upper. right. exact Hy. }
    lra.
  - assert (Spec.path_min x path <= Spec.mean path).
    { apply mean_ge_bound; [ exact Hne | ].
      intros y Hy. apply path_min_lower. right. exact Hy. }
    lra.
Qed.

Lemma isBarrierTouched_up_pair (o : BarrierOption.t) (path : list R) :
  BarrierOption.isBarrierTouched (with_barrierType o UpAndIn) path
  = BarrierOption.isBarrierTouched (with_barrierType o UpAndOut) path.
Proof. reflexivity. Qed.

Lemma isBarrierTouched_down_pair (o : BarrierOption.t) (path : list R) :
  BarrierOption.isBarrierTouched (with_barrierType o DownAndIn) path
  = BarrierOption.isBarrierTouched (with_barrierType o DownAndOut) path.
Proof. reflexivity. Qed.

(** X8.  In/out parity of the Barrier pricer, over the reals (the
    arithmetic of [double] taken as exact; the sums of binary64 are
    rounded): priced from the same world (the same engine draws), with
    [numPaths >= 1], [steps >= 1] and a horizon [T >= 0], the knock-out and
    the matching knock-in option of the same strike, barrier and option
    type have prices whose sum is the discounted mean of the terminal
    vanilla payoffs of the paths, for Up and for Down barriers. *)
Theorem X8_barrier_in_out_parity (o : BarrierOption.t) (model : BlackScholesModel)
    (numPaths steps : Z) (T : R) (w : World) :
  (1 <= numPaths)%Z -> (1 <= steps)%Z -> 0 <= T ->
  let vanilla :=
    Spec.mc_price model numPaths T
      (fun i => Spec.vanilla_payoff (BarrierOption.optionType o) (BarrierOption.strike o)
                  (Spec.S_ model (T / IZR steps) (path_draws w steps i) (Z.to_nat steps))) in
  exists upOut upIn downOut downIn w',
    BarrierOption.price_adjusted (with_barrierType o UpAndOut) model numPaths steps T w
    = Returned (upOut, w')
    /\ BarrierOption.price_adjusted (with_barrierType o UpAndIn) model numPaths steps T w
       = Returned (upIn, w')
    /\ BarrierOption.price_adjusted (with_barrierType o DownAndOut) model numPaths steps T w
       = Returned (downOut, w')
    /\ BarrierOption.price_adjusted (with_barrierType o DownAndIn) model numPaths steps T w
       = Returned (downIn, w')
    /\ upOut + upIn = vanilla
    /\ downOut + downIn = vanilla.
Proof.
  intros _ Hsteps _ vanilla.
  rewrite !Barrier_price_adjusted_run by assumption.
  do 5 eexists.
  split; [ reflexivity | ]. split; [ reflexivity | ].
  split; [ reflexivity | ]. split; [ reflexivity | ].
  rewrite !mc_price_plus. unfold vanilla, Spec.mc_price.
  split; f_equal; f_equal; apply sum_n_ext; intros i _;
    unfold Barrier_path_payoff;
    [ rewrite isBarrierTouched_up_pair | rewrite isBarrierTouched_down_pair ];
    cbn [with_barrierType BarrierOption.barrierType BarrierOption.optionType
         BarrierOption.strike];
    unfold Spec.barrier_payoff; cbn [Spec.is_knock_out];
    match goal with
    | |- context [ if ?b then _ else _ ] => destruct b
    end; ring.
Qed.

(** X8 at three paths of two steps on the example market. *)
Lemma X8_witness :
  exists upOut upIn downOut downIn w',
    BarrierOption.price_adjusted (with_barrierType example_barrier UpAndOut)
      example_model 3 2 1 example_world = Returned (upOut, w')
    /\ BarrierOption.price_adjusted (with_barrierType example_barrier UpAndIn)
         example_model 3 2 1 example_world = Returned (upIn, w')
    /\ BarrierOption.price_adjusted (with_barrierType example_barrier DownAndOut)
         example_model 3 2 1 example_world = Returned (downOut, w')
    /\ BarrierOption.price_adjusted (with_barrierType example_barrier DownAndIn)
         example_model 3 2 1 example_world = Returned (downIn, w')
    /\ upOut + upIn
       = Spec.mc_price example_model 3 1
           (fun i => Spec.vanilla_payoff Call 100
                       (Spec.S_ example_model (1 / IZR 2) (path_draws example_world 2 i)
                          (Z.to_nat 2)))
    /\ downOut + downIn
       = Spec.mc_price example_model 3 1
           (fun i => Spec.vanilla_payoff Call 100
                       (Spec.S_ example_model (1 / IZR 2) (path_draws example_world 2 i)
                          (Z.to_nat 2))).
Proof.
  apply (X8_barrier_in_out_parity example_barrier example_model 3 2 1 example_world).
  - lia.
  - lia.
  - lra.
Defined.

(** X9.  Over the reals (the arithmetic of [double] taken as exact; in
    binary64 the rounded mean of a path can exceed its greatest price):
    priced from the same world with [numPaths >= 1], [steps >= 1] and a
    horizon [T >= 0], for one strike and option type, the Asian and the
    Barrier price are both at least 0 and at most the Lookback price,
    whatever the barrier and its type. *)
Theorem X9_lookback_price_dominates (K Tm B : R) (bt : BarrierType) (ty : OptionType)
    (model : BlackScholesModel) (numPaths steps : Z) (T : R) (w : World) :
  (1 <= numPaths)%Z -> (1 <= steps)%Z -> 0 <= T ->
  exists a l b wa wl wb,
    AsianOption.price_adjusted (AsianOption.mk K Tm ty) model numPaths steps T w
    = Returned (a, wa)
    /\ LookbackOption.price_adjusted (LookbackOption.mk K Tm ty) model numPaths steps T w
       = Returned (l, wl)
    /\ BarrierOption.price_adjusted (BarrierOption.mk K Tm B bt ty) model numPaths steps T w
       = Returned (b, wb)
    /\ 0 <= a <= l
    /\ 0 <= b <= l.
Proof.
  intros Hn Hsteps _.
  rewrite Asian_price_adjusted_run by lia.
  rewrite Lookback_price_adjusted_run by lia.
  rewrite Barrier_price_adjusted_run by lia.
  do 6 eexists.
  split; [ reflexivity | ]. split; [ reflexivity | ]. split; [ reflexivity | ].
  split; split.
  - apply mc_price_nonneg; [ exact Hn | ]. intros i.
    unfold Asian_path_payoff, Spec.asian_payoff. destruct ty; apply Rmax_r.
  - apply mc_price_le; [ exact Hn | ]. intros i.
    unfold Asian_path_payoff, Lookback_path_payoff.
    apply asian_le_lookback_seeded, simulated_not_empty, Hsteps.
  - apply mc_price_nonneg; [ exact Hn | ]. intros i.
    unfold Barrier_path_payoff. apply barrier_payoff_bounds.
  - apply mc_price_le; [ exact Hn | ]. intros i.
    unfold Barrier_path_payoff, Lookback_path_payoff.
    cbn [BarrierOption.barrierType BarrierOption.optionType BarrierOption.strike
         LookbackOption.optionType LookbackOption.strike].
    eapply Rle_trans; [ apply barrier_payoff_bounds | ].
    apply vanilla_le_lookback. right. apply terminal_in_simulated, Hsteps.
Qed.

(** X9 at three paths of two steps on the example market. *)
Lemma X9_witness :
  exists a l b wa wl wb,
    AsianOption.price_adjusted (AsianOption.mk 100 1 Call) example_model 3 2 1
      example_world = Returned (a, wa)
    /\ LookbackOption.price_adjusted (LookbackOption.mk 100 1 Call) example_model 3 2 1
         example_world = Returned (l, wl)
    /\ BarrierOption.price_adjusted (BarrierOption.mk 100 1 120 UpAndOut Call)
         example_model 3 2 1 example_world = Returned (b, wb)
    /\ 0 <= a <= l
    /\ 0 <= b <= l.
Proof.
  apply (X9_lookback_price_dominates 100 1 120 UpAndOut Call example_model 3 2 1
           example_world).
  - lia.
  - lia.
  - lra.
Defined.

(** *** The simulated prices *)

Lemma S_pos (model : BlackScholesModel) (dt : R) (Zs : nat -> R) (j : nat) :
  0 < spot model -> 0 < Spec.S_ model dt Zs j.
Proof.
  intros Hspot. induction j as [|j IH]; simpl.
  - exact Hspot.
  - unfold Spec.gbm_next. apply Rmult_lt_0_compat; [ exact IH | apply exp_pos ].
Qed.

Lemma hedge_spot_pos (model : BlackScholesModel) (dt : R) (U : nat -> R) (j : nat) :
  0 < spot model -> 0 < Spec.hedge_spot model dt U j.
Proof.
  intros Hspot. induction j as [|j IH]; simpl.
  - exact Hspot.
  - apply Rmult_lt_0_compat; [ exact IH | apply exp_pos ].
Qed.

Lemma simulated_pos (model : BlackScholesModel) (steps : Z) (T : R) (Zs : nat -> R)
    (y : R) :
  0 < spot model -> In y (Spec.simulated model steps T Zs) -> 0 < y.
Proof.
  intros Hspot Hin. unfold Spec.simulated in Hin.
  apply in_map_iff in Hin. destruct Hin as (j & <- & _). apply S_pos, Hspot.
Qed.

Lemma payoff_paths_of_price {A : Type} (m : BlackScholesModel) (n s : Z) (T : R)
    (f : A -> list R) (l : list A) :
  payoff_paths (PriceEntered m n s T :: map (fun i => PathPayoffEntered (f i)) l)
  = map f l.
Proof.
  change (PriceEntered m n s T :: map (fun i => PathPayoffEntered (f i)) l)
    with ([PriceEntered m n s T] ++ map (fun i => PathPayoffEntered (f i)) l).
  rewrite payoff_paths_app, payoff_paths_of_paths. reflexivity.
Qed.

(** X10.  Over the reals (the arithmetic of [double] taken as exact, so
    that no exponential underflows to 0): from a positive spot, with
    [steps >= 1], a horizon [T >= 0] and a maturity [>= 0], every simulated
    price is positive: every price of every path the Asian and the Lookback
    pricer evaluate a payoff on, and every price of the real-world
    trajectory an Asian hedging run records. *)
Theorem X10_simulated_prices_are_positive (oA : AsianOption.t) (oL : LookbackOption.t)
    (model : BlackScholesModel) (numPaths steps : Z) (T : R) (w : World) :
  0 < spot model -> (1 <= steps)%Z -> 0 <= T -> 0 <= AsianOption.maturity oA ->
  (exists v evs,
      AsianOption.price_adjusted oA model numPaths steps T w = Returned (v, after_price w evs)
      /\ forall path y, In path (payoff_paths evs) -> In y path -> 0 < y)
  /\ (exists v evs,
        LookbackOption.price_adjusted oL model numPaths steps T w
        = Returned (v, after_price w evs)
        /\ forall path y, In path (payoff_paths evs) -> In y path -> 0 < y)
  /\ (exists st w',
        AsianOption.hedge_run oA model steps w = Returned (st, w')
        /\ forall y, In y (AsianOption.h_path st) -> 0 < y).
Proof.
  intros Hspot Hsteps1 _ _. assert (Hsteps : (0 <= steps)%Z) by lia.
  split; [ | split ].
  - rewrite Asian_price_adjusted_run by assumption.
    do 2 eexists. split; [ reflexivity | ].
    rewrite payoff_paths_of_price. intros path y Hpath Hy.
    apply in_map_iff in Hpath. destruct Hpath as (i & <- & _).
    eapply simulated_pos; eassumption.
  - rewrite Lookback_price_adjusted_run by lia.
    do 2 eexists. split; [ reflexivity | ].
    rewrite payoff_paths_of_price. intros path y Hpath Hy.
    apply in_map_iff in Hpath. destruct Hpath as (i & <- & _).
    rewrite simulated_with_seed_cons in Hy. destruct Hy as [<- | Hy].
    + exact Hspot.
    + eapply simulated_pos; eassumption.
  - destruct (Asian_hedge_run oA model steps w Hsteps) as (st & w' & Hrun & Hinv).
    destruct Hinv as (_ & Hpath & _).
    exists st, w'. split; [ exact Hrun | ].
    intros y Hy. rewrite Hpath in Hy. unfold trajectory in Hy.
    apply in_map_iff in Hy. destruct Hy as (j & <- & _). apply hedge_spot_pos, Hspot.
Qed.

(** X10 at three paths of two steps on the example market. *)
Lemma X10_witness :
  exists v evs,
    AsianOption.price_adjusted example_asian example_model 3 2 1 example_world
    = Returned (v, after_price example_world evs)
    /\ forall path y, In path (payoff_paths evs) -> In y path -> 0 < y.
Proof.
  destruct (X10_simulated_prices_are_positive example_asian example_lookback
              example_model 3 2 1 example_world) as (HA & _).
  - simpl. lra.
  - lia.
  - lra.
  - simpl. lra.
  - exact HA.
Defined.

(** *** Scaling the unit of account *)

Lemma Rmax_scale (c a b : R) : 0 <= c -> Rmax (c * a) (c * b) = c * Rmax a b.
Proof.
  intros Hc. unfold Rmax.
  destruct (Rle_dec (c * a) (c * b)), (Rle_dec a b); try reflexivity; nra.
Qed.

Lemma Rmin_scale (c a b : R) : 0 <= c -> Rmin (c * a) (c * b) = c * Rmin a b.
Proof.
  intros Hc. unfold Rmin.
  destruct (Rle_dec (c * a) (c * b)), (Rle_dec a b); try reflexivity; nra.
Qed.

Lemma Rmax_0_scale (c a : R) : 0 <= c -> Rmax (c * a) 0 = c * Rmax a 0.
Proof.
  intros Hc. rewrite <- (Rmult_0_r c) at 1. apply Rmax_scale, Hc.
Qed.

Lemma S_scale (model : BlackScholesModel) (c dt : R) (Zs : nat -> R) (j : nat) :
  Spec.S_ (set_spot model (c * spot model)) dt Zs j = c * Spec.S_ model dt Zs j.
Proof.
  induction j as [|j IH]; simpl.
  - reflexivity.
  - rewrite IH. unfold Spec.gbm_next. cbn [set_spot rate dividend volatility]. ring.
Qed.

Lemma simulated_scale (model : BlackScholesModel) (c : R) (steps : Z) (T : R)
    (Zs : nat -> R) :
  Spec.simulated (set_spot model (c * spot model)) steps T Zs
  = map (Rmult c) (Spec.simulated model steps T Zs).
Proof.
  unfold Spec.simulated. rewrite map_map. apply map_ext. intros j. apply S_scale.
Qed.

Lemma sum_scale (c : R) (l : list R) :
  fold_right Rplus 0 (map (Rmult c) l) = c * fold_right Rplus 0 l.
Proof.
  induction l as [|a l IH]; simpl; [ ring | ]. rewrite IH. ring.
Qed.

Lemma mean_scale (c : R) (l : list R) : Spec.mean (map (Rmult c) l) = c * Spec.mean l.
Proof.
  unfold Spec.mean. rewrite sum_scale, length_map. unfold Rdiv. ring.
Qed.

Lemma path_max_scale (c x : R) (rest : list R) :
  0 <= c -> Spec.path_max (c * x) (map (Rmult c) rest) = c * Spec.path_max x rest.
Proof.
  intros Hc. unfold Spec.path_max. induction rest as [|a rest IH]; simpl.
  - reflexivity.
  - rewrite IH. apply Rmax_scale, Hc.
Qed.

Lemma path_min_scale (c x : R) (rest : list R) :
  0 <= c -> Spec.path_min (c * x) (map (Rmult c) rest) = c * Spec.path_min x rest.
Proof.
  intros Hc. unfold Spec.path_min. induction rest as [|a rest IH]; simpl.
  - reflexivity.
  - rewrite IH. apply Rmin_scale, Hc.
Qed.

Lemma vanilla_payoff_scale (ty : OptionType) (c K s : R) :
  0 <= c -> Spec.vanilla_payoff ty (c * K) (c * s) = c * Spec.vanilla_payoff ty K s.
Proof.
  intros Hc. unfold Spec.vanilla_payoff.
  destruct ty; rewrite <- Rmax_0_scale by exact Hc; f_equal; ring.
Qed.

Lemma asian_payoff_scale (ty : OptionType) (c K : R) (l : list R) :
  0 <= c ->
  Spec.asian_payoff ty (c * K) (map (Rmult c) l) = c * Spec.asian_payoff ty K l.
Proof.
  intros Hc. unfold Spec.asian_payoff. rewrite mean_scale.
  destruct ty; rewrite <- Rmax_0_scale by exact Hc; f_equal; ring.
Qed.

Lemma lookback_payoff_scale (ty : OptionType) (c K x : R) (rest : list R) :
  0 <= c ->
  Spec.lookback_payoff ty (c * K) (c * x) (map (Rmult c) rest)
  = c * Spec.lookback_payoff ty K x rest.
Proof.
  intros Hc. unfold Spec.lookback_payoff.
  rewrite path_max_scale, path_min_scale by exact Hc.
  destruct ty; rewrite <- Rmax_0_scale by exact Hc; f_equal; ring.
Qed.

Lemma bool_eq_of_iff (b1 b2 : bool) : (b1 = true <-> b2 = true) -> b1 = b2.
Proof.
  intros [H12 H21]. destruct b1, b2; try reflexivity.
  - symmetry. apply H12. reflexivity.
  - apply H21. reflexivity.
Qed.

Lemma nth_scale (c : R) (l : list R) (i : nat) :
  nth i (map (Rmult c) l) 0 = c * nth i l 0.
Proof.
  rewrite <- (Rmult_0_r c) at 1. apply (map_nth (Rmult c)).
Qed.

Lemma isBarrierTouched_scale (c K T B : R) (bt : BarrierType) (ty : OptionType)
    (path : list R) :
  0 < c ->
  BarrierOption.isBarrierTouched (BarrierOption.mk (c * K) T (c * B) bt ty)
    (map (Rmult c) path)
  = BarrierOption.isBarrierTouched (BarrierOption.mk K T B bt ty) path.
Proof.
  intros Hc. apply bool_eq_of_iff. rewrite !isBarrierTouched_iff.
  unfold Spec.touched, Spec.crossing.
  cbn [BarrierOption.barrierType BarrierOption.barrier].
  split; intros (i & Hi & Hcross); exists i; rewrite length_map in *;
    (split; [ exact Hi | ]); rewrite !nth_scale in *;
    destruct (Spec.is_up bt); destruct Hcross as [H1 H2]; split; nra.
Qed.

Lemma barrier_payoff_scale (bt : BarrierType) (ty : OptionType) (c K : R) (b : bool)
    (s : R) :
  0 <= c ->
  Spec.barrier_payoff bt ty (c * K) b (c * s) = c * Spec.barrier_payoff bt ty K b s.
Proof.
  intros Hc. unfold Spec.barrier_payoff.
  destruct (Spec.is_knock_out bt), b; rewrite ?vanilla_payoff_scale by exact Hc; ring.
Qed.

Lemma sum_n_scale (c : R) (f : nat -> R) (n : nat) :
  Spec.sum_n (fun i => c * f i) n = c * Spec.sum_n f n.
Proof.
  induction n as [|n IH]; simpl; [ ring | ]. rewrite IH. ring.
Qed.

Lemma mc_price_scale (model : BlackScholesModel) (c : R) (numPaths : Z) (T : R)
    (f g : nat -> R) :
  (forall i, g i = c * f i) ->
  Spec.mc_price (set_spot model (c * spot model)) numPaths T g
  = c * Spec.mc_price model numPaths T f.
Proof.
  intros Hg. unfold Spec.mc_price. cbn [set_spot rate].
  rewrite (sum_n_ext g (fun i => c * f i)) by (intros i _; apply Hg).
  rewrite sum_n_scale. unfold Rdiv. ring.
Qed.

(** X11.  Over the reals (the arithmetic of [double] taken as exact; in
    binary64 the two sides differ by rounding errors) the Monte Carlo
    prices are homogeneous of degree 1: priced from the same world with
    [numPaths >= 1], [steps >= 1] and a horizon [T >= 0], multiplying the
    spot of the model, the strike (and the barrier level) by one factor
    [c > 0] multiplies the Asian, the Lookback and the Barrier price by
    [c]. *)
Theorem X11_prices_scale_with_the_unit (c K Tm B : R) (bt : BarrierType)
    (ty : OptionType) (model : BlackScholesModel) (numPaths steps : Z) (T : R)
    (w : World) :
  0 < c -> (1 <= numPaths)%Z -> (1 <= steps)%Z -> 0 <= T ->
  let scaled := set_spot model (c * spot model) in
  exists a a' l l' b b' wa wa' wl wl' wb wb',
    AsianOption.price_adjusted (AsianOption.mk K Tm ty) model numPaths steps T w
    = Returned (a, wa)
    /\ AsianOption.price_adjusted (AsianOption.mk (c * K) Tm ty) scaled numPaths steps T w
       = Returned (a', wa')
    /\ LookbackOption.price_adjusted (LookbackOption.mk K Tm ty) model numPaths steps T w
       = Returned (l, wl)
    /\ LookbackOption.price_adjusted (LookbackOption.mk (c * K) Tm ty) scaled numPaths
         steps T w
       = Returned (l', wl')
    /\ BarrierOption.price_adjusted (BarrierOption.mk K Tm B bt ty) model numPaths steps T w
       = Returned (b, wb)
    /\ BarrierOption.price_adjusted (BarrierOption.mk (c * K) Tm (c * B) bt ty) scaled
         numPaths steps T w
       = Returned (b', wb')
    /\ a' = c * a /\ l' = c * l /\ b' = c * b.
Proof.
  intros Hc _ Hsteps _ scaled. assert (Hc0 : 0 <= c) by lra.
  rewrite !Asian_price_adjusted_run by lia.
  rewrite !Lookback_price_adjusted_run by lia.
  rewrite !Barrier_price_adjusted_run by lia.
  do 12 eexists.
  do 6 (split; [ reflexivity | ]).
  split; [ | split ]; apply mc_price_scale; intros i.
  - unfold Asian_path_payoff, scaled.
    cbn [AsianOption.optionType AsianOption.strike].
    rewrite simulated_scale. apply asian_payoff_scale, Hc0.
  - unfold Lookback_path_payoff, scaled.
    cbn [LookbackOption.optionType LookbackOption.strike set_spot spot].
    rewrite simulated_scale. apply lookback_payoff_scale, Hc0.
  - unfold Barrier_path_payoff, scaled.
    rewrite simulated_scale, isBarrierTouched_scale, S_scale by exact Hc.
    cbn [BarrierOption.optionType BarrierOption.strike BarrierOption.barrierType].
    apply barrier_payoff_scale, Hc0.
Qed.

(** X11 with the factor 2 at three paths of two steps on the example market. *)
Lemma X11_witness :
  exists a a' wa wa',
    AsianOption.price_adjusted (AsianOption.mk 100 1 Call) example_model 3 2 1
      example_world = Returned (a, wa)
    /\ AsianOption.price_adjusted (AsianOption.mk (2 * 100) 1 Call)
         (set_spot example_model (2 * spot example_model)) 3 2 1 example_world
       = Returned (a', wa')
    /\ a' = 2 * a.
Proof.
  destruct (X11_prices_scale_with_the_unit 2 100 1 120 UpAndOut Call example_model
              3 2 1 example_world)
    as (a & a' & l & l' & b & b' & wa & wa' & wl & wl' & wb & wb'
        & H1 & H2 & _ & _ & _ & _ & Ha & _).
  - lra.
  - lia.
  - lia.
  - lra.
  - exists a, a', wa, wa'. repeat split; assumption.
Defined.

(** *** The vanilla hedging runs *)






(** *** The cost of a hedging run *)

Lemma bumped_calls_nested (model : BlackScholesModel) (s epsilon : R) (n steps : Z) (T : R)
    (c : PriceCall) :
  (1 <= n <= steps)%Z ->
  In c (bumped_calls model s epsilon 10000 n T) -> nested_call steps c.
Proof.
  intros Hn [<- | [<- | []]]; split; cbn; lia.
Qed.

Lemma full_maturity_calls_length (model : BlackScholesModel) (maturity : R) (steps : Z)
    (U : nat -> R) (k : nat) :
  length (full_maturity_calls model maturity steps U k) = (2 + 2 * k)%nat.
Proof.
  unfold full_maturity_calls. cbv zeta. rewrite length_app. cbn [bumped_calls length].
  match goal with
  | |- (2 + length (flat_map ?f (seq _ k)) = _)%nat =>
      assert (H : forall a, length (flat_map f (seq a k)) = (2 * k)%nat)
  end.
  { induction k as [|k IH]; intros a; simpl; [ reflexivity | ].
    rewrite IH. lia. }
  rewrite H. lia.
Qed.

Lemma full_maturity_calls_nested (model : BlackScholesModel) (maturity : R) (steps : Z)
    (U : nat -> R) (c : PriceCall) :
  (1 <= steps)%Z ->
  In c (full_maturity_calls model maturity steps U (Z.to_nat (steps - 1))) ->
  nested_call steps c.
Proof.
  intros Hsteps Hin. unfold full_maturity_calls in Hin. cbv zeta in Hin.
  apply in_app_or in Hin. destruct Hin as [Hin | Hin].
  - eapply bumped_calls_nested; [ | exact Hin ]. lia.
  - apply in_flat_map in Hin. destruct Hin as (j & Hj & Hin).
    apply in_seq in Hj.
    eapply bumped_calls_nested; [ | exact Hin ]. lia.
Qed.

Lemma remaining_maturity_calls_length (o : BarrierOption.t) (model : BlackScholesModel)
    (steps : Z) (U : nat -> R) (k : nat) :
  (2 <= length (remaining_maturity_calls o model steps U k) <= 2 + 2 * k)%nat.
Proof.
  unfold remaining_maturity_calls. cbv zeta. rewrite length_app.
  cbn [bumped_calls length].
  match goal with
  | |- (2 <= 2 + length (flat_map ?f (seq _ k)) <= _)%nat =>
      assert (H : forall a, (length (flat_map f (seq a k)) <= 2 * k)%nat)
  end.
  { induction k as [|k IH]; intros a; simpl; [ lia | ].
    rewrite length_app. specialize (IH (S a)).
    destruct (BarrierOption.isBarrierTouched o _); simpl; lia. }
  specialize (H 1%nat). lia.
Qed.

Lemma remaining_maturity_calls_nested (o : BarrierOption.t) (model : BlackScholesModel)
    (steps : Z) (U : nat -> R) (c : PriceCall) :
  (1 <= steps)%Z ->
  In c (remaining_maturity_calls o model steps U (Z.to_nat (steps - 1))) ->
  nested_call steps c.
Proof.
  intros Hsteps Hin. unfold remaining_maturity_calls in Hin. cbv zeta in Hin.
  apply in_app_or in Hin. destruct Hin as [Hin | Hin].
  - eapply bumped_calls_nested; [ | exact Hin ]. lia.
  - apply in_flat_map in Hin. destruct Hin as (j & Hj & Hin).
    apply in_seq in Hj.
    destruct (BarrierOption.isBarrierTouched o _); [ destruct Hin | ].
    eapply bumped_calls_nested; [ | exact Hin ]. lia.
Qed.

(** X13.  The nested pricing of a hedging run with [steps >= 1]: an Asian
    and a Lookback run enter the Monte Carlo pricer exactly [2 * steps]
    times, a Barrier run at least twice and at most [2 * steps] times; every
    one of these calls simulates 10000 paths of at least 1 and at most
    [steps] steps. *)
Theorem X13_hedge_reprices_twice_per_step (oA : AsianOption.t) (oL : LookbackOption.t)
    (oB : BarrierOption.t) (model : BlackScholesModel) (steps : Z) (w : World) :
  (1 <= steps)%Z ->
  (exists v w' calls,
      AsianOption.hedgeCost oA model steps w = Returned (v, w')
      /\ price_calls (trace w') = price_calls (trace w) ++ calls
      /\ length calls = (2 * Z.to_nat steps)%nat
      /\ forall c, In c calls -> nested_call steps c)
  /\ (exists v w' calls,
        LookbackOption.hedgeCost oL model steps w = Returned (v, w')
        /\ price_calls (trace w') = price_calls (trace w) ++ calls
        /\ length calls = (2 * Z.to_nat steps)%nat
        /\ forall c, In c calls -> nested_call steps c)
  /\ (exists v w' calls,
        BarrierOption.hedgeCost oB model steps w = Returned (v, w')
        /\ price_calls (trace w') = price_calls (trace w) ++ calls
        /\ (2 <= length calls <= 2 * Z.to_nat steps)%nat
        /\ forall c, In c calls -> nested_call steps c).
Proof.
  intros Hsteps. assert (Hsteps0 : (0 <= steps)%Z) by lia.
  split; [ | split ].
  - destruct (Asian_hedgeCost_run oA model steps w Hsteps0)
      as (st & w1 & v & w' & _ & Hcost & Htrace & Hinv).
    destruct Hinv as (_ & _ & _ & _ & _ & _ & Hcalls).
    exists v, w'. eexists. split; [ exact Hcost | ].
    split; [ rewrite Htrace, price_calls_path_payoff; exact Hcalls | ].
    split; [ rewrite full_maturity_calls_length; lia | ].
    intros c. apply full_maturity_calls_nested, Hsteps.
  - destruct (Lookback_hedgeCost_run oL model steps w Hsteps0)
      as (st & w1 & v & w' & _ & Hcost & Htrace & Hinv).
    destruct Hinv as (_ & _ & _ & _ & _ & _ & Hcalls).
    exists v, w'. eexists. split; [ exact Hcost | ].
    split; [ rewrite Htrace, price_calls_path_payoff; exact Hcalls | ].
    split; [ rewrite full_maturity_calls_length; lia | ].
    intros c. apply full_maturity_calls_nested, Hsteps.
  - destruct (Barrier_hedgeCost_run oB model steps w Hsteps)
      as (st & w1 & v & w' & _ & Hcost & Htrace & Hinv).
    destruct Hinv as (_ & _ & _ & _ & _ & _ & _ & Hcalls).
    exists v, w'. eexists. split; [ exact Hcost | ].
    split; [ rewrite Htrace; exact Hcalls | ].
    split.
    + pose proof (remaining_maturity_calls_length oB model steps
                    (hedge_uniforms w) (Z.to_nat (steps - 1))). lia.
    + intros c. apply remaining_maturity_calls_nested, Hsteps.
Qed.

(** X13 at two steps on the example market. *)
Lemma X13_witness :
  exists v w' calls,
    AsianOption.hedgeCost example_asian example_model 2 example_world = Returned (v, w')
    /\ price_calls (trace w') = price_calls (trace example_world) ++ calls
    /\ length calls = (2 * Z.to_nat 2)%nat
    /\ forall c, In c calls -> nested_call 2 c.
Proof.
  destruct (X13_hedge_reprices_twice_per_step example_asian example_lookback
              example_barrier example_model 2 example_world) as (HA & _).
  - lia.
  - exact HA.
Defined.

(** *** The analytic price *)

(** X14.  [normalCDF] is a reflection-symmetric distribution function:
    [normalCDF(x) + normalCDF(-x) = 1] for every [x], and so
    [normalCDF(0) = 1/2]. *)
Theorem X14_normalCDF_reflection (x : R) :
  normalCDF x + normalCDF (- x) = 1 /\ normalCDF 0 = 1 / 2.
Proof.
  assert (Hsym : forall y, normalCDF y + normalCDF (- y) = 1).
  { intros y. unfold normalCDF.
    replace (- - y * M_SQRT1_2) with (y * M_SQRT1_2) by ring.
    replace (- y * M_SQRT1_2) with (- (y * M_SQRT1_2)) by ring.
    pose proof (Erf.erfc_reflect (y * M_SQRT1_2)). lra. }
  split; [ apply Hsym | ].
  pose proof (Hsym 0) as H0. rewrite Ropp_0 in H0. lra.
Qed.

Lemma ratio_scale (c s K : R) : c <> 0 -> c * s / (c * K) = s / K.
Proof.
  intros Hc. unfold Rdiv. rewrite Rinv_mult.
  replace (c * s * (/ c * / K)) with (c * / c * (s * / K)) by ring.
  rewrite Rinv_r by exact Hc. ring.
Qed.

(** X15.  Over the reals (the arithmetic of [double] taken as exact; in
    binary64 the two sides differ by rounding errors) the analytic price is
    homogeneous of degree 1: for a spot, a volatility, a strike and a
    maturity that are all positive, multiplying the spot of the model and
    the strike of the option by one factor [c > 0] multiplies the call
    price and the put price by [c]. *)
Theorem X15_analytic_price_scales_with_the_unit (c : R) (model : BlackScholesModel)
    (option : Option) (isCall : bool) :
  0 < c ->
  spot model > 0 -> volatility model > 0 ->
  strike option > 0 -> maturity option > 0 ->
  priceAnalytic (set_spot model (c * spot model))
    (mkOption (c * strike option) (maturity option)) isCall
  = c * priceAnalytic model option isCall.
Proof.
  intros Hc _ _ _ _. unfold priceAnalytic.
  cbn [set_spot spot rate volatility dividend strike maturity].
  rewrite ratio_scale by lra.
  cbv zeta. destruct isCall; ring.
Qed.

(** X15 with the factor 2 on the example market. *)
Lemma X15_witness :
  priceAnalytic (set_spot example_model (2 * spot example_model))
    (mkOption (2 * strike example_vanilla) (maturity example_vanilla)) true
  = 2 * priceAnalytic example_model example_vanilla true.
Proof.
  apply X15_analytic_price_scales_with_the_unit; simpl; lra.
Defined.

(** *** A hedging run of one step *)

Lemma Asian_hedge_init_cash (o : AsianOption.t) (model : BlackScholesModel) (steps : Z)
    (w : World) :
  (0 <= steps)%Z ->
  exists st w',
    AsianOption.hedge_init o model steps 10000 (0.01 * spot model) w = Returned (st, w')
    /\ AsianOption.cash st = AsianOption.delta st * AsianOption.h_spot st
    /\ AsianOption.h_spot st = spot model
    /\ AsianOption.h_path st = [spot model].
Proof.
  intros Hsteps. unfold AsianOption.hedge_init. cbv zeta.
  destruct (Asian_price_run o (set_spot model (spot model + 0.01 * spot model))
              10000 steps w Hsteps) as (v1 & evs1 & Hp1 & _).
  run_with Hp1.
  destruct (Asian_price_run o (set_spot model (spot model - 0.01 * spot model))
              10000 steps (after_price w evs1) Hsteps) as (v2 & evs2 & Hp2 & _).
  run_with Hp2.
  eexists. eexists. split; [ reflexivity | ]. repeat split.
Qed.

Lemma Lookback_hedge_init_cash (o : LookbackOption.t) (model : BlackScholesModel)
    (steps : Z) (w : World) :
  (0 <= steps)%Z ->
  exists st w',
    LookbackOption.hedge_init o model steps 10000 (0.01 * spot model) w = Returned (st, w')
    /\ LookbackOption.cash st = LookbackOption.delta st * LookbackOption.h_spot st
    /\ LookbackOption.h_spot st = spot model
    /\ LookbackOption.h_path st = [spot model].
Proof.
  intros Hsteps. unfold LookbackOption.hedge_init. cbv zeta.
  destruct (Lookback_price_run o (set_spot model (spot model + 0.01 * spot model))
              10000 steps w Hsteps) as (v1 & evs1 & Hp1 & _).
  run_with Hp1.
  destruct (Lookback_price_run o (set_spot model (spot model - 0.01 * spot model))
              10000 steps (after_price w evs1) Hsteps) as (v2 & evs2 & Hp2 & _).
  run_with Hp2.
  eexists. eexists. split; [ reflexivity | ]. repeat split.
Qed.

Lemma Barrier_hedge_init_cash (o : BarrierOption.t) (model : BlackScholesModel)
    (steps : Z) (w : World) :
  (1 <= steps)%Z ->
  exists st w',
    BarrierOption.hedge_init o model steps 10000 (0.01 * spot model) w = Returned (st, w')
    /\ BarrierOption.cash st = BarrierOption.delta st * BarrierOption.h_spot st
    /\ BarrierOption.h_spot st = spot model
    /\ BarrierOption.barrierTouched st = false.
Proof.
  intros Hsteps. unfold BarrierOption.hedge_init, BarrierOption.price. cbv zeta.
  destruct (Barrier_price_adjusted_call o (set_spot model (spot model + 0.01 * spot model))
              10000 steps (BarrierOption.maturity o) w Hsteps) as (v1 & evs1 & Hp1 & _).
  run_with Hp1.
  destruct (Barrier_price_adjusted_call o (set_spot model (spot model - 0.01 * spot model))
              10000 steps (BarrierOption.maturity o) (after_price w evs1) Hsteps)
    as (v2 & evs2 & Hp2 & _).
  run_with Hp2.
  eexists. eexists. split; [ reflexivity | ].
  cbn [BarrierOption.cash BarrierOption.delta BarrierOption.h_spot
       BarrierOption.barrierTouched].
  repeat split. apply isBarrierTouched_short. simpl. lia.
Qed.

(** X16.  Over the reals (the arithmetic of [double] taken as exact, the
    two Monte Carlo prices being finite numbers): with a single step, a
    maturity [>= 0] and a spot that is not 0 (so that the bump
    [0.01 * spot] the delta is divided by is not 0), the hedging loop of an
    exotic option does not run, and the value [hedgeCost] returns does not
    depend on the two Monte Carlo prices it computed: it is the intrinsic
    value of the option at the initial spot for an Asian, a Lookback and a
    knock-out Barrier option, and 0 for a knock-in Barrier option. *)
Theorem X16_one_step_hedge_is_intrinsic (K Tm B : R) (bt : BarrierType)
    (ty : OptionType) (model : BlackScholesModel) (w : World) :
  spot model <> 0 -> 0 <= Tm ->
  let intrinsic := Spec.vanilla_payoff ty K (spot model) in
  (exists v w',
      AsianOption.hedgeCost (AsianOption.mk K Tm ty) model 1 w = Returned (v, w')
      /\ v = intrinsic)
  /\ (exists v w',
        LookbackOption.hedgeCost (LookbackOption.mk K Tm ty) model 1 w = Returned (v, w')
        /\ v = intrinsic)
  /\ (exists v w',
        BarrierOption.hedgeCost (BarrierOption.mk K Tm B bt ty) model 1 w = Returned (v, w')
        /\ v = match bt with
               | UpAndOut | DownAndOut => intrinsic
               | UpAndIn | DownAndIn => 0
               end).
Proof.
  intros _ _ intrinsic. split; [ | split ].
  - destruct (Asian_hedge_init_cash (AsianOption.mk K Tm ty) model 1 w ltac:(lia))
      as (st & w1 & Hinit & Hcash & Hspot & Hpath).
    unfold AsianOption.hedgeCost, AsianOption.hedge_run. cbv zeta.
    unfold bind at 1. unfold bind at 1. rewrite Hinit.
    unfold for_loopM. change (Z.to_nat (1 - 1)) with O. cbn [iterateM]. unfold ret at 1.
    run_with (Asian_payoff_path_run (AsianOption.mk K Tm ty) _ w1).
    eexists. eexists. split; [ reflexivity | ].
    rewrite Hcash, Hpath. unfold intrinsic, Spec.asian_payoff, Spec.vanilla_payoff, Spec.mean.
    cbn [AsianOption.optionType AsianOption.strike fold_right length INR].
    replace ((spot model + 0) / 1) with (spot model) by (unfold Rdiv; rewrite Rinv_1; ring).
    destruct ty; ring.
  - destruct (Lookback_hedge_init_cash (LookbackOption.mk K Tm ty) model 1 w ltac:(lia))
      as (st & w1 & Hinit & Hcash & Hspot & Hpath).
    unfold LookbackOption.hedgeCost, LookbackOption.hedge_run. cbv zeta.
    unfold bind at 1. unfold bind at 1. rewrite Hinit.
    unfold for_loopM. change (Z.to_nat (1 - 1)) with O. cbn [iterateM]. unfold ret at 1.
    rewrite Hpath.
    run_with (Lookback_payoff_path_run (LookbackOption.mk K Tm ty) _ _ w1).
    eexists. eexists. split; [ reflexivity | ].
    rewrite Hcash. unfold intrinsic, Spec.lookback_payoff, Spec.vanilla_payoff,
      Spec.path_max, Spec.path_min.
    cbn [LookbackOption.optionType LookbackOption.strike fold_right].
    destruct ty; ring.
  - destruct (Barrier_hedge_init_cash (BarrierOption.mk K Tm B bt ty) model 1 w ltac:(lia))
      as (st & w1 & Hinit & Hcash & Hspot & Htouched).
    unfold BarrierOption.hedgeCost, BarrierOption.hedge_run. cbv zeta.
    unfold bind at 1. unfold bind at 1. rewrite Hinit.
    unfold for_loopM. change (Z.to_nat (1 - 1)) with O. cbn [iterateM]. unfold ret at 1.
    run_with (Barrier_payoff_run (BarrierOption.mk K Tm B bt ty) _ w1).
    eexists. eexists. split; [ reflexivity | ].
    rewrite Htouched, Hcash, Hspot. unfold intrinsic.
    unfold BarrierOption.is_in, BarrierOption.is_out.
    cbn [BarrierOption.barrierType BarrierOption.optionType BarrierOption.strike].
    destruct bt; cbn [andb negb]; ring.
Qed.

(** X16 on the example market. *)
Lemma X16_witness :
  exists v w',
    AsianOption.hedgeCost (AsianOption.mk 100 1 Call) example_model 1 example_world
    = Returned (v, w')
    /\ v = Spec.vanilla_payoff Call 100 (spot example_model).
Proof.
  destruct (X16_one_step_hedge_is_intrinsic 100 1 120 UpAndOut Call example_model
              example_world) as (HA & _).
  - simpl. lra.
  - lra.
  - exact HA.
Defined.

(** *** The draws a price depends on *)

Lemma S_ext (model : BlackScholesModel) (dt : R) (Zs Zs' : nat -> R) (j : nat) :
  (forall i, (i < j)%nat -> Zs i = Zs' i) ->
  Spec.S_ model dt Zs j = Spec.S_ model dt Zs' j.
Proof.
  induction j as [|j IH]; intros Hz; simpl.
  - reflexivity.
  - rewrite IH by (intros i Hi; apply Hz; lia). rewrite (Hz j) by lia. reflexivity.
Qed.

Lemma simulated_ext (model : BlackScholesModel) (steps : Z) (T : R) (Zs Zs' : nat -> R) :
  (forall i, (i < Z.to_nat steps)%nat -> Zs i = Zs' i) ->
  Spec.simulated model steps T Zs = Spec.simulated model steps T Zs'.
Proof.
  intros Hz. unfold Spec.simulated. apply map_ext_in. intros j Hj.
  apply in_seq in Hj. apply S_ext. intros i Hi. apply Hz. lia.
Qed.

Lemma path_draws_same (w1 w2 : World) (numPaths steps : Z) (i j : nat) :
  same_draws w1 w2 (Z.to_nat numPaths * Z.to_nat steps) ->
  (i < Z.to_nat numPaths)%nat -> (j < Z.to_nat steps)%nat ->
  path_draws w1 steps i j = path_draws w2 steps i j.
Proof.
  intros Hsame Hi Hj. unfold path_draws. apply Hsame. nia.
Qed.

Lemma mc_price_ext (model : BlackScholesModel) (numPaths : Z) (T : R) (f g : nat -> R) :
  (forall i, (i < Z.to_nat numPaths)%nat -> f i = g i) ->
  Spec.mc_price model numPaths T f = Spec.mc_price model numPaths T g.
Proof.
  intros Hfg. unfold Spec.mc_price. rewrite (sum_n_ext f g) by exact Hfg. reflexivity.
Qed.

(** X17.  A price depends on the first [numPaths * steps] draws of its
    engine only: priced with [steps >= 1] from two worlds whose next
    engines agree on these draws, an option has the same Asian, Lookback
    or Barrier price. *)
Theorem X17_price_reads_numPaths_times_steps_draws (oA : AsianOption.t)
    (oL : LookbackOption.t) (oB : BarrierOption.t) (model : BlackScholesModel)
    (numPaths steps : Z) (T : R) (w1 w2 : World) :
  (1 <= steps)%Z ->
  same_draws w1 w2 (Z.to_nat numPaths * Z.to_nat steps) ->
  exists a l b wa1 wa2 wl1 wl2 wb1 wb2,
    AsianOption.price_adjusted oA model numPaths steps T w1 = Returned (a, wa1)
    /\ AsianOption.price_adjusted oA model numPaths steps T w2 = Returned (a, wa2)
    /\ LookbackOption.price_adjusted oL model numPaths steps T w1 = Returned (l, wl1)
    /\ LookbackOption.price_adjusted oL model numPaths steps T w2 = Returned (l, wl2)
    /\ BarrierOption.price_adjusted oB model numPaths steps T w1 = Returned (b, wb1)
    /\ BarrierOption.price_adjusted oB model numPaths steps T w2 = Returned (b, wb2).
Proof.
  intros Hsteps Hsame.
  assert (Hpaths : forall i, (i < Z.to_nat numPaths)%nat ->
             Spec.simulated model steps T (path_draws w1 steps i)
             = Spec.simulated model steps T (path_draws w2 steps i)).
  { intros i Hi. apply simulated_ext. intros j Hj.
    eapply path_draws_same; eassumption. }
  assert (Hterm : forall i, (i < Z.to_nat numPaths)%nat ->
             Spec.S_ model (T / IZR steps) (path_draws w1 steps i) (Z.to_nat steps)
             = Spec.S_ model (T / IZR steps) (path_draws w2 steps i) (Z.to_nat steps)).
  { intros i Hi. apply S_ext. intros j Hj. eapply path_draws_same; eassumption. }
  rewrite !Asian_price_adjusted_run by lia.
  rewrite !Lookback_price_adjusted_run by lia.
  rewrite !Barrier_price_adjusted_run by lia.
  rewrite (mc_price_ext model numPaths T (Asian_path_payoff oA model steps T w1)
             (Asian_path_payoff oA model steps T w2))
    by (intros i Hi; unfold Asian_path_payoff; rewrite Hpaths by exact Hi; reflexivity).
  rewrite (mc_price_ext model numPaths T (Lookback_path_payoff oL model steps T w1)
             (Lookback_path_payoff oL model steps T w2))
    by (intros i Hi; unfold Lookback_path_payoff; rewrite Hpaths by exact Hi; reflexivity).
  rewrite (mc_price_ext model numPaths T (Barrier_path_payoff oB model steps T w1)
             (Barrier_path_payoff oB model steps T w2))
    by (intros i Hi; unfold Barrier_path_payoff;
        rewrite Hpaths, Hterm by exact Hi; reflexivity).
  do 9 eexists. repeat split; reflexivity.
Qed.

(** X17 on the example world and the world that has made one more call
    of [rand()]. *)
Lemma X17_witness :
  exists a wa1 wa2,
    AsianOption.price_adjusted example_asian example_model 3 2 1 example_world
    = Returned (a, wa1)
    /\ AsianOption.price_adjusted example_asian example_model 3 2 1 (drew example_world 1)
       = Returned (a, wa2).
Proof.
  destruct (X17_price_reads_numPaths_times_steps_draws example_asian example_lookback
              example_barrier example_model 3 2 1 example_world (drew example_world 1))
    as (a & l & b & wa1 & wa2 & _ & _ & _ & _ & H1 & H2 & _).
  - lia.
  - intros k Hk. reflexivity.
  - exists a, wa1, wa2. split; assumption.
Defined.

(** *** Degenerate configurations *)

(** X18.  With [steps = 0] and [numPaths >= 1] the Lookback pricer
    simulates nothing and still returns a price, without failing: every
    path it evaluates a payoff on is the one point [model.spot], and the
    price is the discounted mean [exp(-rate*T) * (sum / numPaths)] the
    code computes, [sum] being the sum of [numPaths] copies of the
    intrinsic value [max(spot - strike, 0)] of a call
    ([max(strike - spot, 0)] of a put). *)
Theorem X18_lookback_price_without_steps (o : LookbackOption.t)
    (model : BlackScholesModel) (numPaths : Z) (T : R) (w : World) :
  (1 <= numPaths)%Z ->
  let intrinsic :=
    Spec.vanilla_payoff (LookbackOption.optionType o) (LookbackOption.strike o)
      (spot model) in
  exists v evs,
    LookbackOption.price_adjusted o model numPaths 0 T w = Returned (v, after_price w evs)
    /\ (forall path, In path (payoff_paths evs) -> path = [spot model])
    /\ v = exp (- rate model * T)
           * (Spec.sum_n (fun _ => intrinsic) (Z.to_nat numPaths) / IZR numPaths).
Proof.
  intros _ intrinsic. rewrite Lookback_price_adjusted_run by lia.
  do 2 eexists. split; [ reflexivity | ]. split.
  - rewrite payoff_paths_of_price. intros path Hpath.
    apply in_map_iff in Hpath. destruct Hpath as (i & <- & _).
    rewrite simulated_with_seed_cons. unfold Spec.simulated.
    change (Z.to_nat 0) with O. reflexivity.
  - change (exp (- rate model * T)
            * (Spec.sum_n (fun _ => intrinsic) (Z.to_nat numPaths) / IZR numPaths))
      with (Spec.mc_price model numPaths T (fun _ => intrinsic)).
    apply mc_price_ext. intros i _.
    unfold intrinsic, Lookback_path_payoff, Spec.simulated, Spec.lookback_payoff,
      Spec.vanilla_payoff, Spec.path_max, Spec.path_min.
    change (Z.to_nat 0) with O. cbn [seq map fold_right]. reflexivity.
Qed.

(** X18 at three paths on the example market. *)
Lemma X18_witness :
  exists v evs,
    LookbackOption.price_adjusted example_lookback example_model 3 0 1 example_world
    = Returned (v, after_price example_world evs)
    /\ (forall path, In path (payoff_paths evs) -> path = [spot example_model])
    /\ v = exp (- rate example_model * 1)
           * (Spec.sum_n
                (fun _ => Spec.vanilla_payoff (LookbackOption.optionType example_lookback)
                            (LookbackOption.strike example_lookback) (spot example_model))
                (Z.to_nat 3) / IZR 3).
Proof.
  apply (X18_lookback_price_without_steps example_lookback example_model 3 1
           example_world).
  lia.
Defined.

Lemma S_without_volatility (model : BlackScholesModel) (dt : R) (Zs : nat -> R) (j : nat) :
  volatility model = 0 ->
  Spec.S_ model dt Zs j = forward_price model dt j.
Proof.
  intros Hvol. induction j as [|j IH].
  - reflexivity.
  - cbn [Spec.S_ forward_price]. rewrite IH. unfold Spec.gbm_next. rewrite Hvol.
    replace ((rate model - dividend model - 0.5 * 0 ^ 2) * dt + 0 * sqrt dt * Zs j)
      with ((rate model - dividend model) * dt) by ring.
    reflexivity.
Qed.

Lemma simulated_without_volatility (model : BlackScholesModel) (steps : Z) (T : R)
    (Zs : nat -> R) :
  volatility model = 0 ->
  Spec.simulated model steps T Zs = forward_curve model steps T.
Proof.
  intros Hvol. unfold Spec.simulated, forward_curve. apply map_ext. intros j.
  apply S_without_volatility. exact Hvol.
Qed.

(** X19.  A model of volatility 0 is accepted and priced without noise:
    with [numPaths >= 1], [steps >= 1] and a horizon [T >= 0] every
    simulated path is the same curve, whatever the engine draws: its
    [j]-th price is the one before it (the spot, for the first) times
    [exp((rate - dividend) * (T/steps))].  Every path the Asian and the
    Lookback pricer evaluate a payoff on is this curve (after the spot, for
    the Lookback pricer), and the Asian, the Lookback and the Barrier price
    are the discounted mean [exp(-rate*T) * (sum / numPaths)] the code
    computes, [sum] being the sum of [numPaths] copies of the payoff of
    this one path. *)
Theorem X19_zero_volatility_prices_the_forward_curve (oA : AsianOption.t)
    (oL : LookbackOption.t) (oB : BarrierOption.t) (model : BlackScholesModel)
    (numPaths steps : Z) (T : R) (w : World) :
  volatility model = 0 -> (1 <= numPaths)%Z -> (1 <= steps)%Z -> 0 <= T ->
  let curve := forward_curve model steps T in
  let mean_of (payoff : R) :=
    exp (- rate model * T)
    * (Spec.sum_n (fun _ => payoff) (Z.to_nat numPaths) / IZR numPaths) in
  exists a l b evsA evsL wb,
    AsianOption.price_adjusted oA model numPaths steps T w
    = Returned (a, after_price w evsA)
    /\ LookbackOption.price_adjusted oL model numPaths steps T w
       = Returned (l, after_price w evsL)
    /\ BarrierOption.price_adjusted oB model numPaths steps T w = Returned (b, wb)
    /\ (forall path, In path (payoff_paths evsA) -> path = curve)
    /\ (forall path, In path (payoff_paths evsL) -> path = spot model :: curve)
    /\ a = mean_of (Spec.asian_payoff (AsianOption.optionType oA)
                      (AsianOption.strike oA) curve)
    /\ l = mean_of (Spec.lookback_payoff (LookbackOption.optionType oL)
                      (LookbackOption.strike oL) (spot model) curve)
    /\ b = mean_of (Spec.barrier_payoff (BarrierOption.barrierType oB)
                      (BarrierOption.optionType oB) (BarrierOption.strike oB)
                      (BarrierOption.isBarrierTouched oB curve)
                      (forward_price model (T / IZR steps) (Z.to_nat steps))).
Proof.
  intros Hvol _ Hsteps _ curve mean_of.
  rewrite Asian_price_adjusted_run by lia.
  rewrite Lookback_price_adjusted_run by lia.
  rewrite Barrier_price_adjusted_run by lia.
  do 6 eexists.
  split; [ reflexivity | ]. split; [ reflexivity | ]. split; [ reflexivity | ].
  split; [ | split; [ | split; [ | split ] ] ].
  - rewrite payoff_paths_of_price. intros path Hpath.
    apply in_map_iff in Hpath. destruct Hpath as (i & <- & _).
    apply simulated_without_volatility, Hvol.
  - rewrite payoff_paths_of_price. intros path Hpath.
    apply in_map_iff in Hpath. destruct Hpath as (i & <- & _).
    rewrite simulated_with_seed_cons, simulated_without_volatility by exact Hvol.
    reflexivity.
  - apply mc_price_ext. intros i _. unfold Asian_path_payoff.
    rewrite simulated_without_volatility by exact Hvol. reflexivity.
  - apply mc_price_ext. intros i _. unfold Lookback_path_payoff.
    rewrite simulated_without_volatility by exact Hvol. reflexivity.
  - apply mc_price_ext. intros i _. unfold Barrier_path_payoff.
    rewrite simulated_without_volatility, S_without_volatility by exact Hvol.
    reflexivity.
Qed.

(** X19 on the example market with its volatility set to 0. *)
Lemma X19_witness :
  exists a evsA,
    AsianOption.price_adjusted example_asian
      {| spot := 100; rate := 0.05; volatility := 0; dividend := 0 |} 3 2 1 example_world
    = Returned (a, after_price example_world evsA)
    /\ (forall path, In path (payoff_paths evsA) ->
        path = forward_curve
                 {| spot := 100; rate := 0.05; volatility := 0; dividend := 0 |} 2 1).
Proof.
  destruct (X19_zero_volatility_prices_the_forward_curve example_asian example_lookback
              example_barrier
              {| spot := 100; rate := 0.05; volatility := 0; dividend := 0 |}
              3 2 1 example_world)
    as (a & l & b & evsA & evsL & wb & Ha & _ & _ & Hpaths & _).
  - reflexivity.
  - lia.
  - lia.
  - lra.
  - exists a, evsA. split; [ exact Ha | exact Hpaths ].
Defined.
